(** * GameEngine: a shallow embedding of [src/GameEngine.py]

    The attacker/defender network game: a directed graph (networkx
    [DiGraph]), the infected and quarantined node lists, the per-round
    traffic queues, the quarantine and infection updates and the reward
    table.  Python exceptions are outcomes of a small state-and-exception
    monad: a raise keeps the mutations made before it, as in Python.

    The calls of the [random] module take the raw draw as an argument, so
    every function is executable; the collaborators (Attacker, Defender)
    are a log of the training points they receive plus the answers they
    give, which are inputs of a round. *)

From Stdlib Require Import List String Ascii ZArith QArith Bool Lia Arith.
From Stdlib Require Import Reals Lra.
From Stdlib Require Import Floats.
Import ListNotations.

Set Warnings "-inexact-float".

Local Open Scope Z_scope.

(** ** Python values and exceptions *)

Inductive Exn : Type :=
| NetworkXError   (* networkx: node or edge not in the graph *)
| KeyError        (* dict lookup of a missing key *)
| IndexError      (* random.choice of an empty sequence, iloc out of bounds *)
| ValueError      (* random.randint of an empty range, unpacking of zip() *)
| TypeError.      (* an order comparison of None with a number *)

Inductive Outcome (A : Type) : Type :=
| Val (a : A)
| Raise (e : Exn).

Arguments Val {A} a.
Arguments Raise {A} e.

Definition obind {A B} (o : Outcome A) (k : A -> Outcome B) : Outcome B :=
  match o with
  | Val a => k a
  | Raise e => Raise e
  end.

Fixpoint omap {A B} (f : A -> Outcome B) (l : list A) : Outcome (list B) :=
  match l with
  | [] => Val []
  | a :: l' =>
      obind (f a) (fun b => obind (omap f l') (fun bs => Val (b :: bs)))
  end.

Definition Node := string.

Definition mem (n : Node) (l : list Node) : bool := existsb (String.eqb n) l.

(** ** Collaborator declarations that are not in [src/] *)

Module Defender.
(** Modelled from the spec: the four suspicion labels of [Defender.py]
    (not under [src/]), [NONE < LOW < MEDIUM < HIGH]; they are four
    distinct keys of [GameEngine.COLOR_MAP]. *)
Inductive Label : Type :=
| NO_SUSPICION_LABEL
| LOW_SUSPICION_LABEL
| MEDIUM_SUSPICION_LABEL
| HIGH_SUSPICION_LABEL.
End Defender.

Module Message.
(** Modelled from the spec: a message of [Message.py] (not under
    [src/]) has an origin, a destination, a malicious flag and an opaque
    payload taken from the dataset record it was built from. *)
Record t : Type := Build {
  origin : Node;
  destination : Node;
  malicious : bool;
  payload : list string
}.

Definition isMalicious (m : t) : bool := malicious m.

(** A dataset record: [Message(row)] reads the origin and destination
    fields (which the engine overwrites first) and keeps the rest. *)
Record Row : Type := BuildRow {
  rowOrigin : Node;
  rowDestination : Node;
  rowMalicious : bool;
  rowPayload : list string
}.

Definition ofRow (r : Row) : t :=
  Build (rowOrigin r) (rowDestination r) (rowMalicious r) (rowPayload r).
End Message.

(** ** networkx.DiGraph

    The successor dictionary of the graph, in insertion order: one entry
    per node, holding the node's successors.  The engine reads only the
    successor side ([has_edge], [neighbors], [out_edges]). *)

Module DiGraph.
Definition t : Type := list (Node * list Node).

Definition nodes (g : t) : list Node := map fst g.

Fixpoint adj (g : t) (n : Node) : option (list Node) :=
  match g with
  | [] => None
  | (k, vs) :: g' => if String.eqb k n then Some vs else adj g' n
  end.

Definition has_node (g : t) (n : Node) : bool :=
  match adj g n with Some _ => true | None => false end.

(** [has_edge] answers [False] for a missing node, it does not raise. *)
Definition has_edge (g : t) (u v : Node) : bool :=
  match adj g u with
  | Some vs => mem v vs
  | None => false
  end.

(** [neighbors] (the successors in a DiGraph) raises for a missing node. *)
Definition neighbors (g : t) (n : Node) : Outcome (list Node) :=
  match adj g n with
  | Some vs => Val vs
  | None => Raise NetworkXError
  end.

Definition add_node (g : t) (n : Node) : t :=
  if has_node g n then g else g ++ [(n, [])].

Fixpoint set_adj (g : t) (u : Node) (f : list Node -> list Node) : t :=
  match g with
  | [] => []
  | (k, vs) :: g' =>
      if String.eqb k u then (k, f vs) :: g' else (k, vs) :: set_adj g' u f
  end.

Definition add_edge (g : t) (u v : Node) : t :=
  let g1 := add_node (add_node g u) v in
  set_adj g1 u (fun vs => if mem v vs then vs else vs ++ [v]).

Definition del_succ (g : t) (u v : Node) : t :=
  set_adj g u (filter (fun w => negb (String.eqb w v))).

(** [remove_edge] raises when the edge is not in the graph. *)
Definition remove_edge (g : t) (u v : Node) : Outcome t :=
  if has_edge g u v then Val (del_succ g u v) else Raise NetworkXError.

(** [remove_edges_from] skips the edges that are not in the graph. *)
Definition remove_edges_from (g : t) (es : list (Node * Node)) : t :=
  fold_left
    (fun g' e => if has_edge g' (fst e) (snd e)
                 then del_succ g' (fst e) (snd e) else g')
    es g.

Fixpoint dedup (l : list Node) : list Node :=
  match l with
  | [] => []
  | x :: l' => x :: filter (fun y => negb (String.eqb y x)) (dedup l')
  end.

(** [nbunch_iter]: a node of the graph stands for itself; anything else
    is iterated as a container, and a string is a container of its
    one-character strings, of which those that are nodes are kept. *)
Definition nbunch_iter (g : t) (n : Node) : list Node :=
  if has_node g n then [n]
  else filter (has_node g)
         (map (fun c => String c EmptyString) (list_ascii_of_string n)).

(** [out_edges(nbunch)]: the edges leaving the nodes of the bunch. *)
Definition out_edges (g : t) (n : Node) : list (Node * Node) :=
  flat_map
    (fun u => match adj g u with
              | Some vs => map (fun v => (u, v)) vs
              | None => []
              end)
    (dedup (nbunch_iter g n)).

(** Whether the edge [(n, w)] is one of the edges [es]. *)
Definition removed (es : list (Node * Node)) (n w : Node) : bool :=
  existsb (fun e => String.eqb (fst e) n && String.eqb w (snd e)) es.

(** [degree()]: per node, the number of its successors plus the number
    of its predecessors. *)
Definition degree (g : t) : list (Node * Z) :=
  map (fun e =>
         (fst e,
          Z.of_nat (List.length (snd e)) +
          Z.of_nat (List.length (filter (fun u => has_edge g u (fst e)) (nodes g)))))
    g.
End DiGraph.

(** ** The [random] module

    Each call takes its raw draw [u]: [randint a b] maps the draws
    [0 .. b - a] one to one onto [a .. b], [choice l] maps the draws
    [0 .. len l - 1] one to one onto the positions of [l].  The draws
    [seq 0 n] are the [n] equally likely cases of a call with [n]
    outcomes. *)

Module random.
(** [random.randint(a, b)]: both ends included; an empty range raises. *)
Definition randint (a b : Z) (u : nat) : Outcome Z :=
  if a <=? b then Val (a + (Z.of_nat u) mod (b - a + 1))
  else Raise ValueError.

(** [random.choice(seq)]: raises IndexError on an empty sequence. *)
Definition choice {A} (l : list A) (u : nat) : Outcome A :=
  match l with
  | [] => Raise IndexError
  | x :: _ => Val (nth (Nat.modulo u (List.length l)) l x)
  end.

(** [random.sample(population, 1)]: a list of one element. *)
Definition sample1 {A} (l : list A) (u : nat) : Outcome (list A) :=
  match l with
  | [] => Raise ValueError
  | x :: _ => Val [nth (Nat.modulo u (List.length l)) l x]
  end.

(** The number of outcomes of [randint a b]. *)
Definition randint_size (a b : Z) : nat := Z.to_nat (b - a + 1).
End random.

(** ** Game state *)

(** An entry of the attacker's state vector: a queue length or a score
    (int), or a reachability flag (bool). *)
Inductive PyVal : Type :=
| PyInt (z : Z)
| PyBool (b : bool).

Definition TrafficInfo : Type := list PyVal.

(** A training point of the attacker: (state vector, action index,
    reward); the reward is whatever [calculateScore] returned, [None]
    included. *)
Definition AttackerPoint : Type := (TrafficInfo * Z * option Q)%type.

(** A training point of the defender: (message, label, reward). *)
Definition DefenderPoint : Type := (Message.t * Defender.Label * Q)%type.

(** Modelled from the spec: the Attacker collaborator of [Attacker.py]
    (not under [src/]), as far as the engine touches it: the size of its
    action space and the training points handed to [addTrainingPoint],
    oldest first. *)
Record AttackerT : Type := BuildAttacker {
  OUTPUT_SIZE : Z;
  attackerPoints : list AttackerPoint
}.

(** Modelled from the spec: the Defender collaborator of [Defender.py]
    (not under [src/]): the training points handed to [addTrainingPoint],
    oldest first. *)
Record DefenderT : Type := BuildDefender {
  defenderPoints : list DefenderPoint
}.

Record GameState : Type := BuildState {
  graph : DiGraph.t;
  colorMap : list (Node * string);
  infectedNodes : list Node;
  quarantinedNodes : list Node;
  reachableNodes : list Z;
  roundNumber : Z;
  lastAttackerScore : option Q;
  dataset : list Message.Row;
  traffic : list Message.t;
  attackMessage : option Message.t;
  attacker : AttackerT;
  defender : DefenderT
}.

Definition set_graph (g : DiGraph.t) (s : GameState) : GameState :=
  BuildState g (colorMap s) (infectedNodes s) (quarantinedNodes s)
    (reachableNodes s) (roundNumber s) (lastAttackerScore s) (dataset s)
    (traffic s) (attackMessage s) (attacker s) (defender s).

Definition set_colorMap (c : list (Node * string)) (s : GameState) : GameState :=
  BuildState (graph s) c (infectedNodes s) (quarantinedNodes s)
    (reachableNodes s) (roundNumber s) (lastAttackerScore s) (dataset s)
    (traffic s) (attackMessage s) (attacker s) (defender s).

Definition set_infectedNodes (l : list Node) (s : GameState) : GameState :=
  BuildState (graph s) (colorMap s) l (quarantinedNodes s)
    (reachableNodes s) (roundNumber s) (lastAttackerScore s) (dataset s)
    (traffic s) (attackMessage s) (attacker s) (defender s).

Definition set_quarantinedNodes (l : list Node) (s : GameState) : GameState :=
  BuildState (graph s) (colorMap s) (infectedNodes s) l
    (reachableNodes s) (roundNumber s) (lastAttackerScore s) (dataset s)
    (traffic s) (attackMessage s) (attacker s) (defender s).

Definition set_reachableNodes (l : list Z) (s : GameState) : GameState :=
  BuildState (graph s) (colorMap s) (infectedNodes s) (quarantinedNodes s)
    l (roundNumber s) (lastAttackerScore s) (dataset s)
    (traffic s) (attackMessage s) (attacker s) (defender s).

Definition set_roundNumber (n : Z) (s : GameState) : GameState :=
  BuildState (graph s) (colorMap s) (infectedNodes s) (quarantinedNodes s)
    (reachableNodes s) n (lastAttackerScore s) (dataset s)
    (traffic s) (attackMessage s) (attacker s) (defender s).

Definition set_lastAttackerScore (r : option Q) (s : GameState) : GameState :=
  BuildState (graph s) (colorMap s) (infectedNodes s) (quarantinedNodes s)
    (reachableNodes s) (roundNumber s) r (dataset s)
    (traffic s) (attackMessage s) (attacker s) (defender s).

Definition set_traffic (t : list Message.t) (s : GameState) : GameState :=
  BuildState (graph s) (colorMap s) (infectedNodes s) (quarantinedNodes s)
    (reachableNodes s) (roundNumber s) (lastAttackerScore s) (dataset s)
    t (attackMessage s) (attacker s) (defender s).

Definition set_attackMessage (m : option Message.t) (s : GameState) : GameState :=
  BuildState (graph s) (colorMap s) (infectedNodes s) (quarantinedNodes s)
    (reachableNodes s) (roundNumber s) (lastAttackerScore s) (dataset s)
    (traffic s) m (attacker s) (defender s).

Definition set_attacker (a : AttackerT) (s : GameState) : GameState :=
  BuildState (graph s) (colorMap s) (infectedNodes s) (quarantinedNodes s)
    (reachableNodes s) (roundNumber s) (lastAttackerScore s) (dataset s)
    (traffic s) (attackMessage s) a (defender s).

Definition set_defender (d : DefenderT) (s : GameState) : GameState :=
  BuildState (graph s) (colorMap s) (infectedNodes s) (quarantinedNodes s)
    (reachableNodes s) (roundNumber s) (lastAttackerScore s) (dataset s)
    (traffic s) (attackMessage s) (attacker s) d.

(** ** The state-and-exception monad of the engine's methods *)

Definition M (A : Type) : Type := GameState -> Outcome A * GameState.

Definition ret {A} (a : A) : M A := fun s => (Val a, s).

Definition bind {A B} (c : M A) (k : A -> M B) : M B :=
  fun s =>
    match c s with
    | (Val a, s') => k a s'
    | (Raise e, s') => (Raise e, s')
    end.

Definition lift {A} (f : GameState -> Outcome A) : M A := fun s => (f s, s).

Definition modify (f : GameState -> GameState) : M unit :=
  fun s => (Val tt, f s).

Declare Scope engine_scope.
Delimit Scope engine_scope with engine.

Notation "x <- c ;; k" := (bind c (fun x => k))
  (at level 100, c at next level, right associativity) : engine_scope.
Notation "c ;;; k" := (bind c (fun _ => k))
  (at level 100, right associativity) : engine_scope.

Local Open Scope engine_scope.

Fixpoint forM_ {A} (f : A -> M unit) (l : list A) : M unit :=
  match l with
  | [] => ret tt
  | a :: l' => f a ;;; forM_ f l'
  end.

(** The state a computation leaves behind, whether it returned or raised. *)
Definition exec {A} (c : M A) (s : GameState) : GameState := snd (c s).

Definition result {A} (c : M A) (s : GameState) : Outcome A := fst (c s).

(** ** Python containers used by the engine *)

(** [d[k] = v] on a dictionary kept in insertion order. *)
Fixpoint dict_set {V} (d : list (Node * V)) (k : Node) (v : V) : list (Node * V) :=
  match d with
  | [] => [(k, v)]
  | (k', v') :: d' =>
      if String.eqb k' k then (k', v) :: d' else (k', v') :: dict_set d' k v
  end.

Fixpoint dict_get {V} (d : list (Node * V)) (k : Node) : option V :=
  match d with
  | [] => None
  | (k', v') :: d' => if String.eqb k' k then Some v' else dict_get d' k
  end.

(** [l.insert(position, x)] for a position that is not negative: past the
    end of the list it appends. *)
Definition list_insert {A} (position : nat) (x : A) (l : list A) : list A :=
  firstn position l ++ x :: skipn position l.

(** [int / int] of Python 3 is the exact quotient. *)
Definition truediv (a : Z) (b : positive) : Q := a # b.

(** ** The inputs of one round

    What the round takes from outside the engine: the raw draws of its
    [random] calls and the answers of the two collaborators. *)

Record RoundInput : Type := BuildInput {
  countDraw : nat;                      (* randint(1, MAX_BACKGROUND_TRAFFIC_MESSAGES) *)
  rowDraw : nat -> nat;                 (* randint(1, datasetLength - 1), per sample *)
  originDraw : nat -> nat;              (* random.choice(nodes), per sample *)
  destinationDraw : nat -> nat;         (* random.choice(successors), per sample *)
  getAttack : option Message.t * Z;     (* attacker.getAttack(...) *)
  positionDraw : nat;                   (* randint(0, len(queue) + 1) *)
  skipDraw : Node -> nat -> bool;       (* random.random() > calculateInspectionChance(len(queue)),
                                           for the message at a position of a node's queue *)
  inspect : Node -> nat -> Defender.Label  (* defender.inspect(message), same indexing *)
}.

Module GameEngine.
Import Defender.

Definition MAX_BACKGROUND_TRAFFIC_MESSAGES : Z := 30.

Definition COLOR_MAP (l : Label) : string :=
  match l with
  | NO_SUSPICION_LABEL => "blue"
  | LOW_SUSPICION_LABEL => "yellow"
  | MEDIUM_SUSPICION_LABEL => "orange"
  | HIGH_SUSPICION_LABEL => "red"
  end%string.

(** *** Topology queries *)

(** The loop [for infectedNode in self.infectedNodes] of [isReachable]. *)
Fixpoint isReachable_loop (g : DiGraph.t) (node : Node) (infected : list Node)
  : Outcome bool :=
  match infected with
  | [] => Val false
  | infectedNode :: rest =>
      obind (DiGraph.neighbors g infectedNode)
        (fun nbrs => if mem node nbrs then Val true
                     else isReachable_loop g node rest)
  end.

(** [isReachable] (source lines 352-371). *)
Definition isReachable (s : GameState) (node : Node) : Outcome bool :=
  if mem node (infectedNodes s) then Val false
  else isReachable_loop (graph s) node (infectedNodes s).

(** [calculateNodeInfectionReward] (source lines 334-350). *)
Definition calculateNodeInfectionReward (s : GameState) (node : Node) : Outcome Z :=
  if mem node (infectedNodes s) then Val 0
  else
    obind (DiGraph.neighbors (graph s) node)
      (fun neighbors =>
         Val (1 + Z.of_nat
                (List.length
                   (filter (fun neighbor => negb (mem neighbor (infectedNodes s)))
                      neighbors)))).

(** [[int(self.isReachable(node)) for node in self.graph.nodes()]]. *)
Definition recomputeReachable (s : GameState) : Outcome (list Z) :=
  omap (fun node => obind (isReachable s node)
                      (fun b => Val (if b then 1 else 0)))
    (DiGraph.nodes (graph s)).

(** [gameOver]: [not any(self.reachableNodes)]. *)
Definition gameOver (s : GameState) : bool :=
  negb (existsb (fun r => negb (r =? 0)) (reachableNodes s)).

(** *** Topology updates *)

(** [infectNode] (source lines 320-332). *)
Definition infectNode (destination : Node) : M unit :=
  modify (fun s =>
    if mem destination (infectedNodes s) then s
    else set_infectedNodes (infectedNodes s ++ [destination]) s).

(** [quarantineNode] (source lines 294-317): [remove_edges_from] for
    HIGH, [remove_edge] for any other label. *)
Definition quarantineNode (origin destination : Node) (label : Label) : M unit :=
  match label with
  | HIGH_SUSPICION_LABEL =>
      modify (fun s =>
        if mem origin (quarantinedNodes s) then s
        else set_quarantinedNodes (quarantinedNodes s ++ [origin]) s) ;;;
      modify (fun s =>
        let out_edges := DiGraph.out_edges (graph s) origin in
        set_graph (DiGraph.remove_edges_from (graph s) out_edges) s)
  | _ =>
      g <- lift (fun s => DiGraph.remove_edge (graph s) origin destination) ;;
      modify (set_graph g)
  end.

(** [updateNetwork] (source lines 271-292). *)
Definition updateNetwork (message : Message.t) (label : Label) : M unit :=
  modify (fun s =>
    set_colorMap (dict_set (colorMap s) (Message.origin message) (COLOR_MAP label)) s) ;;;
  (match label with
   | HIGH_SUSPICION_LABEL | MEDIUM_SUSPICION_LABEL =>
       quarantineNode (Message.origin message) (Message.destination message) label
   | _ =>
       if Message.isMalicious message
       then infectNode (Message.destination message)
       else ret tt
   end) ;;;
  r <- lift recomputeReachable ;;
  modify (set_reachableNodes r).

(** *** Scoring *)

(** [calculateScore] (source lines 413-444); [None] is Python's [None]. *)
Definition calculateScore (s : GameState) (message : Message.t) (label : Label)
  : Outcome (option Q * Q) :=
  obind (calculateNodeInfectionReward s (Message.destination message))
    (fun attackerReward =>
  obind (DiGraph.neighbors (graph s) (Message.destination message))
    (fun nbrs =>
       let defenderReward := Z.of_nat (List.length nbrs) + 1 in
       if Message.isMalicious message then
         match label with
         | HIGH_SUSPICION_LABEL =>
             Val (Some (inject_Z (- attackerReward)), inject_Z defenderReward)
         | MEDIUM_SUSPICION_LABEL =>
             Val (Some (truediv (- attackerReward) 2), inject_Z defenderReward)
         | _ =>
             Val (Some (inject_Z attackerReward), inject_Z (- defenderReward))
         end
       else
         match label with
         | HIGH_SUSPICION_LABEL => Val (None, inject_Z (- defenderReward))
         | MEDIUM_SUSPICION_LABEL => Val (None, truediv (- defenderReward) 2)
         | _ => Val (None, inject_Z defenderReward)
         end)).

(** *** Collaborator calls *)

Definition attacker_addTrainingPoint (p : AttackerPoint) : M unit :=
  modify (fun s =>
    set_attacker
      (BuildAttacker (OUTPUT_SIZE (attacker s)) (attackerPoints (attacker s) ++ [p])) s).

Definition defender_addTrainingPoint (p : DefenderPoint) : M unit :=
  modify (fun s =>
    set_defender (BuildDefender (defenderPoints (defender s) ++ [p])) s).

(** *** Traffic generation *)

(** [dataset.iloc[index]] for an index that is not negative. *)
Definition iloc (d : list Message.Row) (index : Z) : Outcome Message.Row :=
  match nth_error d (Z.to_nat index) with
  | Some r => if 0 <=? index then Val r else Raise IndexError
  | None => Raise IndexError
  end.

(** One pass of the loop over [rows]: [None] is the [continue] of the
    bare [except]. *)
Definition backgroundMessage (g : DiGraph.t) (inp : RoundInput) (k : nat)
    (row : Message.Row) : Outcome (option Message.t) :=
  let nodes := DiGraph.nodes g in
  obind (random.choice nodes (originDraw inp k))
    (fun newOrigin =>
       match random.choice (filter (fun node => DiGraph.has_edge g newOrigin node) nodes)
               (destinationDraw inp k) with
       | Raise _ => Val None
       | Val newDestination =>
           Val (Some (Message.ofRow
                        (Message.BuildRow newOrigin newDestination
                           (Message.rowMalicious row) (Message.rowPayload row))))
       end).

Fixpoint backgroundMessages (g : DiGraph.t) (inp : RoundInput) (k : nat)
    (rows : list Message.Row) : Outcome (list Message.t) :=
  match rows with
  | [] => Val []
  | row :: rows' =>
      obind (backgroundMessage g inp k row)
        (fun m => obind (backgroundMessages g inp (S k) rows')
                    (fun ms => Val (match m with Some x => x :: ms | None => ms end)))
  end.

(** [numMessages] and [rowIndices] of [generateBackgroundTraffic]. *)
Definition rowIndices (s : GameState) (inp : RoundInput) : Outcome (list Z) :=
  obind (random.randint 1 MAX_BACKGROUND_TRAFFIC_MESSAGES (countDraw inp))
    (fun numMessages =>
       let datasetLength := Z.of_nat (List.length (dataset s)) in
       omap (fun k => random.randint 1 (datasetLength - 1) (rowDraw inp k))
         (seq 0 (Z.to_nat numMessages))).

(** [generateBackgroundTraffic] (source lines 240-264). *)
Definition generateBackgroundTraffic (s : GameState) (inp : RoundInput)
  : Outcome (list Message.t) :=
  obind (rowIndices s inp)
    (fun indices =>
       obind (omap (iloc (dataset s)) indices)
         (fun rows => backgroundMessages (graph s) inp 0 rows)).

Definition Queues : Type := list (Node * list Message.t).

(** The dictionary [organizedQueues]: per node, the messages sent to it. *)
Definition organize (g : DiGraph.t) (msgs : list Message.t) : Queues :=
  map (fun node =>
         (node, filter (fun message => String.eqb (Message.destination message) node) msgs))
    (DiGraph.nodes g).

(** [nodeInformation]: per node, its queue length, reachability and
    infection reward. *)
Definition nodeInformation (s : GameState) (q : Queues)
  : Outcome (list (Z * bool * Z)) :=
  omap (fun node =>
          obind (isReachable s node) (fun r =>
          obind (calculateNodeInfectionReward s node) (fun score =>
            Val (Z.of_nat (List.length (match dict_get q node with
                                        | Some l => l | None => [] end)),
                 r, score))))
    (DiGraph.nodes (graph s)).

(** The unzipping of [nodeInformation] and the concatenation of its three tuples:
    all queue lengths, then all reachability flags, then all scores. *)
Definition trafficInfoOf (info : list (Z * bool * Z)) : TrafficInfo :=
  let trafficFlow := map (fun i => PyInt (fst (fst i))) info in
  let reachable := map (fun i => PyBool (snd (fst i))) info in
  let infectionScores := map (fun i => PyInt (snd i)) info in
  trafficFlow ++ reachable ++ infectionScores.

(** [generateTrafficQueues] (source lines 206-238). *)
Definition generateTrafficQueues (inp : RoundInput) : M (Queues * TrafficInfo * Z) :=
  msgs <- lift (fun s => generateBackgroundTraffic s inp) ;;
  modify (set_traffic msgs) ;;;
  organizedQueues <- lift (fun s => Val (organize (graph s) msgs)) ;;
  info <- lift (fun s => nodeInformation s organizedQueues) ;;
  (match info with
   | [] => lift (fun _ => Raise ValueError)
   | _ => ret tt
   end) ;;;
  let trafficInfo := trafficInfoOf info in
  let attackIndex := snd (getAttack inp) in
  modify (set_attackMessage (fst (getAttack inp))) ;;;
  match fst (getAttack inp) with
  | Some attackMsg =>
      match dict_get organizedQueues (Message.destination attackMsg) with
      | None => lift (fun _ => Raise KeyError)
      | Some queue =>
          position <- lift (fun _ =>
            random.randint 0 (Z.of_nat (List.length queue) + 1) (positionDraw inp)) ;;
          ret (dict_set organizedQueues (Message.destination attackMsg)
                 (list_insert (Z.to_nat position) attackMsg queue),
               trafficInfo, attackIndex)
      end
  | None =>
      s <- lift (fun s => Val s) ;;
      attacker_addTrainingPoint (trafficInfo, OUTPUT_SIZE (attacker s) - 1, Some (inject_Z 0)) ;;;
      ret (organizedQueues, trafficInfo, attackIndex)
  end.

(** *** The round *)

(** The body of the loop over the messages of one queue. *)
Definition processMessage (inp : RoundInput) (trafficInfo : TrafficInfo)
    (attackIndex : Z) (key : Node) (position : nat) (message : Message.t) : M unit :=
  s <- lift (fun s => Val s) ;;
  if negb (DiGraph.has_edge (graph s) (Message.origin message) (Message.destination message))
  then ret tt
  else
    let skipped := skipDraw inp key position in
    let suspicionLabel :=
      if skipped then NO_SUSPICION_LABEL else inspect inp key position in
    score <- lift (fun s => calculateScore s message suspicionLabel) ;;
    let attackerReward := fst score in
    let defenderReward := snd score in
    updateNetwork message suspicionLabel ;;;
    (if negb skipped
     then defender_addTrainingPoint (message, suspicionLabel, defenderReward)
     else ret tt) ;;;
    (if Message.isMalicious message
     then attacker_addTrainingPoint (trafficInfo, attackIndex, attackerReward) ;;;
          modify (set_lastAttackerScore attackerReward)
     else ret tt).

(** The loop [for message in queue]; [position] indexes the draws. *)
Fixpoint processQueue (inp : RoundInput) (trafficInfo : TrafficInfo)
    (attackIndex : Z) (key : Node) (position : nat) (queue : list Message.t) : M unit :=
  match queue with
  | [] => ret tt
  | message :: rest =>
      processMessage inp trafficInfo attackIndex key position message ;;;
      processQueue inp trafficInfo attackIndex key (S position) rest
  end.

(** The loop [for queue in organizedQueues.values()]. *)
Definition processQueues (inp : RoundInput) (trafficInfo : TrafficInfo)
    (attackIndex : Z) (organizedQueues : Queues) : M unit :=
  forM_ (fun kq => processQueue inp trafficInfo attackIndex (fst kq) 0 (snd kq))
    organizedQueues.

(** The body of the [while] loop of [runGame] with the display off
    ([visualizeGame] false); [runRoundVisualize] below has the two calls
    of [displayGraph]. *)
Definition runRound (inp : RoundInput) : M unit :=
  modify (fun s => set_roundNumber (roundNumber s + 1) s) ;;;
  r <- generateTrafficQueues inp ;;
  modify (set_lastAttackerScore (Some (inject_Z 0))) ;;;
  processQueues inp (snd (fst r)) (snd r) (fst (fst r)).

(** The state transformer of [runGame] with the display off, on the
    inputs of its next rounds, one per round: the iterations of the
    [while] loop until [gameOver] or until the inputs are used up.
    [runGameLoop] below tells the two apart. *)
Fixpoint runGame (inputs : list RoundInput) : M unit :=
  match inputs with
  | [] => ret tt
  | inp :: rest =>
      s <- lift (fun s => Val s) ;;
      if gameOver s then ret tt
      else runRound inp ;;; runGame rest
  end.

(** *** Inspection chance

    [calculateInspectionChance] (source lines 266-269) in binary64, the
    arithmetic of Python's floats.  [math.exp] is the exponential of the
    C library, whose rounding IEEE 754 does not fix: it is the argument
    [exp], and what a theorem needs of it is stated there.  The queue
    length is an int below 2^63; its conversion to a float is exact
    below 2^53. *)


(** *** Initialization *)

(** One line of the network file in [initializeNetwork]. *)
Definition addNetworkLine (s : GameState) (line : Node * Node) : GameState :=
  let sourceIP := fst line in
  let sinkIP := snd line in
  let s1 :=
    if DiGraph.has_node (graph s) sourceIP then s
    else set_colorMap (dict_set (colorMap s) sourceIP (COLOR_MAP NO_SUSPICION_LABEL))
           (set_graph (DiGraph.add_node (graph s) sourceIP) s) in
  let s2 :=
    if DiGraph.has_node (graph s1) sinkIP then s1
    else set_colorMap (dict_set (colorMap s1) sinkIP (COLOR_MAP NO_SUSPICION_LABEL))
           (set_graph (DiGraph.add_node (graph s1) sinkIP) s1) in
  set_graph (DiGraph.add_edge (graph s2) sourceIP sinkIP) s2.

(** [initializeNetwork] on data lines that are parsed already, as
    (source, sink) pairs, and the draw of [random.sample(allNodes, 1)];
    [initializeNetworkFile] below reads the lines of the file. *)
Definition initializeNetwork (lines : list (Node * Node)) (sampleDraw : nat) : M unit :=
  modify (set_graph []) ;;;
  modify (fun s => fold_left addNetworkLine lines s) ;;;
  infected <- lift (fun s => random.sample1 (DiGraph.nodes (graph s)) sampleDraw) ;;
  modify (set_infectedNodes infected) ;;;
  r <- lift recomputeReachable ;;
  modify (set_reachableNodes r) ;;;
  modify (set_quarantinedNodes []).

(** *** Display

    What [displayGraph] (source lines 373-411) computes before it
    draws. *)

Definition NODE_SIZE : Z := 100.

(** [[self.colorMap[node] for node in nodes]]: a node without a colour
    is a KeyError. *)
Definition nodeColors (s : GameState) (nodes : list Node) : Outcome (list string) :=
  omap (fun node => match dict_get (colorMap s) node with
                    | Some color => Val color
                    | None => Raise KeyError
                    end) nodes.

Definition infectedColorMap (s : GameState) : Outcome (list string) :=
  nodeColors s (infectedNodes s).

Definition notInfectedColorMap (s : GameState) : Outcome (list string) :=
  nodeColors s (DiGraph.nodes (graph s)).

Definition nodeSizes (s : GameState) : list Z :=
  map (fun x => if negb (mem x (infectedNodes s)) then NODE_SIZE else 1)
    (DiGraph.nodes (graph s)).

(** The title of the figure; [None] is the TypeError of comparing a
    [lastAttackerScore] that is [None] with 0. *)
Definition displayTitle (displayAttack : bool) (s : GameState) : option string :=
  if displayAttack then
    match attackMessage s with
    | Some m => Some ("Pre Round Setup : Attacking " ++ Message.destination m)%string
    | None => Some "Pre Round Setup : No Attack this Round"%string
    end
  else
    match lastAttackerScore s with
    | None => None
    | Some score =>
        if negb (Qle_bool 0 score)
        then Some "Post Round Results : Attack Repulsed"%string
        else if negb (Qle_bool score 0)
        then Some "Post Round Results : Attack Successful"%string
        else Some "Post Round Results"%string
    end.

(** [displayGraph] as far as it can raise: the two colour lists, then
    the title.  The drawing itself is output. *)
Definition displayGraph (displayAttack : bool) : M unit :=
  lift (fun s =>
    obind (infectedColorMap s) (fun _ =>
    obind (notInfectedColorMap s) (fun _ =>
      match displayTitle displayAttack s with
      | Some _ => Val tt
      | None => Raise TypeError
      end))).

(** *** The game loop with its display

    The body of the [while] loop of [runGame] (source lines 176-200) with
    the two calls of [displayGraph] that [visualizeGame] switches on;
    the prints are output. *)
Definition runRoundVisualize (visualizeGame : bool) (inp : RoundInput) : M unit :=
  modify (fun s => set_roundNumber (roundNumber s + 1) s) ;;;
  r <- generateTrafficQueues inp ;;
  modify (set_lastAttackerScore (Some (inject_Z 0))) ;;;
  (if visualizeGame then displayGraph true else ret tt) ;;;
  processQueues inp (snd (fst r)) (snd r) (fst (fst r)) ;;;
  (if visualizeGame then displayGraph false else ret tt).

(** The [while] loop of [runGame] for as many rounds as there are inputs.
    It answers whether the loop has ended: [true] when [gameOver] holds
    at the loop test, [false] when the inputs are used up and the game is
    still on.  The loop of the source has no bound; [false] says that it
    goes on. *)
Fixpoint runGameLoop (visualizeGame : bool) (inputs : list RoundInput) : M bool :=
  s <- lift (fun s => Val s) ;;
  if gameOver s then ret true
  else
    match inputs with
    | [] => ret false
    | inp :: rest =>
        runRoundVisualize visualizeGame inp ;;;
        runGameLoop visualizeGame rest
    end.

(** *** The game log

    The parts of [logGameResults] (source lines 446-495) that do not
    round a floating point number: the name of the network, the degrees
    that are averaged and the two node counts. *)

(** [str.split(sep)] for a separator of one character. *)
Fixpoint split (sep : ascii) (s : string) : list string :=
  match s with
  | EmptyString => [EmptyString]
  | String c rest =>
      if Ascii.eqb c sep then EmptyString :: split sep rest
      else match split sep rest with
           | piece :: pieces => String c piece :: pieces
           | [] => [String c EmptyString]
           end
  end.

(** [networkPath.split('/')[-1].split('.')[0]]. *)
Definition networkName (networkPath : string) : string :=
  hd EmptyString (split "."%char (last (split "/"%char networkPath) EmptyString)).

Definition defenderDegrees (s : GameState) : list Z :=
  map snd (filter (fun nd => negb (mem (fst nd) (infectedNodes s)))
             (DiGraph.degree (graph s))).

Definition attackerDegrees (s : GameState) : list Z :=
  map snd (filter (fun nd => mem (fst nd) (infectedNodes s))
             (DiGraph.degree (graph s))).

Definition numNotInfectedNodes (s : GameState) : Z :=
  Z.of_nat (List.length (DiGraph.nodes (graph s))) -
  Z.of_nat (List.length (infectedNodes s)).

Definition numInfectedNodes (s : GameState) : Z :=
  Z.of_nat (List.length (infectedNodes s)).

(** *** The network file

    [initializeNetwork] (source lines 130-161) from the lines of the
    network file, as [file.readlines()] returns them.  A string is a
    sequence of characters with code points below 256. *)

(** [str.isspace] of one character: tab to carriage return, the four
    separators 0x1c to 0x1f, space, NEL and the no-break space. *)
Definition isspace (c : ascii) : bool :=
  match N_of_ascii c with
  | 9 | 10 | 11 | 12 | 13 | 28 | 29 | 30 | 31 | 32 | 133 | 160 => true
  | _ => false
  end%N.

Fixpoint lstrip (s : string) : string :=
  match s with
  | EmptyString => EmptyString
  | String c rest => if isspace c then lstrip rest else s
  end.

Definition reverse (s : string) : string :=
  string_of_list_ascii (rev (list_ascii_of_string s)).

Definition rstrip (s : string) : string := reverse (lstrip (reverse s)).

(** [str.strip()]. *)
Definition strip (s : string) : string := rstrip (lstrip s).

(** The two fields of a data line: [elems = line.split(',')], then
    [elems[0].strip()] and [elems[1].strip()]; a line without a comma has
    no [elems[1]]. *)
Definition parseLine (line : string) : Outcome (Node * Node) :=
  let elems := split ","%char line in
  match nth_error elems 0 with
  | None => Raise IndexError
  | Some sourceField =>
      match nth_error elems 1 with
      | None => Raise IndexError
      | Some sinkField => Val (strip sourceField, strip sinkField)
      end
  end.

(** The loop [for line in lines]: a line is parsed when its turn comes,
    after the lines before it were added to the graph. *)
Fixpoint addNetworkLines (lines : list string) : M unit :=
  match lines with
  | [] => ret tt
  | line :: rest =>
      fields <- lift (fun _ => parseLine line) ;;
      modify (fun s => addNetworkLine s fields) ;;;
      addNetworkLines rest
  end.

(** [initializeNetwork] on the lines of the file, the header line
    included ([readlines()[1:]] skips it), and the draw of
    [random.sample(allNodes, 1)]. *)
Definition initializeNetworkFile (fileLines : list string) (sampleDraw : nat) : M unit :=
  modify (set_graph []) ;;;
  addNetworkLines (tl fileLines) ;;;
  infected <- lift (fun s => random.sample1 (DiGraph.nodes (graph s)) sampleDraw) ;;
  modify (set_infectedNodes infected) ;;;
  r <- lift recomputeReachable ;;
  modify (set_reachableNodes r) ;;;
  modify (set_quarantinedNodes []).
End GameEngine.

(** ** The spec's reading of the scores *)

Module Spec.
Import Defender.

(** [infectionPotential]: 0 for an infected node, otherwise 1 plus the
    number of its neighbours that are not infected. *)
Definition infectionPotential (infected neighbors : list Node) (node : Node) : Z :=
  if mem node infected then 0
  else 1 + Z.of_nat (List.length (filter (fun n => negb (mem n infected)) neighbors)).

(** The reward table: [A] is the infection potential of the
    destination, [D] its out-degree plus one; [None] is the attacker's
    "no sample". *)
Definition rewardTable (malicious : bool) (label : Label) (A D : Z) : option Q * Q :=
  match malicious, label with
  | true, HIGH_SUSPICION_LABEL => (Some (- inject_Z A), inject_Z D)
  | true, MEDIUM_SUSPICION_LABEL => (Some (- inject_Z A / 2), inject_Z D)
  | true, _ => (Some (inject_Z A), - inject_Z D)
  | false, HIGH_SUSPICION_LABEL => (None, - inject_Z D)
  | false, MEDIUM_SUSPICION_LABEL => (None, - inject_Z D / 2)
  | false, _ => (None, inject_Z D)
  end%Q.


End Spec.

(** Two score pairs are the same when their rewards are equal as rational
    numbers and both or neither has an attacker reward. *)
Definition reward_eq (a b : option Q * Q) : Prop :=
  match fst a, fst b with
  | Some x, Some y => (x == y)%Q
  | None, None => True
  | _, _ => False
  end /\ (snd a == snd b)%Q.

(** ** Invariants of the game state *)

(** Every successor is a node of the graph (networkx keeps it so). *)
Definition graph_closed (g : DiGraph.t) : Prop :=
  forall u v, DiGraph.has_edge g u v = true -> DiGraph.has_node g v = true.

(** The same as a check. *)
Definition graph_closedb (g : DiGraph.t) : bool :=
  forallb (fun e => forallb (DiGraph.has_node g) (snd e)) g.

Definition infected_in_graph (s : GameState) : Prop :=
  forall n, In n (infectedNodes s) -> DiGraph.has_node (graph s) n = true.

Definition wf_state (s : GameState) : Prop :=
  graph_closed (graph s) /\ infected_in_graph s.

(** [s'] comes after [s]: no infected or quarantined node is lost and no
    edge is gained. *)
Definition evolves (s s' : GameState) : Prop :=
  incl (infectedNodes s) (infectedNodes s') /\
  incl (quarantinedNodes s) (quarantinedNodes s') /\
  (forall u v, DiGraph.has_edge (graph s') u v = true ->
               DiGraph.has_edge (graph s) u v = true).

(** A computation keeps a relation between the state it starts from and
    the state it leaves, whether it returns or raises. *)
Definition preserves (R : GameState -> GameState -> Prop) {A} (c : M A) : Prop :=
  forall s, R s (exec c s).

(** What a computation returns, when it returns, satisfies [P]. *)
Definition yields {A} (P : A -> Prop) (c : M A) : Prop :=
  forall s a s', c s = (Val a, s') -> P a.

(** The attacker's training points only grow, by points that satisfy [P]. *)
Definition attacker_gains (P : AttackerPoint -> Prop) (s s' : GameState) : Prop :=
  OUTPUT_SIZE (attacker s') = OUTPUT_SIZE (attacker s) /\
  exists added, attackerPoints (attacker s') = attackerPoints (attacker s) ++ added /\
                Forall P added.

(** The graph keeps its nodes. *)
Definition same_nodes (s s' : GameState) : Prop :=
  forall n, DiGraph.has_node (graph s') n = DiGraph.has_node (graph s) n.

(** No node other than [d] becomes infected. *)
Definition infects_only (d : Node) (s s' : GameState) : Prop :=
  forall n, In n (infectedNodes s') -> In n (infectedNodes s) \/ n = d.

(** The collaborators and the last attacker score are untouched. *)
Definition same_players (s s' : GameState) : Prop :=
  attacker s' = attacker s /\ defender s' = defender s /\
  lastAttackerScore s' = lastAttackerScore s.

(** What a network update may touch: the colours, the reachability
    flags, the edges, the quarantined nodes and the infected nodes. *)
Definition update_frame (d : Node) (s s' : GameState) : Prop :=
  same_nodes s s' /\ infects_only d s s' /\ same_players s s'.

(** The graph and the infected nodes are untouched. *)
Definition same_topology (s s' : GameState) : Prop :=
  graph s' = graph s /\ infectedNodes s' = infectedNodes s.

(** A step from a well-formed state ends in a well-formed state. *)
Definition keeps_wf (s s' : GameState) : Prop := wf_state s -> wf_state s'.

(** The attacker is untouched. *)
Definition same_attacker (s s' : GameState) : Prop := attacker s' = attacker s.

(** ** Example games *)

Module Scenario.
Import Defender.
Local Open Scope string_scope.

Definition benignRow (tag : string) : Message.Row :=
  Message.BuildRow EmptyString EmptyString false [tag].

Definition maliciousRow (tag : string) : Message.Row :=
  Message.BuildRow EmptyString EmptyString true [tag].

(** The state before [initializeNetwork], with a given dataset. *)
Definition blank (rows : list Message.Row) : GameState :=
  BuildState [] [] [] [] [] 0 None rows [] None
    (BuildAttacker 4 []) (BuildDefender []).

(** The chain A -> B -> C with A infected. *)
Definition chain (rows : list Message.Row) : GameState :=
  exec (GameEngine.initializeNetwork [("A", "B"); ("B", "C")] 0) (blank rows).

(** The fan A -> B, A -> C with B -> C, A infected. *)
Definition fan : GameState :=
  exec (GameEngine.initializeNetwork [("A", "B"); ("A", "C"); ("B", "C")] 0) (blank []).

(** Two isolated nodes, no edge. *)
Definition isolated : GameState :=
  BuildState [("A", []); ("B", [])] [] ["A"] [] [0; 0] 0 None [] [] None
    (BuildAttacker 3 []) (BuildDefender []).

(** A round input: every draw is [0], no attack, every message is
    inspected and given no suspicion. *)
Definition quiet : RoundInput :=
  BuildInput 0 (fun _ => 0%nat) (fun _ => 0%nat) (fun _ => 0%nat) (None, 3)
    0 (fun _ _ => false) (fun _ _ => NO_SUSPICION_LABEL).

Definition attackAB : Message.t := Message.Build "A" "B" true ["attack"].

(** The same input with an attack A -> B and a given position draw. *)
Definition attacking (u : nat) : RoundInput :=
  BuildInput 0 (fun _ => 0%nat) (fun _ => 0%nat) (fun _ => 0%nat) (Some attackAB, 1)
    u (fun _ _ => false) (fun _ _ => NO_SUSPICION_LABEL).

(** A dataset whose second record is malicious, and the background
    message A -> B built from that record. *)
Definition rows2 : list Message.Row := [benignRow "r0"; maliciousRow "r1"].

Definition background : Message.t := Message.Build "A" "B" true ["r1"].

(** A dataset of three records. *)
Definition rows3 : list Message.Row :=
  [benignRow "r0"; benignRow "r1"; benignRow "r2"].

(** A dataset without malicious record, and its message A -> B. *)
Definition rowsBenign : list Message.Row := [benignRow "r0"; benignRow "r1"].

Definition benign : Message.t := Message.Build "A" "B" false ["r1"].

(** The quiet input with a given row draw. *)
Definition sampling (u : nat) : RoundInput :=
  BuildInput 0 (fun _ => u) (fun _ => 0%nat) (fun _ => 0%nat) (None, 3)
    0 (fun _ _ => false) (fun _ _ => NO_SUSPICION_LABEL).

(** A network file: the header, then the lines of the chain A -> B -> C,
    with the blanks and line ends a file has. *)
Definition newline : string := String "010"%char EmptyString.

Definition networkFile : list string :=
  ["source,sink" ++ newline; "A, B" ++ newline; "B,C" ++ newline].

(** The same file with the line A -> B only, and an empty last line. *)
Definition networkFileBlankLine : list string :=
  ["source,sink" ++ newline; "A, B" ++ newline; newline].



(** The quiet input with a defender that gives every message the label
    [l]. *)
Definition labelling (l : Label) : RoundInput :=
  BuildInput 0 (fun _ => 0%nat) (fun _ => 0%nat) (fun _ => 0%nat) (None, 3)
    0 (fun _ _ => false) (fun _ _ => l).
End Scenario.

(** ** Further invariants of the game *)

(** [reachableNodes] is the reachability of every node, in node order. *)
Definition reach_synced (s : GameState) : Prop :=
  GameEngine.recomputeReachable s = Val (reachableNodes s).

(** A quarantined node has no outgoing edge. *)
Definition quarantined_isolated (s : GameState) : Prop :=
  forall q v, In q (quarantinedNodes s) -> DiGraph.has_edge (graph s) q v = false.

(** What holds of every state of a game between two messages. *)
Definition game_inv (s : GameState) : Prop :=
  wf_state s /\ reach_synced s /\
  NoDup (DiGraph.nodes (graph s)) /\
  NoDup (infectedNodes s) /\ NoDup (quarantinedNodes s) /\
  quarantined_isolated s.

(** The fields the invariant reads are untouched. *)
Definition same_world (s s' : GameState) : Prop :=
  graph s' = graph s /\ infectedNodes s' = infectedNodes s /\
  quarantinedNodes s' = quarantinedNodes s /\ reachableNodes s' = reachableNodes s.

(** The branch of [updateNetwork] on the label: quarantine, infection or
    nothing. *)
Definition labelAction (message : Message.t) (label : Defender.Label) : M unit :=
  match label with
  | Defender.HIGH_SUSPICION_LABEL | Defender.MEDIUM_SUSPICION_LABEL =>
      GameEngine.quarantineNode (Message.origin message) (Message.destination message) label
  | _ =>
      if Message.isMalicious message
      then GameEngine.infectNode (Message.destination message)
      else ret tt
  end.

(** A step from a state with the invariant ends in one. *)
Definition keeps_inv (s s' : GameState) : Prop := game_inv s -> game_inv s'.

(** The attack of a round, if any, is aimed at a node of the graph. *)
Definition attack_in_graph (g : DiGraph.t) (inp : RoundInput) : Prop :=
  match fst (getAttack inp) with
  | Some attackMsg => DiGraph.has_node g (Message.destination attackMsg) = true
  | None => True
  end.

(** Whether a line of the network file is the edge [(a, b)], and whether
    it mentions the node [n]. *)
Definition line_is (a b : Node) (line : Node * Node) : bool :=
  String.eqb (fst line) a && String.eqb b (snd line).

Definition line_has (n : Node) (line : Node * Node) : bool :=
  String.eqb (fst line) n || String.eqb (snd line) n.

(** The data lines of a network file up to the first one that does not
    parse, parsed. *)
Fixpoint parsedPrefix (lines : list string) : list (Node * Node) :=
  match lines with
  | [] => []
  | line :: rest =>
      match GameEngine.parseLine line with
      | Val fields => fields :: parsedPrefix rest
      | Raise _ => []
      end
  end.

(** Every successor list of the graph is without repetition. *)
Definition successors_distinct (g : DiGraph.t) : Prop :=
  forall n vs, DiGraph.adj g n = Some vs -> NoDup vs.

(** Whether the character [c] occurs in the string [s]. *)
Fixpoint occurs (c : ascii) (s : string) : bool :=
  match s with
  | EmptyString => false
  | String c' rest => Ascii.eqb c' c || occurs c rest
  end.

(** Whether a label is a quarantine: MEDIUM or HIGH suspicion. *)
Definition quarantines (label : Defender.Label) : bool :=
  match label with
  | Defender.MEDIUM_SUSPICION_LABEL | Defender.HIGH_SUSPICION_LABEL => true
  | _ => false
  end.

(** ** Frames of a round *)

(** Every node that had a colour keeps one, and the nodes stay. *)
Definition colours_kept (s s' : GameState) : Prop :=
  same_nodes s s' /\
  forall n, dict_get (colorMap s) n <> None -> dict_get (colorMap s') n <> None.

(** Every node of the graph has a colour. *)
Definition colours_cover (s : GameState) : Prop :=
  forall n, DiGraph.has_node (graph s) n = true -> dict_get (colorMap s) n <> None.

(** The dataset and the nodes of the graph are untouched. *)
Definition stable (s s' : GameState) : Prop :=
  dataset s' = dataset s /\ DiGraph.nodes (graph s') = DiGraph.nodes (graph s).

(** The round number is untouched. *)
Definition same_round (s s' : GameState) : Prop := roundNumber s' = roundNumber s.

(** Every infected node of [s'] was infected in [s] or has a predecessor
    in the graph of [s]. *)
Definition spreads (s s' : GameState) : Prop :=
  forall n, In n (infectedNodes s') ->
    In n (infectedNodes s) \/ exists u, DiGraph.has_edge (graph s) u n = true.

(** A step from a well-formed state ends in one, evolves it, and infects
    along edges only. *)
Definition keeps_spread (s s' : GameState) : Prop :=
  wf_state s -> wf_state s' /\ evolves s s' /\ spreads s s'.

(** On a well-formed state the computation returns, leaves a well-formed
    state and keeps a last attacker score that is a number. *)
Definition runs_clean (c : M unit) : Prop :=
  forall s, wf_state s ->
    result c s = Val tt /\ wf_state (exec c s) /\
    (lastAttackerScore s <> None -> lastAttackerScore (exec c s) <> None).

(** ** The messages a round processes

    The queues of a round read message by message, without the loops of
    the engine: which messages pass the guard of the round loop, in which
    state, and what state they leave. *)

(** The label of the message at [position] of the queue of [key]: no
    suspicion when it skipped inspection. *)
Definition labelOf (inp : RoundInput) (key : Node) (position : nat) : Defender.Label :=
  if skipDraw inp key position then Defender.NO_SUSPICION_LABEL
  else inspect inp key position.

(** A processed message: the message, its label and the state it found. *)
Definition Processed : Type := (Message.t * Defender.Label * GameState)%type.

(** The state after the messages of one queue, taken in order. *)
Fixpoint afterQueue (inp : RoundInput) (trafficInfo : TrafficInfo) (attackIndex : Z)
    (key : Node) (position : nat) (queue : list Message.t) (s : GameState) : GameState :=
  match queue with
  | [] => s
  | message :: rest =>
      afterQueue inp trafficInfo attackIndex key (S position) rest
        (exec (GameEngine.processMessage inp trafficInfo attackIndex key position message) s)
  end.

(** The messages of one queue that pass the guard of the loop: those
    whose edge is in the graph when their turn comes. *)
Fixpoint processedOfQueue (inp : RoundInput) (trafficInfo : TrafficInfo)
    (attackIndex : Z) (key : Node) (position : nat) (queue : list Message.t)
    (s : GameState) : list Processed :=
  match queue with
  | [] => []
  | message :: rest =>
      (if DiGraph.has_edge (graph s) (Message.origin message)
            (Message.destination message)
       then [(message, labelOf inp key position, s)] else []) ++
      processedOfQueue inp trafficInfo attackIndex key (S position) rest
        (exec (GameEngine.processMessage inp trafficInfo attackIndex key position message) s)
  end.

(** The same over the queues of a round, in the order of the nodes. *)
Fixpoint afterQueues (inp : RoundInput) (trafficInfo : TrafficInfo) (attackIndex : Z)
    (queues : list (Node * list Message.t)) (s : GameState) : GameState :=
  match queues with
  | [] => s
  | kq :: rest =>
      afterQueues inp trafficInfo attackIndex rest
        (afterQueue inp trafficInfo attackIndex (fst kq) 0 (snd kq) s)
  end.

Fixpoint processedOfQueues (inp : RoundInput) (trafficInfo : TrafficInfo)
    (attackIndex : Z) (queues : list (Node * list Message.t)) (s : GameState)
  : list Processed :=
  match queues with
  | [] => []
  | kq :: rest =>
      processedOfQueue inp trafficInfo attackIndex (fst kq) 0 (snd kq) s ++
      processedOfQueues inp trafficInfo attackIndex rest
        (afterQueue inp trafficInfo attackIndex (fst kq) 0 (snd kq) s)
  end.

Definition maliciousOf (x : Processed) : bool := Message.isMalicious (fst (fst x)).

(** The attacker reward of a processed message: what [calculateScore]
    gives on the state the message found. *)
Definition attackerRewardOf (x : Processed) : option Q :=
  match GameEngine.calculateScore (snd x) (fst (fst x)) (snd (fst x)) with
  | Val score => fst score
  | Raise _ => None
  end.

(** * Properties *)

Import Defender GameEngine.

(** ** Lists and membership *)

Lemma mem_In (n : Node) (l : list Node) : mem n l = true <-> In n l.
Proof.
  unfold mem. rewrite existsb_exists. split.
  - intros [x [Hin Heq]]. apply String.eqb_eq in Heq. now subst.
  - intros Hin. exists n. split; [assumption | apply String.eqb_refl].
Qed.

Lemma mem_false_In (n : Node) (l : list Node) : mem n l = false <-> ~ In n l.
Proof.
  rewrite <- mem_In. destruct (mem n l); split; intros H; congruence.
Qed.

Lemma mem_app (n : Node) (l1 l2 : list Node) :
  mem n (l1 ++ l2) = mem n l1 || mem n l2.
Proof. unfold mem. apply existsb_app. Qed.

Lemma mem_filter (n : Node) (p : Node -> bool) (l : list Node) :
  mem n (filter p l) = mem n l && p n.
Proof.
  induction l as [|x l IH]; simpl; [reflexivity|].
  destruct (p x) eqn:Hp; simpl; rewrite IH.
  - destruct (String.eqb n x) eqn:E; simpl; [|reflexivity].
    apply String.eqb_eq in E. subst. now rewrite Hp.
  - destruct (String.eqb n x) eqn:E; simpl; [|reflexivity].
    apply String.eqb_eq in E. subst. rewrite Hp. now rewrite andb_false_r.
Qed.

Lemma filter_filter {A} (p q : A -> bool) (l : list A) :
  filter p (filter q l) = filter (fun x => q x && p x) l.
Proof.
  induction l as [|x l IH]; simpl; [reflexivity|].
  destruct (q x); simpl; [destruct (p x)|]; now rewrite IH.
Qed.

Lemma filter_all {A} (p : A -> bool) (l : list A) :
  (forall x, In x l -> p x = true) -> filter p l = l.
Proof.
  induction l as [|x l IH]; simpl; intros H; [reflexivity|].
  rewrite (H x (or_introl eq_refl)). f_equal. apply IH. intros; apply H; now right.
Qed.

Lemma filter_none {A} (p : A -> bool) (l : list A) :
  (forall x, In x l -> p x = false) -> filter p l = [].
Proof.
  induction l as [|x l IH]; simpl; intros H; [reflexivity|].
  rewrite (H x (or_introl eq_refl)). apply IH. intros; apply H; now right.
Qed.

(** ** The graph operations *)

Module DiGraphFacts.
Import DiGraph.

Lemma adj_set_adj g u f n :
  adj (set_adj g u f) n =
  if String.eqb u n then option_map f (adj g u) else adj g n.
Proof.
  induction g as [|[k vs] g IH]; simpl.
  - now destruct (String.eqb u n).
  - destruct (String.eqb k u) eqn:Eku; simpl.
    + apply String.eqb_eq in Eku. subst k.
      destruct (String.eqb u n); reflexivity.
    + destruct (String.eqb k n) eqn:Ekn.
      * apply String.eqb_eq in Ekn. subst k.
        rewrite String.eqb_sym in Eku. now rewrite Eku.
      * apply IH.
Qed.

Lemma nodes_set_adj g u f : nodes (set_adj g u f) = nodes g.
Proof.
  unfold nodes. induction g as [|[k vs] g IH]; simpl; [reflexivity|].
  destruct (String.eqb k u); simpl; [reflexivity | now rewrite IH].
Qed.

Lemma has_node_set_adj g u f n : has_node (set_adj g u f) n = has_node g n.
Proof.
  unfold has_node. rewrite adj_set_adj.
  destruct (String.eqb u n) eqn:E; [|reflexivity].
  apply String.eqb_eq in E. subst. now destruct (adj g n).
Qed.

Lemma has_node_In g n : has_node g n = true <-> In n (nodes g).
Proof.
  unfold has_node, nodes. induction g as [|[k vs] g IH]; simpl.
  - split; [discriminate | tauto].
  - destruct (String.eqb k n) eqn:E.
    + apply String.eqb_eq in E. split; auto.
    + apply String.eqb_neq in E. rewrite IH. tauto.
Qed.

(** One step of [remove_edges_from], on the successors of any node. *)
Lemma adj_remove_step g u v n :
  adj (if has_edge g u v then del_succ g u v else g) n =
  option_map (filter (fun w => negb (String.eqb u n && String.eqb w v))) (adj g n).
Proof.
  destruct (String.eqb u n) eqn:Eun.
  - apply String.eqb_eq in Eun. subst n. simpl.
    unfold has_edge. destruct (adj g u) as [vs|] eqn:Ha.
    + destruct (mem v vs) eqn:Hm.
      * unfold del_succ. rewrite adj_set_adj, String.eqb_refl, Ha. reflexivity.
      * rewrite Ha. simpl. f_equal. symmetry. apply filter_all.
        intros x Hx. apply negb_true_iff. apply String.eqb_neq. intros ->.
        apply mem_In in Hx. congruence.
    + now rewrite Ha.
  - simpl. assert (Hid : forall l : list Node, filter (fun _ => true) l = l)
      by (intros l; apply filter_all; reflexivity).
    destruct (has_edge g u v).
    + unfold del_succ. rewrite adj_set_adj, Eun.
      destruct (adj g n); simpl; [now rewrite Hid | reflexivity].
    + destruct (adj g n); simpl; [now rewrite Hid | reflexivity].
Qed.

Lemma adj_remove_edges_from es : forall g n,
  adj (remove_edges_from g es) n =
  option_map (filter (fun w => negb (removed es n w))) (adj g n).
Proof.
  unfold remove_edges_from.
  induction es as [|[u v] es IH]; intros g n; simpl.
  - destruct (adj g n); simpl; [|reflexivity].
    f_equal. symmetry. apply filter_all. reflexivity.
  - rewrite IH, adj_remove_step.
    destruct (adj g n) as [vs|]; simpl; [|reflexivity].
    f_equal. rewrite filter_filter. apply filter_ext.
    intros w. now rewrite negb_orb, andb_comm.
Qed.

Lemma nodes_remove_edges_from es : forall g,
  nodes (remove_edges_from g es) = nodes g.
Proof.
  unfold remove_edges_from.
  induction es as [|[u v] es IH]; intros g; simpl; [reflexivity|].
  rewrite IH. destruct (has_edge g u v); [apply nodes_set_adj | reflexivity].
Qed.

Lemma has_edge_remove_edges_from es g a b :
  has_edge (remove_edges_from g es) a b = has_edge g a b && negb (removed es a b).
Proof.
  unfold has_edge. rewrite adj_remove_edges_from.
  destruct (adj g a) as [vs|]; simpl; [|reflexivity].
  apply mem_filter.
Qed.

Lemma has_edge_del_succ g u v a b :
  has_edge (del_succ g u v) a b =
  has_edge g a b && negb (String.eqb u a && String.eqb b v).
Proof.
  unfold has_edge, del_succ. rewrite adj_set_adj.
  destruct (String.eqb u a) eqn:E; simpl.
  - apply String.eqb_eq in E. subst a.
    destruct (adj g u); simpl; [apply mem_filter | reflexivity].
  - now rewrite andb_true_r.
Qed.

Lemma has_node_remove_edges_from es g n :
  has_node (remove_edges_from g es) n = has_node g n.
Proof.
  unfold has_node. rewrite adj_remove_edges_from. now destruct (adj g n).
Qed.

(** A node of the graph is its own bunch: its out-edges are its
    successors. *)
Lemma out_edges_node g n vs :
  adj g n = Some vs -> out_edges g n = map (fun v => (n, v)) vs.
Proof.
  intros Ha. unfold out_edges, nbunch_iter, has_node. rewrite Ha. simpl.
  rewrite Ha. apply app_nil_r.
Qed.
Lemma removed_out origin vs u v :
  removed (map (fun w => (origin, w)) vs) u v = String.eqb origin u && mem v vs.
Proof.
  unfold removed, mem. induction vs as [|w vs IH]; simpl.
  - now rewrite andb_false_r.
  - rewrite IH. now rewrite andb_orb_distrib_r.
Qed.
End DiGraphFacts.

Example chain_state :
  graph (Scenario.chain []) =
    [("A", ["B"]); ("B", ["C"]); ("C", [])]%string%list /\
  infectedNodes (Scenario.chain []) = ["A"%string] /\
  reachableNodes (Scenario.chain []) = [0; 1; 0].
Proof. repeat split. Qed.

(** ** Reachability *)

Lemma isReachable_loop_spec g node infected :
  (forall n, In n infected -> DiGraph.has_node g n = true) ->
  exists b, isReachable_loop g node infected = Val b /\
            (b = true <-> exists i, In i infected /\ DiGraph.has_edge g i node = true).
Proof.
  induction infected as [|i rest IH]; intros Hin; simpl.
  - exists false. split; [reflexivity|]. split; [discriminate | intros [i [[] _]]].
  - assert (Hi : DiGraph.has_node g i = true) by (apply Hin; now left).
    unfold DiGraph.has_node in Hi. unfold DiGraph.neighbors.
    destruct (DiGraph.adj g i) as [vs|] eqn:Ha; [|discriminate]. simpl.
    destruct (mem node vs) eqn:Hm.
    + exists true. split; [reflexivity|]. split; [|reflexivity].
      intros _. exists i. split; [now left|]. unfold DiGraph.has_edge. now rewrite Ha.
    + destruct IH as [b [Hb Hiff]]; [intros n Hn; apply Hin; now right|].
      exists b. split; [assumption|]. rewrite Hiff. split.
      * intros [j [Hj He]]. exists j. split; [now right | assumption].
      * intros [j [[<-|Hj] He]]; [|now exists j].
        unfold DiGraph.has_edge in He. rewrite Ha in He. congruence.
Qed.

Lemma isReachable_spec (s : GameState) (node : Node) :
  infected_in_graph s ->
  (exists b, isReachable s node = Val b) /\
  (isReachable s node = Val true <->
     ~ In node (infectedNodes s) /\
     exists i, In i (infectedNodes s) /\ DiGraph.has_edge (graph s) i node = true) /\
  (In node (infectedNodes s) -> isReachable s node = Val false).
Proof.
  intros Hwf. unfold isReachable.
  destruct (isReachable_loop_spec (graph s) node (infectedNodes s) Hwf) as [b [Hb Hiff]].
  destruct (mem node (infectedNodes s)) eqn:Hm.
  - apply mem_In in Hm. split; [now exists false|]. split; [|reflexivity].
    split; [discriminate | intros [Hn _]; contradiction].
  - apply mem_false_In in Hm. rewrite Hb. split; [now exists b|]. split.
    + split.
      * intros Heq. injection Heq as ->. split; [assumption | now apply Hiff].
      * intros [_ Hex]. f_equal. now apply Hiff.
    + intros Hin. contradiction.
Qed.

(** C4. In a state whose infected nodes are nodes of the graph,
    [isReachable(node)] returns, and it returns true exactly when the
    node is not infected and some infected node has an edge into it; for
    an infected node it returns false. *)
Theorem isReachable_iff (s : GameState) (node : Node) :
  infected_in_graph s ->
  (exists b, isReachable s node = Val b) /\
  (isReachable s node = Val true <->
     ~ In node (infectedNodes s) /\
     exists i, In i (infectedNodes s) /\ DiGraph.has_edge (graph s) i node = true) /\
  (In node (infectedNodes s) -> isReachable s node = Val false).
Proof.
  intros Hwf. destruct (isReachable_spec s node Hwf) as (Hret & Hiff & Hinf).
  split; [exact Hret|]. split; [exact Hiff | exact Hinf].
Qed.

Lemma isReachable_iff_witness :
  infected_in_graph (Scenario.chain []) /\
  (isReachable (Scenario.chain []) "B"%string = Val true <->
     ~ In "B"%string (infectedNodes (Scenario.chain [])) /\
     exists i, In i (infectedNodes (Scenario.chain [])) /\
               DiGraph.has_edge (graph (Scenario.chain [])) i "B"%string = true).
Proof.
  assert (H : infected_in_graph (Scenario.chain [])).
  { intros n [<-|[]]. reflexivity. }
  split; [exact H|].
  exact (proj1 (proj2 (isReachable_iff (Scenario.chain []) "B"%string H))).
Defined.

Example isReachable_chain :
  isReachable (Scenario.chain []) "A"%string = Val false /\
  isReachable (Scenario.chain []) "B"%string = Val true /\
  isReachable (Scenario.chain []) "C"%string = Val false.
Proof. repeat split. Qed.

(** ** Reasoning on the monad *)

Lemma exec_bind {A B} (c : M A) (k : A -> M B) (s : GameState) :
  exec (bind c k) s =
  match result c s with
  | Val a => exec (k a) (exec c s)
  | Raise _ => exec c s
  end.
Proof.
  unfold exec, result, bind. destruct (c s) as [[a|e] s']; reflexivity.
Qed.

Lemma result_bind {A B} (c : M A) (k : A -> M B) (s : GameState) :
  result (bind c k) s =
  match result c s with
  | Val a => result (k a) (exec c s)
  | Raise e => Raise e
  end.
Proof.
  unfold exec, result, bind. destruct (c s) as [[a|e] s']; reflexivity.
Qed.

Lemma run_val (c : M unit) (s : GameState) :
  result c s = Val tt -> c s = (Val tt, exec c s).
Proof. unfold result, exec. destruct (c s) as [[[]|e] s']; simpl; congruence. Qed.

Section Preservation.
Variable R : GameState -> GameState -> Prop.
Hypothesis R_refl : forall s, R s s.
Hypothesis R_trans : forall a b c, R a b -> R b c -> R a c.

Lemma preserves_ret {A} (a : A) : preserves R (ret a).
Proof. intros s. apply R_refl. Qed.

Lemma preserves_lift {A} (f : GameState -> Outcome A) : preserves R (lift f).
Proof. intros s. apply R_refl. Qed.

Lemma preserves_modify (f : GameState -> GameState) :
  (forall s, R s (f s)) -> preserves R (modify f).
Proof. intros H s. apply H. Qed.

Lemma preserves_bind {A B} (c : M A) (k : A -> M B) :
  preserves R c -> (forall a, preserves R (k a)) -> preserves R (bind c k).
Proof.
  intros Hc Hk s. rewrite exec_bind. destruct (result c s) as [a|e].
  - eapply R_trans; [apply Hc | apply Hk].
  - apply Hc.
Qed.

Lemma preserves_forM_ {A} (f : A -> M unit) (l : list A) :
  (forall a, preserves R (f a)) -> preserves R (forM_ f l).
Proof.
  intros Hf. induction l as [|a l IH]; simpl.
  - apply preserves_ret.
  - apply preserves_bind; [apply Hf | intros _; exact IH].
Qed.
End Preservation.

(** Peels a computation down to its [modify] steps. *)
Ltac preserve R_refl R_trans :=
  repeat first
    [ apply (preserves_ret _ R_refl)
    | apply (preserves_lift _ R_refl)
    | apply (preserves_bind _ R_trans); [| intros ?]
    | apply (preserves_forM_ _ R_refl R_trans); intros ?
    | match goal with
      | |- preserves _ (match ?x with _ => _ end) => destruct x
      end ].

(** ** Quarantine and infection *)

Lemma evolves_refl s : evolves s s.
Proof. repeat split; auto using incl_refl. Qed.

Lemma evolves_trans a b c : evolves a b -> evolves b c -> evolves a c.
Proof.
  intros (I1 & Q1 & E1) (I2 & Q2 & E2). repeat split.
  - eapply incl_tran; eassumption.
  - eapply incl_tran; eassumption.
  - intros u v H. auto.
Qed.

Lemma evolves_same s s' :
  graph s' = graph s -> infectedNodes s' = infectedNodes s ->
  quarantinedNodes s' = quarantinedNodes s -> evolves s s'.
Proof.
  intros Hg Hi Hq. unfold evolves. rewrite Hg, Hi, Hq.
  repeat split; auto using incl_refl.
Qed.

Lemma quarantineNode_high s origin destination :
  quarantineNode origin destination HIGH_SUSPICION_LABEL s =
  let s1 := if mem origin (quarantinedNodes s) then s
            else set_quarantinedNodes (quarantinedNodes s ++ [origin]) s in
  (Val tt,
   set_graph (DiGraph.remove_edges_from (graph s1) (DiGraph.out_edges (graph s1) origin)) s1).
Proof. reflexivity. Qed.

Lemma quarantineNode_other s origin destination label :
  label <> HIGH_SUSPICION_LABEL ->
  quarantineNode origin destination label s =
  if DiGraph.has_edge (graph s) origin destination
  then (Val tt, set_graph (DiGraph.del_succ (graph s) origin destination) s)
  else (Raise NetworkXError, s).
Proof.
  intros Hl. unfold DiGraph.has_edge.
  destruct label; try congruence; unfold quarantineNode, bind, lift, modify,
    DiGraph.remove_edge, DiGraph.has_edge;
    destruct (DiGraph.adj (graph s) origin) as [vs|]; try reflexivity;
    destruct (mem destination vs); reflexivity.
Qed.

Lemma graph_quarantined_step s origin :
  graph (if mem origin (quarantinedNodes s) then s
         else set_quarantinedNodes (quarantinedNodes s ++ [origin]) s) = graph s.
Proof. now destruct (mem origin (quarantinedNodes s)). Qed.

Lemma infectNode_evolves destination : preserves evolves (infectNode destination).
Proof.
  intros s. unfold exec, infectNode, modify. simpl.
  destruct (mem destination (infectedNodes s)); [apply evolves_refl|].
  repeat split; simpl; auto using incl_refl, incl_appl.
Qed.

Lemma quarantineNode_evolves origin destination label :
  preserves evolves (quarantineNode origin destination label).
Proof.
  intros s. destruct label.
  4: { unfold exec. rewrite quarantineNode_high. cbv zeta. simpl snd.
       repeat split.
       - destruct (mem origin (quarantinedNodes s)); simpl; apply incl_refl.
       - destruct (mem origin (quarantinedNodes s)); simpl;
           auto using incl_refl, incl_appl.
       - intros u v. simpl. rewrite graph_quarantined_step.
         rewrite DiGraphFacts.has_edge_remove_edges_from.
         intros H. now apply andb_true_iff in H. }
  all: unfold exec; rewrite quarantineNode_other by discriminate;
    destruct (DiGraph.has_edge (graph s) origin destination); simpl;
    [|apply evolves_refl];
    (repeat split; simpl; auto using incl_refl; intros u v;
     rewrite DiGraphFacts.has_edge_del_succ; intros H;
     now apply andb_true_iff in H).
Qed.

Lemma updateNetwork_evolves message label :
  preserves evolves (updateNetwork message label).
Proof.
  unfold updateNetwork.
  apply (preserves_bind _ evolves_trans);
    [apply preserves_modify; intros s; now apply evolves_same | intros _].
  apply (preserves_bind _ evolves_trans).
  - destruct label; try apply quarantineNode_evolves;
      (destruct (Message.isMalicious message);
       [apply infectNode_evolves | apply (preserves_ret _ evolves_refl)]).
  - intros _. apply (preserves_bind _ evolves_trans);
      [apply (preserves_lift _ evolves_refl) | intros r].
    apply preserves_modify. intros s. now apply evolves_same.
Qed.

Lemma attacker_addTrainingPoint_evolves p :
  preserves evolves (attacker_addTrainingPoint p).
Proof. intros s. now apply evolves_same. Qed.

Lemma defender_addTrainingPoint_evolves p :
  preserves evolves (defender_addTrainingPoint p).
Proof. intros s. now apply evolves_same. Qed.

Lemma processMessage_evolves inp trafficInfo attackIndex key position message :
  preserves evolves (processMessage inp trafficInfo attackIndex key position message).
Proof.
  unfold processMessage.
  apply (preserves_bind _ evolves_trans);
    [apply (preserves_lift _ evolves_refl) | intros s0].
  destruct (negb _); [apply (preserves_ret _ evolves_refl)|].
  apply (preserves_bind _ evolves_trans);
    [apply (preserves_lift _ evolves_refl) | intros score].
  apply (preserves_bind _ evolves_trans); [apply updateNetwork_evolves | intros _].
  apply (preserves_bind _ evolves_trans).
  - destruct (negb _);
      [apply defender_addTrainingPoint_evolves | apply (preserves_ret _ evolves_refl)].
  - intros _. destruct (Message.isMalicious message);
      [|apply (preserves_ret _ evolves_refl)].
    apply (preserves_bind _ evolves_trans);
      [apply attacker_addTrainingPoint_evolves | intros _].
    apply preserves_modify. intros s. now apply evolves_same.
Qed.

Lemma processQueue_evolves inp trafficInfo attackIndex key queue : forall position,
  preserves evolves (processQueue inp trafficInfo attackIndex key position queue).
Proof.
  induction queue as [|message rest IH]; intros position; simpl.
  - apply (preserves_ret _ evolves_refl).
  - apply (preserves_bind _ evolves_trans);
      [apply processMessage_evolves | intros _; apply IH].
Qed.

Lemma generateTrafficQueues_evolves inp :
  preserves evolves (generateTrafficQueues inp).
Proof.
  unfold generateTrafficQueues.
  preserve evolves_refl evolves_trans;
    try (apply preserves_modify; intros s; now apply evolves_same);
    try apply attacker_addTrainingPoint_evolves.
Qed.

Lemma runRound_evolves inp : preserves evolves (runRound inp).
Proof.
  unfold runRound, processQueues.
  apply (preserves_bind _ evolves_trans);
    [apply preserves_modify; intros s; now apply evolves_same | intros _].
  apply (preserves_bind _ evolves_trans);
    [apply generateTrafficQueues_evolves | intros r].
  apply (preserves_bind _ evolves_trans);
    [apply preserves_modify; intros s; now apply evolves_same | intros _].
  apply (preserves_forM_ _ evolves_refl evolves_trans).
  intros kq. apply processQueue_evolves.
Qed.

Lemma runGame_evolves inputs : preserves evolves (runGame inputs).
Proof.
  induction inputs as [|inp rest IH]; simpl.
  - apply (preserves_ret _ evolves_refl).
  - apply (preserves_bind _ evolves_trans);
      [apply (preserves_lift _ evolves_refl) | intros s0].
    destruct (gameOver s0); [apply (preserves_ret _ evolves_refl)|].
    apply (preserves_bind _ evolves_trans); [apply runRound_evolves | intros _; exact IH].
Qed.

Lemma infectNode_idempotent destination s :
  exec (infectNode destination) (exec (infectNode destination) s) =
  exec (infectNode destination) s.
Proof.
  unfold exec, infectNode, modify. simpl.
  destruct (mem destination (infectedNodes s)) eqn:Hm; [now rewrite Hm|].
  simpl. rewrite mem_app, Hm. simpl. now rewrite String.eqb_refl.
Qed.

(** C3. Every operation of a game evolves the state monotonically, also
    when it raises: infecting a node, a quarantine, the network update of
    a message, a whole round and a whole game lose no infected node and
    no quarantined node and gain no edge; infecting a node twice is
    infecting it once. *)
Theorem game_state_monotone :
  (forall destination s, evolves s (exec (infectNode destination) s)) /\
  (forall destination s,
     exec (infectNode destination) (exec (infectNode destination) s) =
     exec (infectNode destination) s) /\
  (forall origin destination label s,
     evolves s (exec (quarantineNode origin destination label) s)) /\
  (forall message label s, evolves s (exec (updateNetwork message label) s)) /\
  (forall inp s, evolves s (exec (runRound inp) s)) /\
  (forall inputs s, evolves s (exec (runGame inputs) s)).
Proof.
  split; [|split; [|split; [|split; [|split]]]].
  - intros d. apply infectNode_evolves.
  - intros d s. apply infectNode_idempotent.
  - intros o d l. apply quarantineNode_evolves.
  - intros m l. apply updateNetwork_evolves.
  - intros inp. apply runRound_evolves.
  - intros inputs. apply runGame_evolves.
Qed.

Lemma has_edge_after_high s origin destination u v :
  DiGraph.has_node (graph s) origin = true ->
  DiGraph.has_edge
    (graph (exec (quarantineNode origin destination HIGH_SUSPICION_LABEL) s)) u v =
  DiGraph.has_edge (graph s) u v && negb (String.eqb u origin).
Proof.
  intros Hn. unfold exec. rewrite quarantineNode_high. cbv zeta. simpl.
  rewrite graph_quarantined_step.
  rewrite DiGraphFacts.has_edge_remove_edges_from.
  unfold DiGraph.has_node in Hn.
  destruct (DiGraph.adj (graph s) origin) as [vs|] eqn:Ha; [|discriminate].
  rewrite (DiGraphFacts.out_edges_node _ _ _ Ha).
  rewrite DiGraphFacts.removed_out, (String.eqb_sym origin u).
  destruct (String.eqb u origin) eqn:Eu; simpl; [|reflexivity].
  apply String.eqb_eq in Eu. subst u.
  unfold DiGraph.has_edge. rewrite Ha. now destruct (mem v vs).
Qed.

(** Both nodes are in the graph, the edge is not: a MEDIUM quarantine
    raises. *)
Lemma medium_quarantine_without_edge :
  DiGraph.has_node (graph Scenario.isolated) "A"%string = true /\
  DiGraph.has_node (graph Scenario.isolated) "B"%string = true /\
  result (quarantineNode "A"%string "B"%string MEDIUM_SUSPICION_LABEL) Scenario.isolated
    = Raise NetworkXError.
Proof. repeat split. Qed.

(** C2, amended. A HIGH quarantine of a node of the graph returns, leaves
    the node without any outgoing edge (the other nodes keep theirs) and
    has the node in [quarantinedNodes], appended if it was absent.  A
    MEDIUM quarantine of an edge of the graph returns and removes that
    edge and no other, and leaves [quarantinedNodes] and [infectedNodes]
    as they were.  A MEDIUM quarantine of two nodes of the graph without
    an edge from the first to the second raises NetworkXError and
    changes nothing. *)
Theorem quarantineNode_spec (s : GameState) (origin destination : Node) :
  (DiGraph.has_node (graph s) origin = true ->
   let s' := exec (quarantineNode origin destination HIGH_SUSPICION_LABEL) s in
   result (quarantineNode origin destination HIGH_SUSPICION_LABEL) s = Val tt /\
   DiGraph.neighbors (graph s') origin = Val [] /\
   (forall v, DiGraph.has_edge (graph s') origin v = false) /\
   (forall u v, u <> origin ->
                DiGraph.has_edge (graph s') u v = DiGraph.has_edge (graph s) u v) /\
   In origin (quarantinedNodes s') /\
   quarantinedNodes s' =
     (if mem origin (quarantinedNodes s) then quarantinedNodes s
      else quarantinedNodes s ++ [origin])) /\
  (DiGraph.has_edge (graph s) origin destination = true ->
   let s' := exec (quarantineNode origin destination MEDIUM_SUSPICION_LABEL) s in
   result (quarantineNode origin destination MEDIUM_SUSPICION_LABEL) s = Val tt /\
   DiGraph.has_edge (graph s') origin destination = false /\
   (forall u v, (u, v) <> (origin, destination) ->
                DiGraph.has_edge (graph s') u v = DiGraph.has_edge (graph s) u v) /\
   quarantinedNodes s' = quarantinedNodes s /\
   infectedNodes s' = infectedNodes s) /\
  (DiGraph.has_node (graph s) origin = true ->
   DiGraph.has_node (graph s) destination = true ->
   DiGraph.has_edge (graph s) origin destination = false ->
   quarantineNode origin destination MEDIUM_SUSPICION_LABEL s = (Raise NetworkXError, s)).
Proof.
  split; [|split].
  - intros Hn s'. split; [reflexivity|].
    assert (Hedge : forall u v, DiGraph.has_edge (graph s') u v =
                      DiGraph.has_edge (graph s) u v && negb (String.eqb u origin))
      by (intros u v; now apply has_edge_after_high).
    split; [|split; [|split; [|split]]].
    + subst s'. unfold exec. rewrite quarantineNode_high. cbv zeta. simpl.
      rewrite graph_quarantined_step.
      unfold DiGraph.neighbors. rewrite DiGraphFacts.adj_remove_edges_from.
      unfold DiGraph.has_node in Hn.
      destruct (DiGraph.adj (graph s) origin) as [vs|] eqn:Ha; [|discriminate].
      simpl. f_equal. rewrite (DiGraphFacts.out_edges_node _ _ _ Ha).
      apply filter_none. intros x Hx. apply negb_false_iff.
      rewrite DiGraphFacts.removed_out, String.eqb_refl. now apply mem_In.
    + intros v. rewrite Hedge, String.eqb_refl. apply andb_false_r.
    + intros u v Hu. rewrite Hedge. apply String.eqb_neq in Hu. rewrite Hu.
      apply andb_true_r.
    + subst s'. unfold exec. rewrite quarantineNode_high. cbv zeta. simpl.
      destruct (mem origin (quarantinedNodes s)) eqn:Hm; simpl.
      * now apply mem_In.
      * apply in_or_app. right. now left.
    + subst s'. unfold exec. rewrite quarantineNode_high. cbv zeta. simpl.
      now destruct (mem origin (quarantinedNodes s)).
  - intros He s'. subst s'. unfold exec, result.
    rewrite quarantineNode_other by discriminate. rewrite He. simpl.
    split; [reflexivity|]. split; [|split; [|split; reflexivity]].
    + rewrite DiGraphFacts.has_edge_del_succ, !String.eqb_refl. apply andb_false_r.
    + intros u v Hne. rewrite DiGraphFacts.has_edge_del_succ.
      destruct (String.eqb origin u) eqn:Eu; [|apply andb_true_r].
      destruct (String.eqb v destination) eqn:Ev; [|apply andb_true_r].
      apply String.eqb_eq in Eu, Ev. subst. contradiction.
  - intros _ _ He. rewrite quarantineNode_other by discriminate. now rewrite He.
Qed.

(** On the fan, where A has two outgoing edges: HIGH on A removes both
    and keeps B -> C; MEDIUM on A -> B removes it and keeps A -> C and
    B -> C.  On the two isolated nodes MEDIUM raises. *)
Lemma quarantineNode_spec_witness :
  let high := exec (quarantineNode "A"%string "B"%string HIGH_SUSPICION_LABEL)
                Scenario.fan in
  let medium := exec (quarantineNode "A"%string "B"%string MEDIUM_SUSPICION_LABEL)
                  Scenario.fan in
  DiGraph.has_node (graph Scenario.fan) "A"%string = true /\
  DiGraph.has_edge (graph Scenario.fan) "A"%string "B"%string = true /\
  DiGraph.has_edge (graph Scenario.fan) "A"%string "C"%string = true /\
  DiGraph.has_edge (graph Scenario.fan) "B"%string "C"%string = true /\
  (DiGraph.has_edge (graph high) "A"%string "B"%string = false /\
   DiGraph.has_edge (graph high) "A"%string "C"%string = false /\
   DiGraph.has_edge (graph high) "B"%string "C"%string = true /\
   quarantinedNodes high = ["A"%string]) /\
  (DiGraph.has_edge (graph medium) "A"%string "B"%string = false /\
   DiGraph.has_edge (graph medium) "A"%string "C"%string = true /\
   DiGraph.has_edge (graph medium) "B"%string "C"%string = true /\
   quarantinedNodes medium = []) /\
  quarantineNode "A"%string "B"%string MEDIUM_SUSPICION_LABEL Scenario.isolated
    = (Raise NetworkXError, Scenario.isolated).
Proof.
  intros high medium.
  destruct (quarantineNode_spec Scenario.fan "A"%string "B"%string) as (H & M & _).
  destruct (quarantineNode_spec Scenario.isolated "A"%string "B"%string) as (_ & _ & R).
  destruct (H eq_refl) as (_ & _ & Hout & Hother & _ & Hq).
  destruct (M eq_refl) as (_ & Hgone & Hkept & Hq' & _).
  split; [reflexivity|]. split; [reflexivity|]. split; [reflexivity|].
  split; [reflexivity|]. split; [|split].
  - split; [exact (Hout "B"%string)|]. split; [exact (Hout "C"%string)|].
    split; [|exact Hq].
    exact (eq_trans (Hother "B"%string "C"%string ltac:(discriminate)) eq_refl).
  - split; [exact Hgone|]. split; [|split; [|exact Hq']].
    + exact (eq_trans (Hkept "A"%string "C"%string ltac:(discriminate)) eq_refl).
    + exact (eq_trans (Hkept "B"%string "C"%string ltac:(discriminate)) eq_refl).
  - exact (R eq_refl eq_refl eq_refl).
Defined.

(** ** Quarantine of an edge that is not there *)

(** A MEDIUM quarantine of the missing edge A -> B raises. *)
Lemma quarantine_missing_edge_raises :
  DiGraph.has_edge (graph Scenario.isolated) "A"%string "B"%string = false /\
  result (quarantineNode "A"%string "B"%string MEDIUM_SUSPICION_LABEL) Scenario.isolated
    = Raise NetworkXError.
Proof. split; reflexivity. Qed.

Lemma processMessage_dropped inp trafficInfo attackIndex key position message s :
  DiGraph.has_edge (graph s) (Message.origin message) (Message.destination message) = false ->
  processMessage inp trafficInfo attackIndex key position message s = (Val tt, s).
Proof.
  intros He. unfold processMessage, bind, lift. simpl. now rewrite He.
Qed.

(** C7, amended. A HIGH quarantine never raises, and on a node of the
    graph without outgoing edges it leaves the graph as it is.  A MEDIUM
    quarantine of an edge that is not in the graph raises NetworkXError
    and changes nothing.  The round never makes that call: a message
    whose edge is missing is dropped before inspection, without an error
    and without any change of the state. *)
Theorem quarantine_missing_edge (s : GameState) (origin destination : Node) :
  result (quarantineNode origin destination HIGH_SUSPICION_LABEL) s = Val tt /\
  (DiGraph.has_node (graph s) origin = true ->
   (forall v, DiGraph.has_edge (graph s) origin v = false) ->
   graph (exec (quarantineNode origin destination HIGH_SUSPICION_LABEL) s) = graph s) /\
  (DiGraph.has_edge (graph s) origin destination = false ->
   result (quarantineNode origin destination MEDIUM_SUSPICION_LABEL) s
     = Raise NetworkXError /\
   exec (quarantineNode origin destination MEDIUM_SUSPICION_LABEL) s = s) /\
  (forall inp trafficInfo attackIndex key position message,
     Message.origin message = origin ->
     Message.destination message = destination ->
     DiGraph.has_edge (graph s) origin destination = false ->
     processMessage inp trafficInfo attackIndex key position message s = (Val tt, s)).
Proof.
  split; [reflexivity|]. split; [|split].
  - intros Hn Hout. unfold exec. rewrite quarantineNode_high. cbv zeta. simpl.
    rewrite graph_quarantined_step.
    unfold DiGraph.has_node in Hn.
    destruct (DiGraph.adj (graph s) origin) as [vs|] eqn:Ha; [|discriminate].
    rewrite (DiGraphFacts.out_edges_node _ _ _ Ha).
    assert (vs = []) as ->.
    { destruct vs as [|v vs]; [reflexivity|].
      specialize (Hout v). unfold DiGraph.has_edge in Hout. rewrite Ha in Hout.
      simpl in Hout. now rewrite String.eqb_refl in Hout. }
    reflexivity.
  - intros He. unfold exec, result.
    rewrite quarantineNode_other by discriminate. rewrite He. split; reflexivity.
  - intros inp ti idx key pos message Ho Hd He. subst.
    now apply processMessage_dropped.
Qed.

Lemma quarantine_missing_edge_witness :
  DiGraph.has_node (graph Scenario.isolated) "A"%string = true /\
  (forall v, DiGraph.has_edge (graph Scenario.isolated) "A"%string v = false) /\
  DiGraph.has_edge (graph Scenario.isolated) "A"%string "B"%string = false /\
  graph (exec (quarantineNode "A"%string "B"%string HIGH_SUSPICION_LABEL) Scenario.isolated)
    = graph Scenario.isolated /\
  exec (quarantineNode "A"%string "B"%string MEDIUM_SUSPICION_LABEL) Scenario.isolated
    = Scenario.isolated /\
  processMessage Scenario.quiet [] 0 "B"%string 0
    (Message.Build "A"%string "B"%string true []) Scenario.isolated
    = (Val tt, Scenario.isolated).
Proof.
  assert (Hout : forall v,
    DiGraph.has_edge (graph Scenario.isolated) "A"%string v = false) by reflexivity.
  destruct (quarantine_missing_edge Scenario.isolated "A"%string "B"%string)
    as (_ & Hhigh & Hmed & Hdrop).
  split; [reflexivity|]. split; [exact Hout|]. split; [reflexivity|].
  split; [exact (Hhigh eq_refl Hout)|].
  split; [exact (proj2 (Hmed eq_refl))|].
  exact (Hdrop Scenario.quiet [] 0 "B"%string 0%nat
           (Message.Build "A"%string "B"%string true []) eq_refl eq_refl eq_refl).
Defined.

(** ** The network update of a message *)

Lemma omap_total {A B} (f : A -> Outcome B) (l : list A) :
  (forall a, In a l -> exists b, f a = Val b) -> exists bs, omap f l = Val bs.
Proof.
  induction l as [|a l IH]; intros H; simpl.
  - now exists [].
  - destruct (H a (or_introl eq_refl)) as [b Hb]. rewrite Hb. simpl.
    destruct IH as [bs Hbs]; [intros x Hx; apply H; now right|].
    rewrite Hbs. simpl. now exists (b :: bs).
Qed.

Lemma recomputeReachable_returns s :
  infected_in_graph s -> exists r, recomputeReachable s = Val r.
Proof.
  intros Hwf. unfold recomputeReachable. apply omap_total. intros node _.
  destruct (proj1 (isReachable_spec s node Hwf)) as [b Hb]. rewrite Hb. simpl.
  now eexists.
Qed.

Lemma same_nodes_refl s : same_nodes s s.
Proof. intros n. reflexivity. Qed.

Lemma same_nodes_trans a b c : same_nodes a b -> same_nodes b c -> same_nodes a c.
Proof. intros H1 H2 n. now rewrite H2, H1. Qed.

Lemma infects_only_refl d s : infects_only d s s.
Proof. intros n H. now left. Qed.

Lemma infects_only_trans d a b c :
  infects_only d a b -> infects_only d b c -> infects_only d a c.
Proof. intros H1 H2 n H. destruct (H2 n H) as [H'|H']; auto. Qed.

Lemma same_players_refl s : same_players s s.
Proof. repeat split. Qed.

Lemma same_players_trans a b c :
  same_players a b -> same_players b c -> same_players a c.
Proof.
  intros (A1 & D1 & L1) (A2 & D2 & L2). repeat split; congruence.
Qed.

Lemma update_frame_refl d s : update_frame d s s.
Proof.
  repeat split; auto using same_nodes_refl, infects_only_refl.
Qed.

Lemma update_frame_trans d a b c :
  update_frame d a b -> update_frame d b c -> update_frame d a c.
Proof.
  intros (N1 & I1 & P1) (N2 & I2 & P2). split; [|split].
  - eapply same_nodes_trans; eassumption.
  - eapply infects_only_trans; eassumption.
  - eapply same_players_trans; eassumption.
Qed.

Lemma update_frame_same d s s' :
  graph s' = graph s -> infectedNodes s' = infectedNodes s ->
  attacker s' = attacker s -> defender s' = defender s ->
  lastAttackerScore s' = lastAttackerScore s -> update_frame d s s'.
Proof.
  intros Hg Hi Ha Hd Hl. split; [|split].
  - intros n. now rewrite Hg.
  - intros n. rewrite Hi. now left.
  - now repeat split.
Qed.

Lemma quarantineNode_frame d origin destination label :
  preserves (update_frame d) (quarantineNode origin destination label).
Proof.
  intros s. destruct label.
  4: { unfold exec. rewrite quarantineNode_high. cbv zeta. simpl snd.
       split; [|split].
       - intros n. simpl. rewrite graph_quarantined_step.
         apply DiGraphFacts.has_node_remove_edges_from.
       - intros n. simpl. destruct (mem origin (quarantinedNodes s)); simpl; now left.
       - destruct (mem origin (quarantinedNodes s)); now repeat split. }
  all: unfold exec; rewrite quarantineNode_other by discriminate;
    destruct (DiGraph.has_edge (graph s) origin destination); simpl;
    [|apply update_frame_refl];
    (split; [|split];
     [ intros n; simpl; apply DiGraphFacts.has_node_set_adj
     | intros n; simpl; now left
     | now repeat split ]).
Qed.

Lemma infectNode_frame d : preserves (update_frame d) (infectNode d).
Proof.
  intros s. unfold exec, infectNode, modify. simpl.
  destruct (mem d (infectedNodes s)); [apply update_frame_refl|].
  split; [|split].
  - intros n. reflexivity.
  - intros n. simpl. intros H. apply in_app_or in H.
    destruct H as [H|[<-|[]]]; auto.
  - now repeat split.
Qed.

Lemma updateNetwork_frame message label :
  preserves (update_frame (Message.destination message)) (updateNetwork message label).
Proof.
  set (d := Message.destination message).
  unfold updateNetwork.
  apply (preserves_bind _ (update_frame_trans d));
    [apply preserves_modify; intros s; now apply update_frame_same | intros _].
  apply (preserves_bind _ (update_frame_trans d)).
  - destruct label; try apply quarantineNode_frame;
      (destruct (Message.isMalicious message);
       [apply infectNode_frame | apply (preserves_ret _ (update_frame_refl d))]).
  - intros _. apply (preserves_bind _ (update_frame_trans d));
      [apply (preserves_lift _ (update_frame_refl d)) | intros r].
    apply preserves_modify. intros s. now apply update_frame_same.
Qed.

(** A well-formed state stays well-formed along a step that keeps the
    nodes, gains no edge and infects at most a node of the graph. *)
Lemma wf_state_step d s s' :
  wf_state s -> DiGraph.has_node (graph s) d = true ->
  evolves s s' -> same_nodes s s' -> infects_only d s s' -> wf_state s'.
Proof.
  intros [Hc Hi] Hd (_ & _ & He) Hn Ho. split.
  - intros u v H. rewrite Hn. eapply Hc. apply He. exact H.
  - intros n H. rewrite Hn. destruct (Ho n H) as [H'| ->]; auto.
Qed.

Lemma updateNetwork_wf message label s :
  wf_state s ->
  DiGraph.has_node (graph s) (Message.destination message) = true ->
  wf_state (exec (updateNetwork message label) s).
Proof.
  intros Hwf Hd.
  destruct (updateNetwork_frame message label s) as (Hn & Ho & _).
  eapply wf_state_step; eauto. apply updateNetwork_evolves.
Qed.

Lemma has_edge_has_node g u v :
  graph_closed g -> DiGraph.has_edge g u v = true -> DiGraph.has_node g v = true.
Proof. intros Hc. apply Hc. Qed.

(** On a well-formed state the network update of a message whose edge is
    in the graph returns. *)
Lemma updateNetwork_returns message label s :
  wf_state s ->
  DiGraph.has_edge (graph s) (Message.origin message) (Message.destination message) = true ->
  result (updateNetwork message label) s = Val tt.
Proof.
  intros Hwf He.
  assert (Hd : DiGraph.has_node (graph s) (Message.destination message) = true)
    by (eapply has_edge_has_node; [apply Hwf | exact He]).
  pose proof (updateNetwork_wf message label s Hwf Hd) as Hwf'.
  revert Hwf'. unfold updateNetwork.
  rewrite !exec_bind, !result_bind.
  set (s1 := exec (modify (fun s0 => set_colorMap
          (dict_set (colorMap s0) (Message.origin message) (COLOR_MAP label)) s0)) s).
  assert (Hr1 : result (modify (fun s0 => set_colorMap
          (dict_set (colorMap s0) (Message.origin message) (COLOR_MAP label)) s0)) s
          = Val tt) by reflexivity.
  rewrite Hr1.
  set (c2 := match label with
             | NO_SUSPICION_LABEL | LOW_SUSPICION_LABEL =>
                 if Message.isMalicious message
                 then infectNode (Message.destination message) else ret tt
             | _ => quarantineNode (Message.origin message)
                      (Message.destination message) label
             end).
  assert (Hr2 : result c2 s1 = Val tt).
  { subst c2. destruct label.
    - destruct (Message.isMalicious message); reflexivity.
    - destruct (Message.isMalicious message); reflexivity.
    - unfold result. rewrite quarantineNode_other by discriminate.
      subst s1. simpl. now rewrite He.
    - reflexivity. }
  rewrite Hr2.
  change (result (lift recomputeReachable) (exec c2 s1))
    with (recomputeReachable (exec c2 s1)).
  change (exec (lift recomputeReachable) (exec c2 s1)) with (exec c2 s1).
  destruct (recomputeReachable (exec c2 s1)) as [r|e] eqn:Hrec.
  - intros _. reflexivity.
  - intros Hwf'. exfalso.
    destruct (recomputeReachable_returns (exec c2 s1) (proj2 Hwf')) as [r Hr].
    congruence.
Qed.

(** ** Scoring *)

Lemma calculateNodeInfectionReward_value s node nbrs :
  DiGraph.adj (graph s) node = Some nbrs ->
  calculateNodeInfectionReward s node =
  Val (Spec.infectionPotential (infectedNodes s) nbrs node).
Proof.
  intros Ha. unfold calculateNodeInfectionReward, Spec.infectionPotential,
    DiGraph.neighbors. rewrite Ha. now destruct (mem node (infectedNodes s)).
Qed.

Lemma calculateScore_value s message label nbrs :
  DiGraph.adj (graph s) (Message.destination message) = Some nbrs ->
  exists score,
    calculateScore s message label = Val score /\
    reward_eq score
      (Spec.rewardTable (Message.isMalicious message) label
         (Spec.infectionPotential (infectedNodes s) nbrs (Message.destination message))
         (Z.of_nat (List.length nbrs) + 1)).
Proof.
  intros Ha. unfold calculateScore.
  rewrite (calculateNodeInfectionReward_value _ _ _ Ha).
  unfold DiGraph.neighbors. rewrite Ha. simpl.
  destruct (Message.isMalicious message), label; eexists; (split; [reflexivity|]);
    unfold reward_eq, truediv; simpl; split; try exact I;
    unfold Qeq; simpl; lia.
Qed.

Lemma calculateScore_returns s message label :
  graph_closed (graph s) ->
  DiGraph.has_edge (graph s) (Message.origin message) (Message.destination message) = true ->
  exists score, calculateScore s message label = Val score.
Proof.
  intros Hc He. apply Hc in He. unfold DiGraph.has_node in He.
  destruct (DiGraph.adj (graph s) (Message.destination message)) as [nbrs|] eqn:Ha;
    [|discriminate].
  destruct (calculateScore_value s message label nbrs Ha) as [score [H _]].
  now exists score.
Qed.

(** ** The processing of one message *)

Lemma processMessage_eq inp trafficInfo attackIndex key position message s score s2 :
  DiGraph.has_edge (graph s) (Message.origin message) (Message.destination message) = true ->
  calculateScore s message
    (if skipDraw inp key position then NO_SUSPICION_LABEL
     else inspect inp key position) = Val score ->
  updateNetwork message
    (if skipDraw inp key position then NO_SUSPICION_LABEL
     else inspect inp key position) s = (Val tt, s2) ->
  processMessage inp trafficInfo attackIndex key position message s =
  (Val tt,
   let s3 :=
     if skipDraw inp key position then s2
     else exec (defender_addTrainingPoint
                  (message, inspect inp key position, snd score)) s2 in
   if Message.isMalicious message
   then set_lastAttackerScore (fst score)
          (exec (attacker_addTrainingPoint (trafficInfo, attackIndex, fst score)) s3)
   else s3).
Proof.
  intros He Hscore Hup. unfold processMessage, bind, lift.
  rewrite He. change (negb true) with false. cbv beta iota. rewrite Hscore, Hup.
  destruct (skipDraw inp key position), (Message.isMalicious message); reflexivity.
Qed.

Lemma processMessage_run inp trafficInfo attackIndex key position message s :
  wf_state s ->
  DiGraph.has_edge (graph s) (Message.origin message) (Message.destination message) = true ->
  let label := if skipDraw inp key position then NO_SUSPICION_LABEL
               else inspect inp key position in
  let s' := exec (processMessage inp trafficInfo attackIndex key position message) s in
  exists score,
    calculateScore s message label = Val score /\
    result (processMessage inp trafficInfo attackIndex key position message) s = Val tt /\
    wf_state s' /\
    OUTPUT_SIZE (attacker s') = OUTPUT_SIZE (attacker s) /\
    attackerPoints (attacker s') =
      attackerPoints (attacker s) ++
      (if Message.isMalicious message then [(trafficInfo, attackIndex, fst score)] else []) /\
    defenderPoints (defender s') =
      defenderPoints (defender s) ++
      (if skipDraw inp key position then [] else [(message, label, snd score)]) /\
    lastAttackerScore s' =
      (if Message.isMalicious message then fst score else lastAttackerScore s).
Proof.
  intros Hwf He label s'.
  destruct (calculateScore_returns s message label (proj1 Hwf) He) as [score Hscore].
  exists score. split; [exact Hscore|].
  assert (Hd : DiGraph.has_node (graph s) (Message.destination message) = true)
    by (eapply has_edge_has_node; [apply Hwf | exact He]).
  pose proof (updateNetwork_returns message label s Hwf He) as Hret.
  pose proof (updateNetwork_wf message label s Hwf Hd) as Hwf2.
  destruct (updateNetwork_frame message label s) as (_ & _ & Ha & Hdf & Hl).
  unfold exec, result in Hret, Hwf2, Ha, Hdf, Hl.
  destruct (updateNetwork message label s) as [[[]|e] s2] eqn:Hup; [|discriminate].
  simpl in Hwf2, Ha, Hdf, Hl.
  subst s'. unfold exec, result.
  rewrite (processMessage_eq inp trafficInfo attackIndex key position message
             s score s2 He Hscore Hup).
  subst label. simpl fst. simpl snd.
  destruct (skipDraw inp key position), (Message.isMalicious message);
    unfold exec, modify, attacker_addTrainingPoint, defender_addTrainingPoint;
    simpl; rewrite ?Ha, ?Hdf, ?Hl, ?app_nil_r;
    (split; [reflexivity|]); (split; [exact Hwf2|]); repeat split; reflexivity.
Qed.

(** C1. For a destination that is a node of the graph, with [A] its
    infection potential and [D] its out-degree plus one, [calculateScore]
    returns the pair of the reward table (the rewards equal as rational
    numbers, "no sample" being [None]).  In the round the scores handed to
    the collaborators are those [calculateScore] gives on the state the
    message finds, before its network update. *)
Theorem calculateScore_table :
  (forall s message label nbrs,
     DiGraph.adj (graph s) (Message.destination message) = Some nbrs ->
     let A := Spec.infectionPotential (infectedNodes s) nbrs (Message.destination message) in
     let D := Z.of_nat (List.length nbrs) + 1 in
     calculateNodeInfectionReward s (Message.destination message) = Val A /\
     exists score,
       calculateScore s message label = Val score /\
       reward_eq score (Spec.rewardTable (Message.isMalicious message) label A D)) /\
  (forall inp trafficInfo attackIndex key position message s,
     wf_state s ->
     DiGraph.has_edge (graph s) (Message.origin message) (Message.destination message)
       = true ->
     let label := if skipDraw inp key position then NO_SUSPICION_LABEL
                  else inspect inp key position in
     let s' := exec (processMessage inp trafficInfo attackIndex key position message) s in
     exists score,
       calculateScore s message label = Val score /\
       defenderPoints (defender s') =
         defenderPoints (defender s) ++
         (if skipDraw inp key position then [] else [(message, label, snd score)]) /\
       attackerPoints (attacker s') =
         attackerPoints (attacker s) ++
         (if Message.isMalicious message
          then [(trafficInfo, attackIndex, fst score)] else [])).
Proof.
  split.
  - intros s message label nbrs Ha A D. split.
    + now apply calculateNodeInfectionReward_value.
    + now apply calculateScore_value.
  - intros inp ti idx key pos message s Hwf He label s'.
    destruct (processMessage_run inp ti idx key pos message s Hwf He)
      as (score & Hs & _ & _ & _ & Hap & Hdp & _).
    exists score. repeat split; assumption.
Qed.

Lemma adj_In g u vs : DiGraph.adj g u = Some vs -> In (u, vs) g.
Proof.
  induction g as [|[k ws] g IH]; simpl; [discriminate|].
  destruct (String.eqb k u) eqn:E.
  - apply String.eqb_eq in E. intros [= ->]. subst. now left.
  - intros H. right. now apply IH.
Qed.

Lemma graph_closedb_sound g : graph_closedb g = true -> graph_closed g.
Proof.
  unfold graph_closedb. rewrite forallb_forall. intros H u v He.
  unfold DiGraph.has_edge in He.
  destruct (DiGraph.adj g u) as [vs|] eqn:Ha; [|discriminate].
  specialize (H _ (adj_In _ _ _ Ha)). simpl in H.
  rewrite forallb_forall in H. apply H. now apply mem_In.
Qed.

Lemma chain_wf rows : wf_state (Scenario.chain rows).
Proof.
  split.
  - apply graph_closedb_sound. reflexivity.
  - intros n [<-|[]]. reflexivity.
Qed.

Lemma calculateScore_table_witness :
  DiGraph.adj (graph (Scenario.chain [])) (Message.destination Scenario.attackAB)
    = Some ["C"%string] /\
  wf_state (Scenario.chain []) /\
  DiGraph.has_edge (graph (Scenario.chain [])) "A"%string "B"%string = true /\
  (exists score,
     calculateScore (Scenario.chain []) Scenario.attackAB MEDIUM_SUSPICION_LABEL
       = Val score /\
     reward_eq score (Spec.rewardTable true MEDIUM_SUSPICION_LABEL 2 2)) /\
  (exists score,
     calculateScore (Scenario.chain []) Scenario.attackAB NO_SUSPICION_LABEL = Val score /\
     defenderPoints
       (defender (exec (processMessage Scenario.quiet [] 1 "B"%string 0 Scenario.attackAB)
                    (Scenario.chain [])))
       = [(Scenario.attackAB, NO_SUSPICION_LABEL, snd score)] /\
     attackerPoints
       (attacker (exec (processMessage Scenario.quiet [] 1 "B"%string 0 Scenario.attackAB)
                    (Scenario.chain [])))
       = [([], 1, fst score)]).
Proof.
  destruct calculateScore_table as [Htable Hround].
  split; [reflexivity|]. split; [apply chain_wf|]. split; [reflexivity|]. split.
  - exact (proj2 (Htable (Scenario.chain []) Scenario.attackAB MEDIUM_SUSPICION_LABEL
                    ["C"%string] eq_refl)).
  - exact (Hround Scenario.quiet [] 1 "B"%string 0%nat Scenario.attackAB
             (Scenario.chain []) (chain_wf []) eq_refl).
Defined.

(** The potential of B is 2 before the update of a missed attack on B and
    0 after it: the attacker is paid the value before. *)
Example calculateScore_before_update :
  calculateScore (Scenario.chain []) Scenario.attackAB NO_SUSPICION_LABEL
    = Val (Some (2 # 1)%Q, (-2 # 1)%Q) /\
  calculateScore
    (exec (updateNetwork Scenario.attackAB NO_SUSPICION_LABEL) (Scenario.chain []))
    Scenario.attackAB NO_SUSPICION_LABEL
    = Val (Some (0 # 1)%Q, (-2 # 1)%Q).
Proof. split; reflexivity. Qed.

(** ** The attacker's training points *)

Lemma yields_ret {A} (P : A -> Prop) (a : A) : P a -> yields P (ret a).
Proof. intros H s a' s' [= <- _]. exact H. Qed.

Lemma yields_raise {A} (P : A -> Prop) (e : Exn) : yields P (lift (fun _ => Raise e)).
Proof. intros s a s' H. discriminate. Qed.

Lemma yields_bind {A B} (P : B -> Prop) (c : M A) (k : A -> M B) :
  (forall a, yields P (k a)) -> yields P (bind c k).
Proof.
  intros Hk s b s' H. unfold bind in H.
  destruct (c s) as [[a|e] s1]; [|discriminate]. eapply Hk. exact H.
Qed.

Lemma generateTrafficQueues_index inp :
  yields (fun r => snd r = snd (getAttack inp)) (generateTrafficQueues inp).
Proof.
  unfold generateTrafficQueues.
  repeat (apply yields_bind; intros ?).
  destruct (fst (getAttack inp)) as [attackMsg|].
  - destruct (dict_get _ _); [|apply yields_raise].
    apply yields_bind. intros position. now apply yields_ret.
  - repeat (apply yields_bind; intros ?). now apply yields_ret.
Qed.

Section AttackerGains.
Variable P : AttackerPoint -> Prop.

Lemma attacker_gains_refl s : attacker_gains P s s.
Proof.
  split; [reflexivity|]. exists []. split; [now rewrite app_nil_r | constructor].
Qed.

Lemma attacker_gains_trans a b c :
  attacker_gains P a b -> attacker_gains P b c -> attacker_gains P a c.
Proof.
  intros (O1 & l1 & E1 & F1) (O2 & l2 & E2 & F2). split; [congruence|].
  exists (l1 ++ l2). split.
  - rewrite E2, E1. now rewrite app_assoc.
  - apply Forall_app. now split.
Qed.

Lemma attacker_gains_same s s' :
  attacker s' = attacker s -> attacker_gains P s s'.
Proof. intros H. unfold attacker_gains. rewrite H. apply attacker_gains_refl. Qed.

Lemma attacker_addTrainingPoint_gains p :
  P p -> preserves (attacker_gains P) (attacker_addTrainingPoint p).
Proof.
  intros Hp s. split; [reflexivity|]. exists [p]. split; [reflexivity|].
  now constructor.
Qed.

Lemma updateNetwork_gains message label :
  preserves (attacker_gains P) (updateNetwork message label).
Proof.
  intros s. apply attacker_gains_same.
  now destruct (updateNetwork_frame message label s) as (_ & _ & Ha & _).
Qed.
End AttackerGains.

Lemma processMessage_gains inp trafficInfo attackIndex key position message :
  preserves (attacker_gains (fun p => fst p = (trafficInfo, attackIndex)))
    (processMessage inp trafficInfo attackIndex key position message).
Proof.
  set (P := fun p : AttackerPoint => fst p = (trafficInfo, attackIndex)).
  unfold processMessage.
  apply (preserves_bind _ (attacker_gains_trans P));
    [apply (preserves_lift _ (attacker_gains_refl P)) | intros s0].
  destruct (negb _); [apply (preserves_ret _ (attacker_gains_refl P))|].
  apply (preserves_bind _ (attacker_gains_trans P));
    [apply (preserves_lift _ (attacker_gains_refl P)) | intros score].
  apply (preserves_bind _ (attacker_gains_trans P));
    [apply updateNetwork_gains | intros _].
  apply (preserves_bind _ (attacker_gains_trans P)).
  - destruct (negb _); [|apply (preserves_ret _ (attacker_gains_refl P))].
    intros s. now apply attacker_gains_same.
  - intros _. destruct (Message.isMalicious message);
      [|apply (preserves_ret _ (attacker_gains_refl P))].
    apply (preserves_bind _ (attacker_gains_trans P));
      [now apply attacker_addTrainingPoint_gains | intros _].
    intros s. now apply attacker_gains_same.
Qed.

Lemma processQueue_gains inp trafficInfo attackIndex key queue : forall position,
  preserves (attacker_gains (fun p => fst p = (trafficInfo, attackIndex)))
    (processQueue inp trafficInfo attackIndex key position queue).
Proof.
  set (P := fun p : AttackerPoint => fst p = (trafficInfo, attackIndex)).
  induction queue as [|message rest IH]; intros position; simpl.
  - apply (preserves_ret _ (attacker_gains_refl P)).
  - apply (preserves_bind _ (attacker_gains_trans P));
      [apply processMessage_gains | intros _; apply IH].
Qed.

Lemma processQueues_gains inp trafficInfo attackIndex queues :
  preserves (attacker_gains (fun p => fst p = (trafficInfo, attackIndex)))
    (processQueues inp trafficInfo attackIndex queues).
Proof.
  set (P := fun p : AttackerPoint => fst p = (trafficInfo, attackIndex)).
  unfold processQueues.
  apply (preserves_forM_ _ (attacker_gains_refl P) (attacker_gains_trans P)).
  intros kq. apply processQueue_gains.
Qed.

(** The round after its traffic generation. *)
Lemma runRound_eq inp s r s1 :
  generateTrafficQueues inp (set_roundNumber (roundNumber s + 1) s) = (Val r, s1) ->
  runRound inp s =
  processQueues inp (snd (fst r)) (snd (getAttack inp)) (fst (fst r))
    (set_lastAttackerScore (Some (inject_Z 0)) s1).
Proof.
  intros H. unfold runRound, bind at 1, modify at 1. unfold bind at 1. rewrite H.
  unfold bind at 1, modify at 1.
  now rewrite (generateTrafficQueues_index inp _ _ _ H).
Qed.

(** A round without attack in which the background traffic is the
    malicious message A -> B: the attacker gets two training points. *)
Example quiet_round_points :
  traffic (exec (runRound Scenario.quiet) (Scenario.chain Scenario.rows2))
    = [Scenario.background] /\
  attackMessage (exec (runRound Scenario.quiet) (Scenario.chain Scenario.rows2)) = None /\
  map (fun p => (snd (fst p), snd p))
    (attackerPoints (attacker (exec (runRound Scenario.quiet)
                                 (Scenario.chain Scenario.rows2))))
    = [(3, Some (0 # 1)%Q); (3, Some (2 # 1)%Q)].
Proof. repeat split. Qed.

(** ** A round without attack *)

Lemma omap_length {A B} (f : A -> Outcome B) (l : list A) : forall bs,
  omap f l = Val bs -> List.length bs = List.length l.
Proof.
  induction l as [|a l IH]; simpl; intros bs H.
  - now injection H as <-.
  - destruct (f a) as [b|e]; [|discriminate]. simpl in H.
    destruct (omap f l) as [bs'|e]; [|discriminate]. simpl in H.
    injection H as <-. simpl. f_equal. now apply IH.
Qed.

Lemma omap_In {A B} (f : A -> Outcome B) (l : list A) : forall bs,
  omap f l = Val bs -> forall b, In b bs -> exists a, In a l /\ f a = Val b.
Proof.
  induction l as [|a l IH]; simpl; intros bs H b Hb.
  - injection H as <-. destruct Hb.
  - destruct (f a) as [b0|e] eqn:Hf; [|discriminate]. simpl in H.
    destruct (omap f l) as [bs'|e]; [|discriminate]. simpl in H.
    injection H as <-. destruct Hb as [<-|Hb].
    + exists a. split; [now left | assumption].
    + destruct (IH bs' eq_refl b Hb) as [a' [Ha' Hfa']].
      exists a'. split; [now right | assumption].
Qed.

Lemma nodeInformation_returns s q :
  infected_in_graph s ->
  exists info, nodeInformation s q = Val info /\
               List.length info = List.length (DiGraph.nodes (graph s)).
Proof.
  intros Hwf. unfold nodeInformation.
  match goal with |- context [omap ?f ?l] =>
    destruct (omap_total f l) as [info Hinfo] end.
  - intros node Hn. destruct (proj1 (isReachable_spec s node Hwf)) as [b ->]. simpl.
    apply DiGraphFacts.has_node_In in Hn. unfold DiGraph.has_node in Hn.
    destruct (DiGraph.adj (graph s) node) as [nbrs|] eqn:Ha; [|discriminate].
    rewrite (calculateNodeInfectionReward_value _ _ _ Ha). simpl. now eexists.
  - exists info. split; [assumption|]. eapply omap_length. eassumption.
Qed.

Lemma randint_range a b u n :
  random.randint a b u = Val n -> a <= n <= b.
Proof.
  unfold random.randint. destruct (a <=? b) eqn:E; [|discriminate].
  apply Z.leb_le in E. intros [= <-].
  pose proof (Z.mod_pos_bound (Z.of_nat u) (b - a + 1)). lia.
Qed.

Lemma rowIndices_nonempty s inp indices :
  rowIndices s inp = Val indices -> indices <> [].
Proof.
  unfold rowIndices.
  destruct (random.randint 1 MAX_BACKGROUND_TRAFFIC_MESSAGES (countDraw inp))
    as [numMessages|e] eqn:Hn; [|discriminate].
  apply randint_range in Hn. cbn [obind].
  intros H Hnil. apply omap_length in H. subst indices.
  rewrite length_seq in H. simpl in H. lia.
Qed.

Lemma generateBackgroundTraffic_nodes s inp msgs :
  generateBackgroundTraffic s inp = Val msgs -> DiGraph.nodes (graph s) <> [].
Proof.
  unfold generateBackgroundTraffic. intros H Hn.
  destruct (rowIndices s inp) as [indices|e] eqn:Hidx; [|discriminate].
  simpl in H. destruct (omap (iloc (dataset s)) indices) as [rows|e] eqn:Hrows;
    [|discriminate].
  simpl in H. apply omap_length in Hrows.
  apply rowIndices_nonempty in Hidx.
  destruct rows as [|row rows]; [destruct indices; [congruence | discriminate]|].
  simpl in H. unfold backgroundMessage in H. rewrite Hn in H. discriminate.
Qed.

(** The messages of the background traffic carry the malicious flag of a
    dataset record. *)
Lemma backgroundMessages_flag g inp rows : forall k msgs,
  backgroundMessages g inp k rows = Val msgs ->
  forall m, In m msgs ->
  exists row, In row rows /\ Message.isMalicious m = Message.rowMalicious row /\
              Message.payload m = Message.rowPayload row.
Proof.
  induction rows as [|row rows IH]; simpl; intros k msgs H m Hm.
  - injection H as <-. destruct Hm.
  - destruct (backgroundMessage g inp k row) as [om|e] eqn:Hb; [|discriminate].
    simpl in H.
    destruct (backgroundMessages g inp (S k) rows) as [ms|e] eqn:Hrest; [|discriminate].
    simpl in H. injection H as <-.
    assert (Hrec : In m ms -> exists row0, In row0 (row :: rows) /\
              Message.isMalicious m = Message.rowMalicious row0 /\
              Message.payload m = Message.rowPayload row0).
    { intros Hin. destruct (IH (S k) ms Hrest m Hin) as [r [Hr Hf]].
      exists r. split; [now right | assumption]. }
    destruct om as [x|]; [|now apply Hrec].
    destruct Hm as [<-|Hm]; [|now apply Hrec].
    exists row. split; [now left|].
    unfold backgroundMessage in Hb.
    destruct (random.choice (DiGraph.nodes g) (originDraw inp k)) as [o|e];
      [|discriminate]. simpl in Hb.
    destruct (random.choice _ (destinationDraw inp k)) as [d|e]; [|discriminate].
    injection Hb as <-. split; reflexivity.
Qed.

Lemma generateTrafficQueues_no_attack inp s msgs :
  infected_in_graph s ->
  generateBackgroundTraffic s inp = Val msgs ->
  fst (getAttack inp) = None ->
  exists info,
    nodeInformation s (organize (graph s) msgs) = Val info /\
    generateTrafficQueues inp s =
    (Val (organize (graph s) msgs, trafficInfoOf info, snd (getAttack inp)),
     exec (attacker_addTrainingPoint
             (trafficInfoOf info, OUTPUT_SIZE (attacker s) - 1, Some (inject_Z 0)))
       (set_attackMessage None (set_traffic msgs s))).
Proof.
  intros Hwf Hbg Hnone.
  destruct (nodeInformation_returns s (organize (graph s) msgs) Hwf) as [info [Hinfo Hlen]].
  exists info. split; [exact Hinfo|].
  assert (Hne : info <> []).
  { intros ->. apply (generateBackgroundTraffic_nodes _ _ _ Hbg).
    now destruct (DiGraph.nodes (graph s)). }
  unfold generateTrafficQueues.
  unfold bind at 1. unfold lift at 1. rewrite Hbg.
  unfold bind at 1. unfold modify at 1.
  unfold bind at 1. unfold lift at 1.
  unfold bind at 1. unfold lift at 1.
  change (nodeInformation (set_traffic msgs s)
            (organize (graph (set_traffic msgs s)) msgs))
    with (nodeInformation s (organize (graph s) msgs)).
  rewrite Hinfo.
  destruct info as [|i info]; [congruence|].
  unfold bind at 1. unfold ret at 1.
  unfold bind at 1. unfold modify at 1.
  rewrite Hnone. reflexivity.
Qed.

Lemma same_attacker_refl s : same_attacker s s.
Proof. reflexivity. Qed.

Lemma same_attacker_trans a b c :
  same_attacker a b -> same_attacker b c -> same_attacker a c.
Proof. unfold same_attacker. congruence. Qed.

Lemma preserves_forM_In (R : GameState -> GameState -> Prop)
    (R_refl : forall s, R s s) (R_trans : forall a b c, R a b -> R b c -> R a c)
    {A} (f : A -> M unit) (l : list A) :
  (forall a, In a l -> preserves R (f a)) -> preserves R (forM_ f l).
Proof.
  induction l as [|a l IH]; simpl; intros Hf.
  - now apply preserves_ret.
  - apply preserves_bind; [assumption | apply Hf; now left |].
    intros _. apply IH. intros x Hx. apply Hf. now right.
Qed.

Lemma processMessage_benign inp trafficInfo attackIndex key position message :
  Message.isMalicious message = false ->
  preserves same_attacker
    (processMessage inp trafficInfo attackIndex key position message).
Proof.
  intros Hb. unfold processMessage. rewrite Hb.
  apply (preserves_bind _ same_attacker_trans);
    [apply (preserves_lift _ same_attacker_refl) | intros s0].
  destruct (negb _); [apply (preserves_ret _ same_attacker_refl)|].
  apply (preserves_bind _ same_attacker_trans);
    [apply (preserves_lift _ same_attacker_refl) | intros score].
  apply (preserves_bind _ same_attacker_trans).
  - intros s. now destruct (updateNetwork_frame message
      (if skipDraw inp key position then NO_SUSPICION_LABEL
       else inspect inp key position) s) as (_ & _ & Ha & _).
  - intros _. apply (preserves_bind _ same_attacker_trans).
    + destruct (negb _); [|apply (preserves_ret _ same_attacker_refl)].
      intros s. reflexivity.
    + intros _. apply (preserves_ret _ same_attacker_refl).
Qed.

Lemma processQueue_benign inp trafficInfo attackIndex key queue :
  (forall m, In m queue -> Message.isMalicious m = false) ->
  forall position,
  preserves same_attacker (processQueue inp trafficInfo attackIndex key position queue).
Proof.
  induction queue as [|message rest IH]; intros Hq position; simpl.
  - apply (preserves_ret _ same_attacker_refl).
  - apply (preserves_bind _ same_attacker_trans).
    + apply processMessage_benign. apply Hq. now left.
    + intros _. apply IH. intros m Hm. apply Hq. now right.
Qed.

Lemma organize_In g msgs kq m :
  In kq (organize g msgs) -> In m (snd kq) -> In m msgs.
Proof.
  unfold organize. rewrite in_map_iff. intros [node [<- _]] Hm. simpl in Hm.
  now apply filter_In in Hm.
Qed.

(** C9, amended. In a round where the Attacker returns no attack message
    (the traffic generation got as far as asking it), the traffic
    generation emits exactly one attacker training point: zero reward,
    tagged [OUTPUT_SIZE - 1].  It is the only attacker point of the round
    when the round's background traffic has no malicious message; each
    processed malicious message adds one more. *)
Theorem no_attack_round_points (inp : RoundInput) (s : GameState)
    (msgs : list Message.t) :
  infected_in_graph s ->
  generateBackgroundTraffic s inp = Val msgs ->
  fst (getAttack inp) = None ->
  exists trafficInfo,
    (exists queues s1,
       generateTrafficQueues inp s = (Val (queues, trafficInfo, snd (getAttack inp)), s1) /\
       attackerPoints (attacker s1) =
         attackerPoints (attacker s) ++
         [(trafficInfo, OUTPUT_SIZE (attacker s) - 1, Some (inject_Z 0))]) /\
    ((forall m, In m msgs -> Message.isMalicious m = false) ->
     attackerPoints (attacker (exec (runRound inp) s)) =
       attackerPoints (attacker s) ++
       [(trafficInfo, OUTPUT_SIZE (attacker s) - 1, Some (inject_Z 0))]).
Proof.
  intros Hwf Hbg Hnone.
  destruct (generateTrafficQueues_no_attack inp s msgs Hwf Hbg Hnone)
    as (info & Hinfo & Hgen).
  exists (trafficInfoOf info). split.
  - do 2 eexists. split; [exact Hgen|]. reflexivity.
  - intros Hbenign.
    destruct (generateTrafficQueues_no_attack inp
                (set_roundNumber (roundNumber s + 1) s) msgs Hwf Hbg Hnone)
      as (info' & Hinfo' & Hgen').
    change (nodeInformation (set_roundNumber (roundNumber s + 1) s)
              (organize (graph (set_roundNumber (roundNumber s + 1) s)) msgs))
      with (nodeInformation s (organize (graph s) msgs)) in Hinfo'.
    rewrite Hinfo in Hinfo'. injection Hinfo' as <-.
    unfold exec at 1. rewrite (runRound_eq inp s _ _ Hgen'). simpl fst. simpl snd.
    match goal with |- context [processQueues ?i ?t ?x ?q ?st] =>
      transitivity (attackerPoints (attacker st));
      [ f_equal;
        exact (preserves_forM_In same_attacker same_attacker_refl same_attacker_trans
                 (fun kq => processQueue i t x (fst kq) 0 (snd kq)) q
                 (fun kq Hkq => processQueue_benign i t x (fst kq) (snd kq)
                    (fun m Hm => Hbenign m (organize_In _ _ kq m Hkq Hm)) 0%nat)
                 st)
      | reflexivity ]
    end.
Qed.

(** A round in which the Attacker returns no attack message and the
    background traffic holds one malicious message: the round returns and
    the Attacker has received two training points, not one. *)
Lemma no_attack_round_two_points :
  fst (getAttack Scenario.quiet) = None /\
  attackerPoints (attacker (Scenario.chain Scenario.rows2)) = [] /\
  result (runRound Scenario.quiet) (Scenario.chain Scenario.rows2) = Val tt /\
  List.length
    (attackerPoints
       (attacker (exec (runRound Scenario.quiet) (Scenario.chain Scenario.rows2)))) = 2%nat.
Proof. repeat split. Qed.

Lemma no_attack_round_points_witness :
  infected_in_graph (Scenario.chain Scenario.rowsBenign) /\
  generateBackgroundTraffic (Scenario.chain Scenario.rowsBenign) Scenario.quiet
    = Val [Scenario.benign] /\
  fst (getAttack Scenario.quiet) = None /\
  (forall m, In m [Scenario.benign] -> Message.isMalicious m = false) /\
  exists trafficInfo,
    (exists queues s1,
       generateTrafficQueues Scenario.quiet (Scenario.chain Scenario.rowsBenign)
         = (Val (queues, trafficInfo, snd (getAttack Scenario.quiet)), s1) /\
       attackerPoints (attacker s1) =
         attackerPoints (attacker (Scenario.chain Scenario.rowsBenign)) ++
         [(trafficInfo, OUTPUT_SIZE (attacker (Scenario.chain Scenario.rowsBenign)) - 1,
           Some (inject_Z 0))]) /\
    attackerPoints (attacker (exec (runRound Scenario.quiet)
                                (Scenario.chain Scenario.rowsBenign))) =
      attackerPoints (attacker (Scenario.chain Scenario.rowsBenign)) ++
      [(trafficInfo, OUTPUT_SIZE (attacker (Scenario.chain Scenario.rowsBenign)) - 1,
        Some (inject_Z 0))].
Proof.
  assert (Hwf : infected_in_graph (Scenario.chain Scenario.rowsBenign))
    by apply chain_wf.
  assert (Hbenign : forall m, In m [Scenario.benign] -> Message.isMalicious m = false)
    by (intros m [<-|[]]; reflexivity).
  split; [exact Hwf|]. split; [reflexivity|]. split; [reflexivity|].
  split; [exact Hbenign|].
  destruct (no_attack_round_points Scenario.quiet (Scenario.chain Scenario.rowsBenign)
              [Scenario.benign] Hwf eq_refl eq_refl) as (trafficInfo & Hgen & Hround).
  exists trafficInfo. split; [exact Hgen | exact (Hround Hbenign)].
Defined.

(** ** The random draws of the traffic generation *)

Lemma randint_draw a b u :
  (u < random.randint_size a b)%nat ->
  random.randint a b u = Val (a + Z.of_nat u).
Proof.
  unfold random.randint_size, random.randint. intros Hu.
  destruct (a <=? b) eqn:E.
  - apply Z.leb_le in E. f_equal. f_equal. apply Z.mod_small. lia.
  - apply Z.leb_gt in E. lia.
Qed.

Lemma list_insert_end {A} (x : A) (l : list A) (position : nat) :
  (List.length l <= position)%nat -> list_insert position x l = l ++ [x].
Proof.
  intros H. unfold list_insert. now rewrite firstn_all2, skipn_all2.
Qed.

(** C5 (what the code does). The position of the attack message is
    [randint(0, len(queue) + 1)]: its [len(queue) + 2] equally likely
    draws are the positions 0 to [len(queue) + 1], and the last two both
    put the message at the end of the queue.  On a queue of one message
    the three draws give the front once and the end twice. *)
Theorem attack_position_end_twice :
  (forall (queue : list Message.t) (attackMsg : Message.t),
     let n := List.length queue in
     map (random.randint 0 (Z.of_nat n + 1)) (seq 0 (n + 2)) =
       map (fun u => Val (Z.of_nat u)) (seq 0 (n + 2)) /\
     list_insert n attackMsg queue = queue ++ [attackMsg] /\
     list_insert (n + 1) attackMsg queue = queue ++ [attackMsg]) /\
  map (fun u =>
         match result (generateTrafficQueues (Scenario.attacking u))
                 (Scenario.chain Scenario.rowsBenign) with
         | Val r => dict_get (fst (fst r)) "B"%string
         | Raise _ => None
         end) [0; 1; 2]%nat =
    [Some [Scenario.attackAB; Scenario.benign];
     Some [Scenario.benign; Scenario.attackAB];
     Some [Scenario.benign; Scenario.attackAB]].
Proof.
  split.
  - intros queue attackMsg n. split; [|split].
    + apply map_ext_in. intros u Hu. apply in_seq in Hu.
      rewrite randint_draw; [reflexivity|]. unfold random.randint_size. lia.
    + now apply list_insert_end.
    + apply list_insert_end. lia.
  - reflexivity.
Qed.

Lemma iloc_tail d index row :
  1 <= index -> iloc d index = Val row -> In row (tl d).
Proof.
  intros Hi. unfold iloc.
  destruct (nth_error d (Z.to_nat index)) as [r|] eqn:Hn; [|discriminate].
  destruct (0 <=? index); [|discriminate]. intros [= <-].
  destruct (Z.to_nat index) as [|k] eqn:Hk; [lia|].
  destruct d as [|r0 d]; [discriminate|]. simpl in *.
  eapply nth_error_In. eassumption.
Qed.

Lemma rowIndices_range s inp indices :
  rowIndices s inp = Val indices ->
  Forall (fun i => 1 <= i <= Z.of_nat (List.length (dataset s)) - 1) indices.
Proof.
  unfold rowIndices.
  destruct (random.randint 1 MAX_BACKGROUND_TRAFFIC_MESSAGES (countDraw inp))
    as [numMessages|e]; [|discriminate].
  cbn [obind]. intros H. apply Forall_forall. intros i Hi.
  destruct (omap_In _ _ _ H i Hi) as [k [_ Hk]].
  now apply randint_range in Hk.
Qed.

Lemma generateBackgroundTraffic_tail s inp msgs :
  generateBackgroundTraffic s inp = Val msgs ->
  Forall (fun m => exists row, In row (tl (dataset s)) /\
                     Message.isMalicious m = Message.rowMalicious row /\
                     Message.payload m = Message.rowPayload row) msgs.
Proof.
  unfold generateBackgroundTraffic. intros H.
  destruct (rowIndices s inp) as [indices|e] eqn:Hidx; [|discriminate].
  cbn [obind] in H.
  destruct (omap (iloc (dataset s)) indices) as [rows|e] eqn:Hrows; [|discriminate].
  cbn [obind] in H. apply Forall_forall. intros m Hm.
  destruct (backgroundMessages_flag _ _ _ _ _ H m Hm) as [row [Hrow Hflag]].
  exists row. split; [|assumption].
  destruct (omap_In _ _ _ Hrows row Hrow) as [index [Hindex Hiloc]].
  apply rowIndices_range in Hidx. rewrite Forall_forall in Hidx.
  eapply iloc_tail; [|eassumption]. now apply Hidx.
Qed.

(** C6 (what the code does). The row indices are drawn by
    [randint(1, datasetLength - 1)]: they are never 0, so every
    background message is built from a record other than the first one;
    with three records the two equally likely draws give the second and
    the third record, and with a single record the draw raises. *)
Theorem first_record_never_sampled :
  (forall s inp,
     match rowIndices s inp with
     | Val indices =>
         Forall (fun i => 1 <= i <= Z.of_nat (List.length (dataset s)) - 1) indices
     | Raise _ => True
     end) /\
  (forall s inp,
     match generateBackgroundTraffic s inp with
     | Val msgs =>
         Forall (fun m => exists row, In row (tl (dataset s)) /\
                            Message.isMalicious m = Message.rowMalicious row /\
                            Message.payload m = Message.rowPayload row) msgs
     | Raise _ => True
     end) /\
  map (fun u => generateBackgroundTraffic (Scenario.chain Scenario.rows3)
                  (Scenario.sampling u)) [0; 1]%nat =
    [Val [Message.Build "A"%string "B"%string false ["r1"%string]];
     Val [Message.Build "A"%string "B"%string false ["r2"%string]]] /\
  generateBackgroundTraffic (Scenario.chain [Scenario.benignRow "r0"%string]) Scenario.quiet
    = Raise ValueError.
Proof.
  split; [|split; [|split]].
  - intros s inp. destruct (rowIndices s inp) eqn:H; [|exact I].
    now apply rowIndices_range with (inp := inp).
  - intros s inp. destruct (generateBackgroundTraffic s inp) eqn:H; [|exact I].
    now apply generateBackgroundTraffic_tail with (inp := inp).
  - reflexivity.
  - reflexivity.
Qed.

(** ** The inspection chance *)

Section InspectionChance.
Local Open Scope R_scope.




End InspectionChance.




(** ** Well-formedness is an invariant of the game

    The hypothesis of the theorems above, [wf_state], holds in the state
    [initializeNetwork] builds and is kept by every round. *)

Module BuildFacts.
Import DiGraph.

Lemma adj_app g g' n :
  adj (g ++ g') n = match adj g n with Some vs => Some vs | None => adj g' n end.
Proof.
  induction g as [|[k vs] g IH]; simpl; [reflexivity|].
  destruct (String.eqb k n); [reflexivity | apply IH].
Qed.

Lemma adj_add_node g n m :
  adj (add_node g n) m =
  match adj g m with
  | Some vs => Some vs
  | None => if String.eqb n m then Some [] else None
  end.
Proof.
  unfold add_node, has_node. destruct (adj g n) as [vs|] eqn:Hn.
  - destruct (adj g m) eqn:Hm; [reflexivity|].
    destruct (String.eqb n m) eqn:E; [|reflexivity].
    apply String.eqb_eq in E. subst. congruence.
  - rewrite adj_app. destruct (adj g m); [reflexivity|]. simpl.
    now destruct (String.eqb n m).
Qed.

Lemma has_node_add_node g n m :
  has_node (add_node g n) m = has_node g m || String.eqb n m.
Proof.
  unfold has_node. rewrite adj_add_node.
  destruct (adj g m); [reflexivity|]. now destruct (String.eqb n m).
Qed.

Lemma has_edge_add_node g n a b : has_edge (add_node g n) a b = has_edge g a b.
Proof.
  unfold has_edge. rewrite adj_add_node.
  destruct (adj g a); [reflexivity|]. now destruct (String.eqb n a).
Qed.

Lemma has_node_add_edge g u v m :
  has_node (add_edge g u v) m = has_node g m || String.eqb u m || String.eqb v m.
Proof.
  unfold add_edge. cbv zeta. rewrite DiGraphFacts.has_node_set_adj.
  now rewrite !has_node_add_node.
Qed.

Lemma has_edge_add_edge g u v a b :
  has_edge (add_edge g u v) a b = true ->
  has_edge g a b = true \/ (a = u /\ b = v).
Proof.
  unfold add_edge. cbv zeta. unfold has_edge at 1. rewrite DiGraphFacts.adj_set_adj.
  destruct (String.eqb u a) eqn:E.
  - apply String.eqb_eq in E. subst a.
    fold (has_edge g u b).
    destruct (adj (add_node (add_node g u) v) u) as [vs|] eqn:Ha; [|discriminate].
    simpl. intros H.
    assert (Hold : mem b vs = has_edge g u b).
    { rewrite <- (has_edge_add_node g u u b), <- (has_edge_add_node _ v u b).
      unfold has_edge. now rewrite Ha. }
    destruct (mem v vs).
    + left. congruence.
    + rewrite mem_app in H. apply orb_true_iff in H. destruct H as [H|H].
      * left. congruence.
      * right. simpl in H. rewrite orb_false_r in H.
        apply String.eqb_eq in H. now split.
  - intros H. left. change (has_edge (add_node (add_node g u) v) a b = true) in H.
    now rewrite !has_edge_add_node in H.
Qed.

Lemma graph_closed_add_node g n : graph_closed g -> graph_closed (add_node g n).
Proof.
  intros Hc u v H. rewrite has_edge_add_node in H. rewrite has_node_add_node.
  now rewrite (Hc u v H).
Qed.

Lemma graph_closed_add_edge g u v : graph_closed g -> graph_closed (add_edge g u v).
Proof.
  intros Hc a b H. rewrite has_node_add_edge.
  destruct (has_edge_add_edge _ _ _ _ _ H) as [Hold|[-> ->]].
  - now rewrite (Hc a b Hold).
  - rewrite String.eqb_refl. now rewrite orb_true_r.
Qed.

Lemma ensure_node_graph s n c :
  graph (if has_node (graph s) n then s
         else set_colorMap c (set_graph (add_node (graph s) n) s))
  = add_node (graph s) n.
Proof. unfold add_node. now destruct (has_node (graph s) n). Qed.

Lemma addNetworkLine_graph s line :
  graph (addNetworkLine s line) =
  add_edge (add_node (add_node (graph s) (fst line)) (snd line)) (fst line) (snd line).
Proof.
  unfold addNetworkLine. cbv zeta.
  match goal with |- graph (set_graph (add_edge (graph ?s2) ?u ?v) _) = _ =>
    transitivity (add_edge (graph s2) u v); [reflexivity|]
  end.
  now rewrite !ensure_node_graph.
Qed.

Lemma addNetworkLine_infected s line :
  infectedNodes (addNetworkLine s line) = infectedNodes s.
Proof.
  unfold addNetworkLine. cbv zeta. simpl.
  repeat match goal with |- context [if ?c then _ else _] => destruct c end;
    reflexivity.
Qed.

Lemma fold_addNetworkLine lines : forall s,
  graph_closed (graph s) ->
  graph_closed (graph (fold_left addNetworkLine lines s)) /\
  (forall n, has_node (graph s) n = true ->
             has_node (graph (fold_left addNetworkLine lines s)) n = true) /\
  (lines <> [] -> nodes (graph (fold_left addNetworkLine lines s)) <> []).
Proof.
  induction lines as [|line lines IH]; intros s Hc; simpl.
  - split; [assumption|]. split; [auto | congruence].
  - assert (Hc' : graph_closed (graph (addNetworkLine s line))).
    { rewrite addNetworkLine_graph. apply graph_closed_add_edge.
      now do 2 apply graph_closed_add_node. }
    destruct (IH _ Hc') as (Hclosed & Hmono & _).
    split; [assumption|]. split.
    + intros n Hn. apply Hmono. rewrite addNetworkLine_graph, has_node_add_edge,
        !has_node_add_node, Hn. reflexivity.
    + intros _ Hnil.
      assert (Hsrc : has_node (graph (fold_left addNetworkLine lines
                                        (addNetworkLine s line))) (fst line) = true).
      { apply Hmono. rewrite addNetworkLine_graph, has_node_add_edge.
        rewrite String.eqb_refl. now rewrite orb_true_r. }
      apply DiGraphFacts.has_node_In in Hsrc. rewrite Hnil in Hsrc. destruct Hsrc.
Qed.
End BuildFacts.

Lemma fold_addNetworkLine_infected lines : forall s,
  infectedNodes (fold_left addNetworkLine lines s) = infectedNodes s.
Proof.
  induction lines as [|line lines IH]; intros s; simpl; [reflexivity|].
  rewrite IH. apply BuildFacts.addNetworkLine_infected.
Qed.

(** [initializeNetwork] on a network file with at least one line returns
    and builds a well-formed state with a single infected node and no
    quarantined node. *)
Lemma initializeNetwork_wf lines sampleDraw s :
  lines <> [] ->
  let s' := exec (initializeNetwork lines sampleDraw) s in
  result (initializeNetwork lines sampleDraw) s = Val tt /\
  wf_state s' /\
  (exists node, infectedNodes s' = [node]) /\
  quarantinedNodes s' = [].
Proof.
  intros Hlines s'. subst s'.
  destruct (BuildFacts.fold_addNetworkLine lines (set_graph [] s)) as (Hc & _ & Hne).
  { intros u v H. discriminate. }
  specialize (Hne Hlines).
  set (s1 := fold_left addNetworkLine lines (set_graph [] s)) in *.
  destruct (DiGraph.nodes (graph s1)) as [|x nodes] eqn:Hnodes; [congruence|].
  set (node := nth (Nat.modulo sampleDraw (List.length (x :: nodes))) (x :: nodes) x).
  assert (Hin : In node (DiGraph.nodes (graph s1))).
  { rewrite Hnodes. apply nth_In. apply Nat.mod_upper_bound. discriminate. }
  assert (Hwf : wf_state (set_infectedNodes [node] s1)).
  { split; [exact Hc|]. intros n [<-|[]]. now apply DiGraphFacts.has_node_In. }
  destruct (recomputeReachable_returns _ (proj2 Hwf)) as [r Hr].
  assert (Heq : initializeNetwork lines sampleDraw s =
                (Val tt, set_quarantinedNodes []
                           (set_reachableNodes r (set_infectedNodes [node] s1)))).
  { unfold initializeNetwork, bind, modify, lift, random.sample1.
    change (fold_left addNetworkLine lines (set_graph [] s)) with s1.
    rewrite Hnodes. fold node. rewrite Hr. reflexivity. }
  unfold exec, result. rewrite Heq. simpl fst. simpl snd.
  split; [reflexivity|]. split; [exact Hwf|]. split; [now exists node | reflexivity].
Qed.

Lemma same_topology_refl s : same_topology s s.
Proof. now split. Qed.

Lemma same_topology_trans a b c :
  same_topology a b -> same_topology b c -> same_topology a c.
Proof. intros [G1 I1] [G2 I2]. split; congruence. Qed.

Lemma generateTrafficQueues_topology inp :
  preserves same_topology (generateTrafficQueues inp).
Proof.
  unfold generateTrafficQueues.
  preserve same_topology_refl same_topology_trans;
    try (apply preserves_modify; intros s; now split);
    intros s; now split.
Qed.

Lemma processMessage_wf inp trafficInfo attackIndex key position message s :
  wf_state s ->
  wf_state (exec (processMessage inp trafficInfo attackIndex key position message) s).
Proof.
  intros Hwf.
  destruct (DiGraph.has_edge (graph s) (Message.origin message)
              (Message.destination message)) eqn:He.
  - now destruct (processMessage_run inp trafficInfo attackIndex key position
                    message s Hwf He) as (_ & _ & _ & H & _).
  - unfold exec. now rewrite processMessage_dropped.
Qed.

Lemma keeps_wf_refl s : keeps_wf s s.
Proof. intros H. exact H. Qed.

Lemma keeps_wf_trans a b c : keeps_wf a b -> keeps_wf b c -> keeps_wf a c.
Proof. unfold keeps_wf. auto. Qed.

Lemma processQueue_wf inp trafficInfo attackIndex key queue : forall position,
  preserves keeps_wf (processQueue inp trafficInfo attackIndex key position queue).
Proof.
  induction queue as [|message rest IH]; intros position; simpl.
  - apply (preserves_ret _ keeps_wf_refl).
  - apply (preserves_bind _ keeps_wf_trans); [|intros _; apply IH].
    intros s Hwf. now apply processMessage_wf.
Qed.

Lemma runRound_wf inp : preserves keeps_wf (runRound inp).
Proof.
  unfold runRound, processQueues.
  apply (preserves_bind _ keeps_wf_trans);
    [apply preserves_modify; intros s H; exact H | intros _].
  apply (preserves_bind _ keeps_wf_trans).
  - intros s [Hc Hi]. destruct (generateTrafficQueues_topology inp s) as [Hg Hn].
    split; [now rewrite Hg|]. intros n. rewrite Hg, Hn. apply Hi.
  - intros r. apply (preserves_bind _ keeps_wf_trans);
      [apply preserves_modify; intros s H; exact H | intros _].
    apply (preserves_forM_ _ keeps_wf_refl keeps_wf_trans).
    intros kq. apply processQueue_wf.
Qed.

Lemma runGame_wf inputs : preserves keeps_wf (runGame inputs).
Proof.
  induction inputs as [|inp rest IH]; simpl.
  - apply (preserves_ret _ keeps_wf_refl).
  - apply (preserves_bind _ keeps_wf_trans);
      [apply (preserves_lift _ keeps_wf_refl) | intros s0].
    destruct (gameOver s0); [apply (preserves_ret _ keeps_wf_refl)|].
    apply (preserves_bind _ keeps_wf_trans); [apply runRound_wf | intros _; exact IH].
Qed.


(** Every state of a game is well-formed: the one [initializeNetwork]
    builds from a network file with at least one line, and the one any
    number of rounds leaves, whether the last round returned or raised. *)
Theorem game_states_wf lines sampleDraw inputs s :
  lines <> [] ->
  wf_state (exec (initializeNetwork lines sampleDraw) s) /\
  wf_state (exec (runGame inputs) (exec (initializeNetwork lines sampleDraw) s)).
Proof.
  intros Hlines.
  destruct (initializeNetwork_wf lines sampleDraw s Hlines) as (_ & Hwf & _).
  split; [exact Hwf|]. now apply runGame_wf.
Qed.

(** * Further properties of the engine *)

(** ** The network built by [initializeNetwork] *)

Lemma dict_get_dict_set {V} (d : list (Node * V)) k v n :
  dict_get (dict_set d k v) n = if String.eqb k n then Some v else dict_get d n.
Proof.
  induction d as [|[k' v'] d IH]; simpl.
  - reflexivity.
  - destruct (String.eqb k' k) eqn:E; simpl.
    + apply String.eqb_eq in E. subst k'. now destruct (String.eqb k n).
    + destruct (String.eqb k' n) eqn:E'.
      * apply String.eqb_eq in E'. subst k'.
        rewrite String.eqb_sym in E. now rewrite E.
      * apply IH.
Qed.

Lemma has_edge_add_edge_eq g u v a b :
  DiGraph.has_edge (DiGraph.add_edge g u v) a b =
  DiGraph.has_edge g a b || (String.eqb u a && String.eqb b v).
Proof.
  unfold DiGraph.add_edge. cbv zeta. unfold DiGraph.has_edge at 1.
  rewrite DiGraphFacts.adj_set_adj.
  destruct (String.eqb u a) eqn:E.
  - apply String.eqb_eq in E. subst a. rewrite andb_true_l.
    assert (Hn : DiGraph.has_node (DiGraph.add_node (DiGraph.add_node g u) v) u = true).
    { rewrite !BuildFacts.has_node_add_node, String.eqb_refl.
      now rewrite orb_true_r. }
    unfold DiGraph.has_node in Hn.
    destruct (DiGraph.adj (DiGraph.add_node (DiGraph.add_node g u) v) u)
      as [vs|] eqn:Ha; [|discriminate].
    assert (Hold : mem b vs = DiGraph.has_edge g u b).
    { rewrite <- (BuildFacts.has_edge_add_node g u u b),
        <- (BuildFacts.has_edge_add_node _ v u b).
      unfold DiGraph.has_edge. now rewrite Ha. }
    simpl. destruct (mem v vs) eqn:Hv.
    + rewrite Hold. destruct (String.eqb b v) eqn:Eb; [|now rewrite orb_false_r].
      apply String.eqb_eq in Eb. subst b. rewrite <- Hold, Hv. reflexivity.
    + rewrite mem_app, Hold. simpl. now rewrite orb_false_r.
  - rewrite andb_false_l, orb_false_r.
    change (DiGraph.has_edge (DiGraph.add_node (DiGraph.add_node g u) v) a b =
            DiGraph.has_edge g a b).
    now rewrite !BuildFacts.has_edge_add_node.
Qed.

Lemma nodes_add_node g n :
  DiGraph.nodes (DiGraph.add_node g n) =
  if DiGraph.has_node g n then DiGraph.nodes g else DiGraph.nodes g ++ [n].
Proof.
  unfold DiGraph.add_node. destruct (DiGraph.has_node g n); [reflexivity|].
  unfold DiGraph.nodes. now rewrite map_app.
Qed.

Lemma NoDup_add_node g n :
  NoDup (DiGraph.nodes g) -> NoDup (DiGraph.nodes (DiGraph.add_node g n)).
Proof.
  intros H. rewrite nodes_add_node.
  destruct (DiGraph.has_node g n) eqn:Hn; [assumption|].
  apply NoDup_app; [assumption | repeat constructor; intros [] |].
  intros x Hx [<-|[]]. apply DiGraphFacts.has_node_In in Hx. congruence.
Qed.

Lemma NoDup_add_edge g u v :
  NoDup (DiGraph.nodes g) -> NoDup (DiGraph.nodes (DiGraph.add_edge g u v)).
Proof.
  intros H. unfold DiGraph.add_edge. cbv zeta. rewrite DiGraphFacts.nodes_set_adj.
  now do 2 apply NoDup_add_node.
Qed.

Lemma addNetworkLine_colorMap s line n :
  (DiGraph.has_node (graph s) n = true ->
   dict_get (colorMap s) n = Some (COLOR_MAP NO_SUSPICION_LABEL)) ->
  DiGraph.has_node (graph (addNetworkLine s line)) n = true ->
  dict_get (colorMap (addNetworkLine s line)) n = Some (COLOR_MAP NO_SUSPICION_LABEL).
Proof.
  intros Hold. rewrite BuildFacts.addNetworkLine_graph, BuildFacts.has_node_add_edge,
    !BuildFacts.has_node_add_node.
  unfold addNetworkLine. cbv zeta.
  assert (Hsrc : forall t,
    (DiGraph.has_node (graph t) n = true ->
     dict_get (colorMap t) n = Some (COLOR_MAP NO_SUSPICION_LABEL)) ->
    forall k,
    DiGraph.has_node (graph t) n || String.eqb k n = true ->
    dict_get (colorMap (if DiGraph.has_node (graph t) k then t
                        else set_colorMap
                               (dict_set (colorMap t) k (COLOR_MAP NO_SUSPICION_LABEL))
                               (set_graph (DiGraph.add_node (graph t) k) t))) n
    = Some (COLOR_MAP NO_SUSPICION_LABEL)).
  { intros t Ht k Hk. destruct (DiGraph.has_node (graph t) k) eqn:Hn.
    - apply Ht. destruct (String.eqb k n) eqn:E.
      + apply String.eqb_eq in E. now subst.
      + now rewrite orb_false_r in Hk.
    - simpl. rewrite dict_get_dict_set. destruct (String.eqb k n); [reflexivity|].
      apply Ht. now rewrite orb_false_r in Hk. }
  intros Hn. simpl colorMap.
  apply Hsrc.
  - intros Hn1. rewrite BuildFacts.ensure_node_graph,
      BuildFacts.has_node_add_node in Hn1. now apply Hsrc.
  - rewrite BuildFacts.ensure_node_graph, BuildFacts.has_node_add_node.
    destruct (DiGraph.has_node (graph s) n), (String.eqb (fst line) n),
      (String.eqb (snd line) n); simpl in *; congruence.
Qed.

Lemma fold_addNetworkLine_graph lines : forall s,
  let s' := fold_left addNetworkLine lines s in
  (forall a b, DiGraph.has_edge (graph s') a b =
               DiGraph.has_edge (graph s) a b || existsb (line_is a b) lines) /\
  (forall n, DiGraph.has_node (graph s') n =
             DiGraph.has_node (graph s) n || existsb (line_has n) lines) /\
  (NoDup (DiGraph.nodes (graph s)) -> NoDup (DiGraph.nodes (graph s'))) /\
  ((forall n, DiGraph.has_node (graph s) n = true ->
              dict_get (colorMap s) n = Some (COLOR_MAP NO_SUSPICION_LABEL)) ->
   forall n, DiGraph.has_node (graph s') n = true ->
             dict_get (colorMap s') n = Some (COLOR_MAP NO_SUSPICION_LABEL)).
Proof.
  induction lines as [|line lines IH]; intros s; simpl.
  - repeat split; intros; rewrite ?orb_false_r; auto.
  - destruct (IH (addNetworkLine s line)) as (He & Hn & Hd & Hc).
    split; [|split; [|split]].
    + intros a b. rewrite He, BuildFacts.addNetworkLine_graph, has_edge_add_edge_eq,
        !BuildFacts.has_edge_add_node. unfold line_is at 2. now rewrite orb_assoc.
    + intros n. rewrite Hn, BuildFacts.addNetworkLine_graph,
        BuildFacts.has_node_add_edge, !BuildFacts.has_node_add_node.
      unfold line_has at 2.
      destruct (DiGraph.has_node (graph s) n), (String.eqb (fst line) n),
        (String.eqb (snd line) n); reflexivity.
    + intros H. apply Hd. rewrite BuildFacts.addNetworkLine_graph.
      apply NoDup_add_edge. now do 2 apply NoDup_add_node.
    + intros H. apply Hc. intros n. apply addNetworkLine_colorMap. apply H.
Qed.

Lemma initializeNetwork_cases lines sampleDraw s :
  let s1 := fold_left addNetworkLine lines (set_graph [] s) in
  match random.sample1 (DiGraph.nodes (graph s1)) sampleDraw with
  | Raise e => initializeNetwork lines sampleDraw s = (Raise e, s1)
  | Val infected =>
      match recomputeReachable (set_infectedNodes infected s1) with
      | Raise e =>
          initializeNetwork lines sampleDraw s = (Raise e, set_infectedNodes infected s1)
      | Val r =>
          initializeNetwork lines sampleDraw s =
          (Val tt, set_quarantinedNodes []
                     (set_reachableNodes r (set_infectedNodes infected s1)))
      end
  end.
Proof.
  intros s1. unfold initializeNetwork, bind, modify, lift. fold s1.
  destruct (random.sample1 (DiGraph.nodes (graph s1)) sampleDraw) as [infected|e];
    [|reflexivity].
  destruct (recomputeReachable (set_infectedNodes infected s1)); reflexivity.
Qed.

Lemma initializeNetwork_built lines sampleDraw s :
  graph (exec (initializeNetwork lines sampleDraw) s)
    = graph (fold_left addNetworkLine lines (set_graph [] s)) /\
  colorMap (exec (initializeNetwork lines sampleDraw) s)
    = colorMap (fold_left addNetworkLine lines (set_graph [] s)).
Proof.
  pose proof (initializeNetwork_cases lines sampleDraw s) as H. cbv zeta in H.
  unfold exec.
  destruct (random.sample1 _ sampleDraw) as [infected|e]; [|now rewrite H].
  destruct (recomputeReachable _); now rewrite H.
Qed.

Lemma line_is_true a b line : line_is a b line = true <-> line = (a, b).
Proof.
  unfold line_is. destruct line as [u v]. simpl. rewrite andb_true_iff, !String.eqb_eq.
  split; [intros [-> ->]; reflexivity | intros [= -> ->]; now split].
Qed.

Lemma line_has_true n line : line_has n line = true <-> fst line = n \/ snd line = n.
Proof. unfold line_has. now rewrite orb_true_iff, !String.eqb_eq. Qed.

(** On parsed lines: the graph [initializeNetwork] builds has exactly the
    parsed lines as edges and exactly their endpoints as nodes, each node
    once, every successor a node, and every node coloured as
    unsuspected. *)
Lemma initializeNetwork_graph (lines : list (Node * Node)) (sampleDraw : nat)
    (s : GameState) :
  let s' := exec (initializeNetwork lines sampleDraw) s in
  (forall a b, DiGraph.has_edge (graph s') a b = true <-> In (a, b) lines) /\
  (forall n, DiGraph.has_node (graph s') n = true <->
             exists line, In line lines /\ (fst line = n \/ snd line = n)) /\
  NoDup (DiGraph.nodes (graph s')) /\
  graph_closed (graph s') /\
  (forall n, DiGraph.has_node (graph s') n = true ->
             dict_get (colorMap s') n = Some "blue"%string).
Proof.
  intros s'. subst s'.
  destruct (initializeNetwork_built lines sampleDraw s) as [-> ->].
  destruct (fold_addNetworkLine_graph lines (set_graph [] s)) as (He & Hn & Hd & Hc).
  split; [|split; [|split; [|split]]].
  - intros a b. rewrite He. simpl. rewrite existsb_exists. split.
    + intros [line [Hin Hl]]. apply line_is_true in Hl. now subst.
    + intros Hin. exists (a, b). split; [assumption | now apply line_is_true].
  - intros n. rewrite Hn. simpl. rewrite existsb_exists. split.
    + intros [line [Hin Hl]]. exists line. split; [assumption | now apply line_has_true].
    + intros [line [Hin Hl]]. exists line. split; [assumption | now apply line_has_true].
  - apply Hd. constructor.
  - apply (BuildFacts.fold_addNetworkLine lines (set_graph [] s)).
    intros u v H. discriminate.
  - apply Hc. intros n H. discriminate.
Qed.

(** On parsed lines: [initializeNetwork] raises ValueError when there is
    no line (there is no node to infect) and returns otherwise, with one
    infected node, which is a node of the graph, no quarantined node and
    the reachability flags of that state. *)
Lemma initializeNetwork_outcome (lines : list (Node * Node)) (sampleDraw : nat)
    (s : GameState) :
  let s' := exec (initializeNetwork lines sampleDraw) s in
  match lines with
  | [] => result (initializeNetwork lines sampleDraw) s = Raise ValueError
  | _ :: _ =>
      result (initializeNetwork lines sampleDraw) s = Val tt /\
      (exists node, infectedNodes s' = [node] /\
                    DiGraph.has_node (graph s') node = true) /\
      quarantinedNodes s' = [] /\
      recomputeReachable s' = Val (reachableNodes s')
  end.
Proof.
  intros s'. destruct lines as [|line lines]; [reflexivity|].
  subst s'. set (ls := line :: lines).
  pose proof (initializeNetwork_cases ls sampleDraw s) as H. cbv zeta in H.
  destruct (BuildFacts.fold_addNetworkLine ls (set_graph [] s)) as (Hc & _ & Hne).
  { intros u v Hf. discriminate. }
  specialize (Hne ltac:(discriminate)).
  set (s1 := fold_left addNetworkLine ls (set_graph [] s)) in *.
  unfold random.sample1 in H.
  destruct (DiGraph.nodes (graph s1)) as [|x nodes] eqn:Hnodes; [congruence|].
  set (node := nth (Nat.modulo sampleDraw (List.length (x :: nodes))) (x :: nodes) x) in *.
  assert (Hin : DiGraph.has_node (graph s1) node = true).
  { apply DiGraphFacts.has_node_In. rewrite Hnodes. apply nth_In.
    apply Nat.mod_upper_bound. discriminate. }
  assert (Hwf : infected_in_graph (set_infectedNodes [node] s1))
    by (intros n [<-|[]]; exact Hin).
  destruct (recomputeReachable_returns _ Hwf) as [r Hr]. rewrite Hr in H.
  unfold exec, result. rewrite H. simpl fst. simpl snd.
  split; [reflexivity|]. split; [exists node; split; [reflexivity | exact Hin]|].
  split; [reflexivity | exact Hr].
Qed.

(** ** The invariant of the game *)

Lemma omap_ext {A B} (f g : A -> Outcome B) (l : list A) :
  (forall a, In a l -> f a = g a) -> omap f l = omap g l.
Proof.
  induction l as [|a l IH]; intros H; simpl; [reflexivity|].
  rewrite (H a (or_introl eq_refl)), IH; [reflexivity|].
  intros x Hx. apply H. now right.
Qed.

Lemma isReachable_same s s' node :
  graph s' = graph s -> infectedNodes s' = infectedNodes s ->
  isReachable s' node = isReachable s node.
Proof. intros Hg Hi. unfold isReachable. now rewrite Hg, Hi. Qed.

Lemma recomputeReachable_same s s' :
  graph s' = graph s -> infectedNodes s' = infectedNodes s ->
  recomputeReachable s' = recomputeReachable s.
Proof.
  intros Hg Hi. unfold recomputeReachable. rewrite Hg. apply omap_ext.
  intros node _. now rewrite (isReachable_same s s' node Hg Hi).
Qed.

Lemma game_inv_same s s' : same_world s s' -> game_inv s -> game_inv s'.
Proof.
  intros (Hg & Hi & Hq & Hr) ((Hc & Hin) & Hs & Hn & Hdi & Hdq & Hiso).
  unfold game_inv, wf_state, infected_in_graph, reach_synced, quarantined_isolated.
  rewrite (recomputeReachable_same s s' Hg Hi), Hg, Hi, Hq, Hr.
  repeat split; assumption.
Qed.

Lemma same_world_refl s : same_world s s.
Proof. repeat split. Qed.

Lemma same_world_trans a b c : same_world a b -> same_world b c -> same_world a c.
Proof.
  intros (G1 & I1 & Q1 & R1) (G2 & I2 & Q2 & R2). repeat split; congruence.
Qed.

Lemma generateTrafficQueues_world inp : preserves same_world (generateTrafficQueues inp).
Proof.
  unfold generateTrafficQueues.
  preserve same_world_refl same_world_trans;
    try (apply preserves_modify; intros s; now repeat split);
    intros s; now repeat split.
Qed.

Lemma updateNetwork_labelAction message label :
  updateNetwork message label =
  bind (modify (fun s =>
          set_colorMap (dict_set (colorMap s) (Message.origin message)
                          (COLOR_MAP label)) s))
    (fun _ => bind (labelAction message label)
       (fun _ => bind (lift recomputeReachable)
          (fun r => modify (set_reachableNodes r)))).
Proof. reflexivity. Qed.

Lemma labelAction_evolves message label : preserves evolves (labelAction message label).
Proof.
  unfold labelAction. destruct label; try apply quarantineNode_evolves;
    (destruct (Message.isMalicious message);
     [apply infectNode_evolves | apply (preserves_ret _ evolves_refl)]).
Qed.

Lemma labelAction_frame message label :
  preserves (update_frame (Message.destination message)) (labelAction message label).
Proof.
  unfold labelAction. destruct label; try apply quarantineNode_frame;
    (destruct (Message.isMalicious message);
     [apply infectNode_frame
     | apply (preserves_ret _ (update_frame_refl (Message.destination message)))]).
Qed.

Lemma labelAction_returns message label s :
  DiGraph.has_edge (graph s) (Message.origin message) (Message.destination message) = true ->
  result (labelAction message label) s = Val tt.
Proof.
  intros He. unfold labelAction, result. destruct label.
  - destruct (Message.isMalicious message); reflexivity.
  - destruct (Message.isMalicious message); reflexivity.
  - rewrite quarantineNode_other by discriminate. now rewrite He.
  - reflexivity.
Qed.

Lemma NoDup_snoc (l : list Node) (x : Node) :
  NoDup l -> mem x l = false -> NoDup (l ++ [x]).
Proof.
  intros Hl Hx. apply mem_false_In in Hx.
  apply NoDup_app; [assumption | repeat constructor; intros [] |].
  intros y Hy [<-|[]]. contradiction.
Qed.

(** What the label branch does to the lists and to the edges. *)
Lemma labelAction_lists message label s :
  DiGraph.has_edge (graph s) (Message.origin message) (Message.destination message) = true ->
  let st := exec (labelAction message label) s in
  DiGraph.nodes (graph st) = DiGraph.nodes (graph s) /\
  (NoDup (infectedNodes s) -> NoDup (infectedNodes st)) /\
  (NoDup (quarantinedNodes s) -> NoDup (quarantinedNodes st)) /\
  (quarantined_isolated s -> quarantined_isolated st).
Proof.
  intros He st.
  assert (Hn : DiGraph.has_node (graph s) (Message.origin message) = true).
  { unfold DiGraph.has_edge in He. unfold DiGraph.has_node.
    now destruct (DiGraph.adj (graph s) (Message.origin message)). }
  assert (Hsame : forall t, graph t = graph s -> infectedNodes t = infectedNodes s \/ True ->
            quarantinedNodes t = quarantinedNodes s ->
            quarantined_isolated s -> quarantined_isolated t).
  { intros t Hg _ Hq Hiso q v. rewrite Hq, Hg. apply Hiso. }
  subst st. unfold labelAction. destruct label.
  1, 2: destruct (Message.isMalicious message);
    [ unfold exec, infectNode, modify; simpl;
      destruct (mem (Message.destination message) (infectedNodes s)) eqn:Hm;
      [ now repeat split
      | repeat split; auto; simpl; intros Hd; now apply NoDup_snoc ]
    | now repeat split ].
  - unfold exec. rewrite quarantineNode_other by discriminate. rewrite He. simpl.
    split; [apply DiGraphFacts.nodes_set_adj|]. split; [auto|]. split; [auto|].
    intros Hiso q v Hq. simpl. rewrite DiGraphFacts.has_edge_del_succ.
    now rewrite (Hiso q v Hq).
  - split; [|split; [|split]].
    + unfold exec. rewrite quarantineNode_high. cbv zeta. simpl.
      rewrite graph_quarantined_step. apply DiGraphFacts.nodes_remove_edges_from.
    + unfold exec. rewrite quarantineNode_high. cbv zeta. simpl.
      now destruct (mem (Message.origin message) (quarantinedNodes s)).
    + unfold exec. rewrite quarantineNode_high. cbv zeta. simpl.
      destruct (mem (Message.origin message) (quarantinedNodes s)) eqn:Hm; simpl;
        [auto | intros Hd; now apply NoDup_snoc].
    + intros Hiso q v Hq.
      rewrite (has_edge_after_high s _ (Message.destination message) q v Hn).
      assert (Hlist : quarantinedNodes
                (exec (quarantineNode (Message.origin message)
                         (Message.destination message) HIGH_SUSPICION_LABEL) s) =
              if mem (Message.origin message) (quarantinedNodes s)
              then quarantinedNodes s
              else quarantinedNodes s ++ [Message.origin message]).
      { unfold exec. rewrite quarantineNode_high. cbv zeta. simpl.
        now destruct (mem (Message.origin message) (quarantinedNodes s)). }
      destruct (String.eqb q (Message.origin message)) eqn:E;
        [now rewrite andb_false_r|].
      rewrite andb_true_r. apply Hiso.
      rewrite Hlist in Hq.
      destruct (mem (Message.origin message) (quarantinedNodes s)); [assumption|].
      apply in_app_or in Hq. destruct Hq as [Hq|[<-|[]]]; [assumption|].
      now rewrite String.eqb_refl in E.
Qed.

Lemma updateNetwork_run message label s :
  wf_state s ->
  DiGraph.has_edge (graph s) (Message.origin message) (Message.destination message) = true ->
  let st := exec (labelAction message label)
              (set_colorMap (dict_set (colorMap s) (Message.origin message)
                               (COLOR_MAP label)) s) in
  exists r, recomputeReachable st = Val r /\
            updateNetwork message label s = (Val tt, set_reachableNodes r st).
Proof.
  intros Hwf He st.
  set (s1 := set_colorMap (dict_set (colorMap s) (Message.origin message)
                             (COLOR_MAP label)) s) in *.
  assert (Hd : DiGraph.has_node (graph s1) (Message.destination message) = true)
    by (eapply has_edge_has_node; [apply Hwf | exact He]).
  assert (Hwf1 : wf_state s1) by exact Hwf.
  assert (Hwfst : wf_state st).
  { destruct (labelAction_frame message label s1) as (Hn & Ho & _).
    eapply wf_state_step; eauto. apply labelAction_evolves. }
  destruct (recomputeReachable_returns st (proj2 Hwfst)) as [r Hr].
  exists r. split; [exact Hr|].
  pose proof (labelAction_returns message label s1 He) as Hret.
  rewrite updateNetwork_labelAction. unfold bind at 1. unfold modify at 1.
  fold s1. unfold bind at 1. subst st. unfold exec, result in *.
  destruct (labelAction message label s1) as [[[]|e] st]; [|discriminate].
  simpl in Hr. unfold bind, lift, modify. now rewrite Hr.
Qed.

Lemma processMessage_inv inp trafficInfo attackIndex key position message s :
  game_inv s ->
  game_inv (exec (processMessage inp trafficInfo attackIndex key position message) s).
Proof.
  intros Hinv.
  destruct (DiGraph.has_edge (graph s) (Message.origin message)
              (Message.destination message)) eqn:He.
  2: { unfold exec. now rewrite processMessage_dropped. }
  destruct Hinv as (Hwf & Hs & Hn & Hdi & Hdq & Hiso).
  set (label := if skipDraw inp key position then NO_SUSPICION_LABEL
                else inspect inp key position).
  destruct (calculateScore_returns s message label (proj1 Hwf) He) as [score Hscore].
  destruct (updateNetwork_run message label s Hwf He) as (r & Hr & Hup).
  set (s1 := set_colorMap (dict_set (colorMap s) (Message.origin message)
                             (COLOR_MAP label)) s) in *.
  set (st := exec (labelAction message label) s1) in *.
  unfold exec.
  rewrite (processMessage_eq inp trafficInfo attackIndex key position message s score
             (set_reachableNodes r st) He Hscore Hup).
  assert (Hst : game_inv (set_reachableNodes r st)).
  { destruct (labelAction_lists message label s1 He) as (Hnodes & Hi' & Hq' & Hiso').
    fold st in Hnodes, Hi', Hq', Hiso'.
    assert (Hwfst : wf_state st).
    { assert (Hd : DiGraph.has_node (graph s1) (Message.destination message) = true)
        by (eapply has_edge_has_node; [apply Hwf | exact He]).
      destruct (labelAction_frame message label s1) as (Hn' & Ho & _).
      exact (wf_state_step (Message.destination message) s1 st Hwf Hd
               (labelAction_evolves message label s1) Hn' Ho). }
    split; [exact Hwfst|]. split; [exact Hr|]. split; [simpl; now rewrite Hnodes|].
    split; [now apply Hi'|]. split; [now apply Hq' | now apply Hiso']. }
  cbv zeta. simpl snd.
  eapply game_inv_same; [|exact Hst].
  destruct (skipDraw inp key position), (Message.isMalicious message);
    now repeat split.
Qed.

Lemma keeps_inv_refl s : keeps_inv s s.
Proof. intros H. exact H. Qed.

Lemma keeps_inv_trans a b c : keeps_inv a b -> keeps_inv b c -> keeps_inv a c.
Proof. unfold keeps_inv. auto. Qed.

Lemma processQueue_inv inp trafficInfo attackIndex key queue : forall position,
  preserves keeps_inv (processQueue inp trafficInfo attackIndex key position queue).
Proof.
  induction queue as [|message rest IH]; intros position; simpl.
  - apply (preserves_ret _ keeps_inv_refl).
  - apply (preserves_bind _ keeps_inv_trans); [|intros _; apply IH].
    intros s H. now apply processMessage_inv.
Qed.

Lemma runRound_inv inp : preserves keeps_inv (runRound inp).
Proof.
  unfold runRound, processQueues.
  apply (preserves_bind _ keeps_inv_trans).
  { apply preserves_modify. intros s H.
    eapply game_inv_same; [|exact H]. now repeat split. }
  intros _. apply (preserves_bind _ keeps_inv_trans).
  { intros s H. eapply game_inv_same; [apply generateTrafficQueues_world | exact H]. }
  intros r. apply (preserves_bind _ keeps_inv_trans).
  { apply preserves_modify. intros s H.
    eapply game_inv_same; [|exact H]. now repeat split. }
  intros _. apply (preserves_forM_ _ keeps_inv_refl keeps_inv_trans).
  intros kq. apply processQueue_inv.
Qed.

Lemma runGame_inv inputs : preserves keeps_inv (runGame inputs).
Proof.
  induction inputs as [|inp rest IH]; simpl.
  - apply (preserves_ret _ keeps_inv_refl).
  - apply (preserves_bind _ keeps_inv_trans);
      [apply (preserves_lift _ keeps_inv_refl) | intros s0].
    destruct (gameOver s0); [apply (preserves_ret _ keeps_inv_refl)|].
    apply (preserves_bind _ keeps_inv_trans); [apply runRound_inv | intros _; exact IH].
Qed.

Lemma initializeNetwork_inv line lines sampleDraw s :
  game_inv (exec (initializeNetwork (line :: lines) sampleDraw) s).
Proof.
  pose proof (initializeNetwork_wf (line :: lines) sampleDraw s ltac:(discriminate))
    as (_ & Hwf & [node Hnode] & Hq).
  cbv zeta in Hwf, Hnode, Hq.
  assert (Hgraph : NoDup (DiGraph.nodes
            (graph (exec (initializeNetwork (line :: lines) sampleDraw) s)))).
  { destruct (initializeNetwork_built (line :: lines) sampleDraw s) as [-> _].
    apply (fold_addNetworkLine_graph (line :: lines) (set_graph [] s)). constructor. }
  assert (Hsync : reach_synced (exec (initializeNetwork (line :: lines) sampleDraw) s)).
  { pose proof (initializeNetwork_cases (line :: lines) sampleDraw s) as H.
    cbv zeta in H. unfold reach_synced, exec.
    destruct (random.sample1 _ sampleDraw) as [infected|e].
    - destruct (recomputeReachable (set_infectedNodes infected _)) as [r|e] eqn:Hr.
      + rewrite H. exact Hr.
      + exfalso. pose proof (initializeNetwork_wf (line :: lines) sampleDraw s
                               ltac:(discriminate)) as (Hres & _).
        unfold result in Hres. rewrite H in Hres. discriminate.
    - exfalso. pose proof (initializeNetwork_wf (line :: lines) sampleDraw s
                             ltac:(discriminate)) as (Hres & _).
      unfold result in Hres. rewrite H in Hres. discriminate. }
  split; [exact Hwf|]. split; [exact Hsync|]. split; [exact Hgraph|].
  rewrite Hnode, Hq. split; [apply NoDup_cons; [intros [] | constructor]|].
  split; [constructor|]. intros q v Hin. rewrite Hq in Hin. destruct Hin.
Qed.

(** Any state of a game: after [initializeNetwork] on a network file with
    at least one line and any number of rounds. *)
Lemma game_inv_game line lines sampleDraw inputs s :
  game_inv (exec (runGame inputs) (exec (initializeNetwork (line :: lines) sampleDraw) s)).
Proof. apply runGame_inv. apply initializeNetwork_inv. Qed.

(** ** Quarantined nodes *)

(** X3. In every state of a game (after [initializeNetwork] on a network
    file with at least one line and any number of rounds) a quarantined
    node has no outgoing edge, no node is quarantined twice, and a message
    sent by a quarantined node is dropped: processing it returns and
    leaves the state as it is. *)
Theorem quarantined_nodes_cut_off (line : Node * Node) (lines : list (Node * Node))
    (sampleDraw : nat) (inputs : list RoundInput) (s : GameState) :
  let s' := exec (runGame inputs)
              (exec (initializeNetwork (line :: lines) sampleDraw) s) in
  NoDup (quarantinedNodes s') /\
  (forall q v, In q (quarantinedNodes s') -> DiGraph.has_edge (graph s') q v = false) /\
  (forall inp trafficInfo attackIndex key position message,
     In (Message.origin message) (quarantinedNodes s') ->
     processMessage inp trafficInfo attackIndex key position message s' = (Val tt, s')).
Proof.
  intros s'.
  destruct (game_inv_game line lines sampleDraw inputs s)
    as (_ & _ & _ & _ & Hdq & Hiso).
  fold s' in Hdq, Hiso. split; [exact Hdq|]. split; [exact Hiso|].
  intros inp ti idx key pos message Hq. apply processMessage_dropped.
  now apply Hiso.
Qed.

(** ** The end of the game *)

Lemma omap_Forall2 {A B} (f : A -> Outcome B) (l : list A) : forall bs,
  omap f l = Val bs -> Forall2 (fun a b => f a = Val b) l bs.
Proof.
  induction l as [|a l IH]; simpl; intros bs H.
  - injection H as <-. constructor.
  - destruct (f a) as [b|e] eqn:Hf; [|discriminate]. simpl in H.
    destruct (omap f l) as [bs'|e]; [|discriminate]. simpl in H.
    injection H as <-. constructor; [assumption | now apply IH].
Qed.

Lemma gameOver_flags s :
  reach_synced s ->
  (gameOver s = true <->
   forall node, In node (DiGraph.nodes (graph s)) -> isReachable s node = Val false).
Proof.
  unfold reach_synced, recomputeReachable, gameOver. intros H.
  apply omap_Forall2 in H. rewrite negb_true_iff.
  induction H as [|node z nodes zs Hz _ IH]; simpl.
  - split; [intros _ node [] | reflexivity].
  - destruct (isReachable s node) as [b|e] eqn:Hb; [|discriminate].
    simpl in Hz. injection Hz as <-. rewrite orb_false_iff, IH. split.
    + intros [H0 Hrest] n [<-|Hn]; [|now apply Hrest].
      destruct b; [discriminate | assumption].
    + intros Hall. split; [|intros n Hn; apply Hall; now right].
      specialize (Hall node (or_introl eq_refl)). rewrite Hb in Hall.
      injection Hall as ->. reflexivity.
Qed.

Lemma gameOver_closed s :
  wf_state s -> reach_synced s ->
  (gameOver s = true <->
   forall i n, In i (infectedNodes s) -> DiGraph.has_edge (graph s) i n = true ->
               In n (infectedNodes s)).
Proof.
  intros [Hc Hi] Hs. rewrite (gameOver_flags s Hs). split.
  - intros Hall i n Hin He.
    assert (Hn : In n (DiGraph.nodes (graph s)))
      by (apply DiGraphFacts.has_node_In; eapply Hc; eassumption).
    specialize (Hall n Hn).
    destruct (isReachable_spec s n Hi) as (_ & Hiff & _).
    destruct (mem n (infectedNodes s)) eqn:Hm; [now apply mem_In|].
    apply mem_false_In in Hm.
    assert (Ht : isReachable s n = Val true)
      by (apply Hiff; split; [assumption | now exists i]).
    congruence.
  - intros Hclosed node _.
    destruct (isReachable_spec s node Hi) as ([b Hb] & Hiff & _).
    destruct b; [|assumption].
    apply Hiff in Hb. destruct Hb as [Hnot [i [Hin He]]].
    exfalso. apply Hnot. eapply Hclosed; eassumption.
Qed.

(** X4. In every state of a game [reachableNodes] holds the reachability
    of every node of the graph, in node order, and [gameOver] answers true
    exactly when every successor of an infected node is infected: the
    attacker has no uninfected node left to reach. *)
Theorem gameOver_iff_infection_closed (line : Node * Node) (lines : list (Node * Node))
    (sampleDraw : nat) (inputs : list RoundInput) (s : GameState) :
  let s' := exec (runGame inputs)
              (exec (initializeNetwork (line :: lines) sampleDraw) s) in
  recomputeReachable s' = Val (reachableNodes s') /\
  List.length (reachableNodes s') = List.length (DiGraph.nodes (graph s')) /\
  (gameOver s' = true <->
   forall i n, In i (infectedNodes s') -> DiGraph.has_edge (graph s') i n = true ->
               In n (infectedNodes s')).
Proof.
  intros s'.
  destruct (game_inv_game line lines sampleDraw inputs s) as (Hwf & Hs & _).
  fold s' in Hwf, Hs. split; [exact Hs|]. split.
  - apply omap_length in Hs. exact Hs.
  - now apply gameOver_closed.
Qed.

(** ** What one message does to the network *)

(** The label branch of [updateNetwork], field by field. *)
Lemma labelAction_effect message label s :
  DiGraph.has_edge (graph s) (Message.origin message) (Message.destination message) = true ->
  let st := exec (labelAction message label) s in
  colorMap st = colorMap s /\
  infectedNodes st =
    (if match label with
        | NO_SUSPICION_LABEL | LOW_SUSPICION_LABEL => Message.isMalicious message
        | _ => false
        end && negb (mem (Message.destination message) (infectedNodes s))
     then infectedNodes s ++ [Message.destination message]
     else infectedNodes s) /\
  quarantinedNodes st =
    (match label with
     | HIGH_SUSPICION_LABEL =>
         if mem (Message.origin message) (quarantinedNodes s)
         then quarantinedNodes s
         else quarantinedNodes s ++ [Message.origin message]
     | _ => quarantinedNodes s
     end) /\
  (forall u v,
     DiGraph.has_edge (graph st) u v =
     DiGraph.has_edge (graph s) u v &&
     match label with
     | HIGH_SUSPICION_LABEL => negb (String.eqb u (Message.origin message))
     | MEDIUM_SUSPICION_LABEL =>
         negb (String.eqb (Message.origin message) u &&
               String.eqb v (Message.destination message))
     | _ => true
     end).
Proof.
  intros He st.
  assert (Hn : DiGraph.has_node (graph s) (Message.origin message) = true).
  { unfold DiGraph.has_edge in He. unfold DiGraph.has_node.
    now destruct (DiGraph.adj (graph s) (Message.origin message)). }
  subst st. unfold labelAction. destruct label.
  1, 2: destruct (Message.isMalicious message);
    [ unfold exec, infectNode, modify; simpl;
      destruct (mem (Message.destination message) (infectedNodes s)); simpl;
      repeat split; intros; now rewrite andb_true_r
    | unfold exec, ret; simpl; repeat split; intros; now rewrite andb_true_r ].
  - unfold exec. rewrite quarantineNode_other by discriminate. rewrite He. simpl.
    repeat split. intros u v. apply DiGraphFacts.has_edge_del_succ.
  - split; [|split; [|split]].
    + unfold exec. rewrite quarantineNode_high. cbv zeta. simpl.
      now destruct (mem (Message.origin message) (quarantinedNodes s)).
    + unfold exec. rewrite quarantineNode_high. cbv zeta. simpl.
      now destruct (mem (Message.origin message) (quarantinedNodes s)).
    + unfold exec. rewrite quarantineNode_high. cbv zeta. simpl.
      now destruct (mem (Message.origin message) (quarantinedNodes s)).
    + intros u v. now apply has_edge_after_high.
Qed.

(** The state a processed message leaves: the network is the one its
    label branch leaves, with the reachability flags recomputed. *)
Lemma processMessage_fields inp trafficInfo attackIndex key position message s :
  wf_state s ->
  DiGraph.has_edge (graph s) (Message.origin message) (Message.destination message) = true ->
  let label := if skipDraw inp key position then NO_SUSPICION_LABEL
               else inspect inp key position in
  let st := exec (labelAction message label)
              (set_colorMap (dict_set (colorMap s) (Message.origin message)
                               (COLOR_MAP label)) s) in
  let s' := exec (processMessage inp trafficInfo attackIndex key position message) s in
  result (processMessage inp trafficInfo attackIndex key position message) s = Val tt /\
  graph s' = graph st /\ colorMap s' = colorMap st /\
  infectedNodes s' = infectedNodes st /\ quarantinedNodes s' = quarantinedNodes st /\
  recomputeReachable st = Val (reachableNodes s') /\
  roundNumber s' = roundNumber st /\ dataset s' = dataset st.
Proof.
  intros Hwf He label st s'.
  destruct (calculateScore_returns s message label (proj1 Hwf) He) as [score Hscore].
  destruct (updateNetwork_run message label s Hwf He) as (r & Hr & Hup).
  fold st in Hr, Hup. subst s'. unfold exec, result.
  rewrite (processMessage_eq inp trafficInfo attackIndex key position message s score
             (set_reachableNodes r st) He Hscore Hup).
  cbv zeta. simpl fst. simpl snd.
  destruct (skipDraw inp key position), (Message.isMalicious message);
    simpl; repeat split; exact Hr.
Qed.

(** X5. A message whose edge is in the graph is processed without an
    exception on a well-formed state, and it infects its destination
    exactly when it is malicious and its label is NO or LOW suspicion (a
    message that skipped inspection has the NO label): the destination is
    then appended to [infectedNodes] unless it is there already.  A benign
    message, or a malicious one labelled MEDIUM or HIGH, infects nothing. *)
Theorem message_infection_rule (inp : RoundInput) (trafficInfo : TrafficInfo)
    (attackIndex : Z) (key : Node) (position : nat) (message : Message.t)
    (s : GameState) :
  wf_state s ->
  DiGraph.has_edge (graph s) (Message.origin message) (Message.destination message) = true ->
  let label := if skipDraw inp key position then NO_SUSPICION_LABEL
               else inspect inp key position in
  let s' := exec (processMessage inp trafficInfo attackIndex key position message) s in
  result (processMessage inp trafficInfo attackIndex key position message) s = Val tt /\
  infectedNodes s' =
    (if match label with
        | NO_SUSPICION_LABEL | LOW_SUSPICION_LABEL => Message.isMalicious message
        | _ => false
        end && negb (mem (Message.destination message) (infectedNodes s))
     then infectedNodes s ++ [Message.destination message]
     else infectedNodes s).
Proof.
  intros Hwf He label s'.
  destruct (processMessage_fields inp trafficInfo attackIndex key position message s Hwf He)
    as (Hres & _ & _ & Hi & _).
  split; [exact Hres|]. subst s'. rewrite Hi.
  set (s1 := set_colorMap (dict_set (colorMap s) (Message.origin message)
                             (COLOR_MAP label)) s).
  destruct (labelAction_effect message label s1 He) as (_ & Hinf & _).
  exact Hinf.
Qed.

Lemma message_infection_rule_witness :
  wf_state (Scenario.chain Scenario.rows2) /\
  DiGraph.has_edge (graph (Scenario.chain Scenario.rows2)) "A"%string "B"%string = true /\
  infectedNodes (Scenario.chain Scenario.rows2) = ["A"%string] /\
  infectedNodes
    (exec (processMessage Scenario.quiet [] 1 "B"%string 0 Scenario.attackAB)
       (Scenario.chain Scenario.rows2)) = ["A"%string; "B"%string] /\
  infectedNodes
    (exec (processMessage (Scenario.labelling MEDIUM_SUSPICION_LABEL) [] 1 "B"%string 0
             Scenario.attackAB)
       (Scenario.chain Scenario.rows2)) = ["A"%string].
Proof.
  split; [apply chain_wf|]. split; [reflexivity|]. split; [reflexivity|]. split.
  - exact (proj2 (message_infection_rule Scenario.quiet [] 1 "B"%string 0%nat
                    Scenario.attackAB (Scenario.chain Scenario.rows2)
                    (chain_wf _) eq_refl)).
  - exact (proj2 (message_infection_rule (Scenario.labelling MEDIUM_SUSPICION_LABEL)
                    [] 1 "B"%string 0%nat
                    Scenario.attackAB (Scenario.chain Scenario.rows2)
                    (chain_wf _) eq_refl)).
Defined.

(** X6. Processing a message whose edge is in the graph recolours its
    origin with the colour of the label and no other node; a HIGH label
    removes every edge that leaves the origin and records the origin in
    [quarantinedNodes] (once), a MEDIUM label removes the edge of the
    message only, a NO or LOW label removes no edge; the nodes of the
    graph stay as they are. *)
Theorem message_marks_origin (inp : RoundInput) (trafficInfo : TrafficInfo)
    (attackIndex : Z) (key : Node) (position : nat) (message : Message.t)
    (s : GameState) :
  wf_state s ->
  DiGraph.has_edge (graph s) (Message.origin message) (Message.destination message) = true ->
  let label := if skipDraw inp key position then NO_SUSPICION_LABEL
               else inspect inp key position in
  let s' := exec (processMessage inp trafficInfo attackIndex key position message) s in
  (forall n, dict_get (colorMap s') n =
             if String.eqb (Message.origin message) n then Some (COLOR_MAP label)
             else dict_get (colorMap s) n) /\
  quarantinedNodes s' =
    (match label with
     | HIGH_SUSPICION_LABEL =>
         if mem (Message.origin message) (quarantinedNodes s)
         then quarantinedNodes s
         else quarantinedNodes s ++ [Message.origin message]
     | _ => quarantinedNodes s
     end) /\
  (forall u v,
     DiGraph.has_edge (graph s') u v =
     DiGraph.has_edge (graph s) u v &&
     match label with
     | HIGH_SUSPICION_LABEL => negb (String.eqb u (Message.origin message))
     | MEDIUM_SUSPICION_LABEL =>
         negb (String.eqb (Message.origin message) u &&
               String.eqb v (Message.destination message))
     | _ => true
     end) /\
  DiGraph.nodes (graph s') = DiGraph.nodes (graph s).
Proof.
  intros Hwf He label s'.
  pose proof (processMessage_fields inp trafficInfo attackIndex key position message s
                Hwf He) as H.
  cbv zeta in H. fold label in H.
  set (s1 := set_colorMap (dict_set (colorMap s) (Message.origin message)
                             (COLOR_MAP label)) s) in *.
  destruct H as (_ & Hg & Hc & _ & Hq & _).
  subst s'. rewrite Hg, Hc, Hq.
  destruct (labelAction_effect message label s1 He) as (Hcol & _ & Hquar & Hedge).
  destruct (labelAction_lists message label s1 He) as (Hnodes & _).
  split; [|split; [|split]].
  - intros n. rewrite Hcol. apply dict_get_dict_set.
  - exact Hquar.
  - exact Hedge.
  - exact Hnodes.
Qed.

Lemma message_marks_origin_witness :
  let s := Scenario.chain Scenario.rows2 in
  let s' := exec (processMessage (Scenario.labelling HIGH_SUSPICION_LABEL) [] 1
                    "B"%string 0 Scenario.attackAB) s in
  wf_state s /\
  DiGraph.has_edge (graph s) "A"%string "B"%string = true /\
  dict_get (colorMap s') "A"%string = Some "red"%string /\
  dict_get (colorMap s') "B"%string = Some "blue"%string /\
  quarantinedNodes s' = ["A"%string] /\
  DiGraph.has_edge (graph s') "A"%string "B"%string = false /\
  DiGraph.has_edge (graph s') "B"%string "C"%string = true.
Proof.
  intros s s'.
  destruct (message_marks_origin (Scenario.labelling HIGH_SUSPICION_LABEL) [] 1
              "B"%string 0%nat Scenario.attackAB s (chain_wf _) eq_refl)
    as (Hcol & Hq & Hedge & _).
  split; [apply chain_wf|]. split; [reflexivity|].
  split; [exact (Hcol "A"%string)|]. split; [exact (Hcol "B"%string)|].
  split; [exact Hq|].
  split; [exact (Hedge "A"%string "B"%string) | exact (Hedge "B"%string "C"%string)].
Defined.

(** ** Frames of a round

    A relation kept by every field update of a round is kept by the
    round and by the game. *)

Section GameSteps.
Variable R : GameState -> GameState -> Prop.
Hypothesis R_refl : forall s, R s s.
Hypothesis R_trans : forall a b c, R a b -> R b c -> R a c.
Hypothesis R_round : forall n s, R s (set_roundNumber n s).
Hypothesis R_score : forall r s, R s (set_lastAttackerScore r s).
Hypothesis R_traffic : forall t s, R s (set_traffic t s).
Hypothesis R_attack : forall m s, R s (set_attackMessage m s).
Hypothesis R_reach : forall r s, R s (set_reachableNodes r s).
Hypothesis R_attacker : forall a s, R s (set_attacker a s).
Hypothesis R_defender : forall d s, R s (set_defender d s).
Hypothesis R_colour : forall k v s, R s (set_colorMap (dict_set (colorMap s) k v) s).
Hypothesis R_infect : forall d, preserves R (infectNode d).
Hypothesis R_quarantine : forall o d l, preserves R (quarantineNode o d l).

Lemma steps_updateNetwork message label : preserves R (updateNetwork message label).
Proof.
  unfold updateNetwork.
  apply (preserves_bind _ R_trans);
    [apply preserves_modify; intros s; apply R_colour | intros _].
  apply (preserves_bind _ R_trans).
  - destruct label; try apply R_quarantine;
      (destruct (Message.isMalicious message);
       [apply R_infect | apply (preserves_ret _ R_refl)]).
  - intros _. apply (preserves_bind _ R_trans);
      [apply (preserves_lift _ R_refl) | intros r].
    apply preserves_modify. intros s. apply R_reach.
Qed.

Lemma steps_processMessage inp trafficInfo attackIndex key position message :
  preserves R (processMessage inp trafficInfo attackIndex key position message).
Proof.
  unfold processMessage.
  apply (preserves_bind _ R_trans); [apply (preserves_lift _ R_refl) | intros s0].
  destruct (negb _); [apply (preserves_ret _ R_refl)|].
  apply (preserves_bind _ R_trans); [apply (preserves_lift _ R_refl) | intros score].
  apply (preserves_bind _ R_trans); [apply steps_updateNetwork | intros _].
  apply (preserves_bind _ R_trans).
  - destruct (negb _); [|apply (preserves_ret _ R_refl)].
    intros s. apply R_defender.
  - intros _. destruct (Message.isMalicious message); [|apply (preserves_ret _ R_refl)].
    apply (preserves_bind _ R_trans); [intros s; apply R_attacker | intros _].
    apply preserves_modify. intros s. apply R_score.
Qed.

Lemma steps_processQueue inp trafficInfo attackIndex key queue : forall position,
  preserves R (processQueue inp trafficInfo attackIndex key position queue).
Proof.
  induction queue as [|message rest IH]; intros position; simpl.
  - apply (preserves_ret _ R_refl).
  - apply (preserves_bind _ R_trans); [apply steps_processMessage | intros _; apply IH].
Qed.

Lemma steps_processQueues inp trafficInfo attackIndex queues :
  preserves R (processQueues inp trafficInfo attackIndex queues).
Proof.
  unfold processQueues. apply (preserves_forM_ _ R_refl R_trans).
  intros kq. apply steps_processQueue.
Qed.

Lemma steps_generateTrafficQueues inp : preserves R (generateTrafficQueues inp).
Proof.
  unfold generateTrafficQueues.
  preserve R_refl R_trans;
    try (apply preserves_modify; intros s; first [apply R_traffic | apply R_attack]);
    intros s; apply R_attacker.
Qed.

Lemma steps_runRound inp : preserves R (runRound inp).
Proof.
  unfold runRound.
  apply (preserves_bind _ R_trans);
    [apply preserves_modify; intros s; apply R_round | intros _].
  apply (preserves_bind _ R_trans); [apply steps_generateTrafficQueues | intros r].
  apply (preserves_bind _ R_trans);
    [apply preserves_modify; intros s; apply R_score | intros _].
  apply steps_processQueues.
Qed.

Lemma steps_runGame inputs : preserves R (runGame inputs).
Proof.
  induction inputs as [|inp rest IH]; simpl.
  - apply (preserves_ret _ R_refl).
  - apply (preserves_bind _ R_trans); [apply (preserves_lift _ R_refl) | intros s0].
    destruct (gameOver s0); [apply (preserves_ret _ R_refl)|].
    apply (preserves_bind _ R_trans); [apply steps_runRound | intros _; exact IH].
Qed.
End GameSteps.

Lemma quarantineNode_fields origin destination label s :
  let s' := exec (quarantineNode origin destination label) s in
  colorMap s' = colorMap s /\ dataset s' = dataset s /\
  roundNumber s' = roundNumber s /\
  DiGraph.nodes (graph s') = DiGraph.nodes (graph s).
Proof.
  destruct label.
  4: { unfold exec. rewrite quarantineNode_high. cbv zeta. simpl.
       rewrite DiGraphFacts.nodes_remove_edges_from.
       now destruct (mem origin (quarantinedNodes s)). }
  all: unfold exec; rewrite quarantineNode_other by discriminate;
    destruct (DiGraph.has_edge (graph s) origin destination); simpl;
    repeat split; apply DiGraphFacts.nodes_set_adj.
Qed.

Lemma infectNode_fields destination s :
  let s' := exec (infectNode destination) s in
  colorMap s' = colorMap s /\ dataset s' = dataset s /\
  roundNumber s' = roundNumber s /\ graph s' = graph s.
Proof.
  unfold exec, infectNode, modify. simpl.
  now destruct (mem destination (infectedNodes s)).
Qed.

(** *** The colours *)

Lemma colours_kept_refl s : colours_kept s s.
Proof. split; [apply same_nodes_refl | auto]. Qed.

Lemma colours_kept_trans a b c :
  colours_kept a b -> colours_kept b c -> colours_kept a c.
Proof.
  intros [N1 C1] [N2 C2]. split; [eapply same_nodes_trans; eassumption | auto].
Qed.

Lemma colours_kept_same s s' :
  graph s' = graph s -> colorMap s' = colorMap s -> colours_kept s s'.
Proof.
  intros Hg Hc. split; [intros n; now rewrite Hg | intros n; now rewrite Hc].
Qed.

Lemma runGame_colours inputs : preserves colours_kept (runGame inputs).
Proof.
  apply (steps_runGame _ colours_kept_refl colours_kept_trans);
    try (intros; now apply colours_kept_same).
  - intros k v s. split; [intros n; reflexivity|].
    intros n Hn. simpl. rewrite dict_get_dict_set.
    destruct (String.eqb k n); [discriminate | assumption].
  - intros d s. destruct (infectNode_fields d s) as (Hc & _ & _ & Hg).
    now apply colours_kept_same.
  - intros o d l s. split.
    + now destruct (quarantineNode_frame d o d l s) as (Hn & _).
    + destruct (quarantineNode_fields o d l s) as (Hc & _). intros n. now rewrite Hc.
Qed.

Lemma colours_cover_kept s s' : colours_kept s s' -> colours_cover s -> colours_cover s'.
Proof. intros [Hn Hc] H n Hn'. apply Hc, H. now rewrite <- Hn. Qed.

Lemma initializeNetwork_colours lines sampleDraw s :
  colours_cover (exec (initializeNetwork lines sampleDraw) s).
Proof.
  intros n. destruct (initializeNetwork_built lines sampleDraw s) as [-> ->].
  destruct (fold_addNetworkLine_graph lines (set_graph [] s)) as (_ & _ & _ & Hc).
  intros Hn. rewrite (Hc (fun m H => ltac:(discriminate H)) n Hn). discriminate.
Qed.

Lemma nodeColors_returns s l :
  (forall n, In n l -> dict_get (colorMap s) n <> None) ->
  exists colors, nodeColors s l = Val colors /\ List.length colors = List.length l.
Proof.
  intros H. unfold nodeColors.
  match goal with |- context [omap ?f l] =>
    destruct (omap_total f l) as [colors Hc] end.
  - intros n Hn. specialize (H n Hn).
    destruct (dict_get (colorMap s) n) as [c|]; [now exists c | congruence].
  - exists colors. split; [exact Hc | eapply omap_length; exact Hc].
Qed.

(** X7. In every state of a game every node of the graph has a colour, so
    the two colour lists of [displayGraph] are built without a KeyError:
    one colour per infected node and one per node of the graph, as many as
    the node sizes it draws with. *)
Theorem displayGraph_colours (line : Node * Node) (lines : list (Node * Node))
    (sampleDraw : nat) (inputs : list RoundInput) (s : GameState) :
  let s' := exec (runGame inputs)
              (exec (initializeNetwork (line :: lines) sampleDraw) s) in
  (forall n, DiGraph.has_node (graph s') n = true -> dict_get (colorMap s') n <> None) /\
  (exists colors, infectedColorMap s' = Val colors /\
                  List.length colors = List.length (infectedNodes s')) /\
  (exists colors, notInfectedColorMap s' = Val colors /\
                  List.length colors = List.length (nodeSizes s')).
Proof.
  intros s'.
  assert (Hcover : colours_cover s').
  { eapply colours_cover_kept; [apply runGame_colours|].
    apply initializeNetwork_colours. }
  destruct (game_inv_game line lines sampleDraw inputs s) as ((_ & Hi) & _).
  fold s' in Hi. split; [exact Hcover|]. split.
  - apply nodeColors_returns. intros n Hn. apply Hcover. now apply Hi.
  - unfold nodeSizes. rewrite length_map. apply nodeColors_returns.
    intros n Hn. apply Hcover. now apply DiGraphFacts.has_node_In.
Qed.

(** *** The round counter *)

Lemma same_round_refl s : same_round s s.
Proof. reflexivity. Qed.

Lemma same_round_trans a b c : same_round a b -> same_round b c -> same_round a c.
Proof. unfold same_round. congruence. Qed.

Lemma runRound_roundNumber inp s :
  roundNumber (exec (runRound inp) s) = roundNumber s + 1.
Proof.
  unfold runRound. rewrite exec_bind.
  change (result (modify (fun s0 => set_roundNumber (roundNumber s0 + 1) s0)) s)
    with (@Val unit tt).
  change (exec (modify (fun s0 => set_roundNumber (roundNumber s0 + 1) s0)) s)
    with (set_roundNumber (roundNumber s + 1) s).
  cbv beta iota.
  match goal with |- roundNumber (exec ?c ?s1) = _ =>
    assert (H : preserves same_round c) end.
  { apply (preserves_bind _ same_round_trans).
    - apply (steps_generateTrafficQueues _ same_round_refl same_round_trans);
        intros; reflexivity.
    - intros r. apply (preserves_bind _ same_round_trans);
        [apply preserves_modify; intros s0; reflexivity | intros _].
      apply (steps_processQueues _ same_round_refl same_round_trans);
        try (intros; reflexivity).
      + intros d s0. now destruct (infectNode_fields d s0) as (_ & _ & Hr & _).
      + intros o d l s0. now destruct (quarantineNode_fields o d l s0) as (_ & _ & Hr & _). }
  rewrite (H _). reflexivity.
Qed.

(** X8. A round adds exactly one to [roundNumber], also when it raises;
    a game on [n] round inputs adds between 0 and [n], and a game that
    starts when it is over plays no round and changes nothing. *)
Theorem round_counter :
  (forall inp s, roundNumber (exec (runRound inp) s) = roundNumber s + 1) /\
  (forall inputs s,
     roundNumber s <= roundNumber (exec (runGame inputs) s)
       <= roundNumber s + Z.of_nat (List.length inputs)) /\
  (forall inputs s, gameOver s = true -> runGame inputs s = (Val tt, s)).
Proof.
  split; [exact runRound_roundNumber|]. split.
  - induction inputs as [|inp rest IH]; intros s.
    + unfold exec. simpl. lia.
    + cbn [runGame]. rewrite exec_bind.
      change (result (lift (fun s0 => Val s0)) s) with (Val s).
      change (exec (lift (fun s0 => Val s0)) s) with s. cbv beta iota.
      destruct (gameOver s); [unfold exec; simpl; lia|].
      rewrite exec_bind. pose proof (runRound_roundNumber inp s) as Hr.
      destruct (result (runRound inp) s).
      * specialize (IH (exec (runRound inp) s)). rewrite Hr in IH.
        rewrite length_cons, Nat2Z.inj_succ. lia.
      * rewrite Hr, length_cons, Nat2Z.inj_succ. lia.
  - intros [|inp rest] s H; [reflexivity|].
    cbn [runGame]. unfold bind, lift. now rewrite H.
Qed.

(** ** The traffic of a round *)

Lemma randint_returns a b u :
  a <= b -> exists n, random.randint a b u = Val n /\ a <= n <= b.
Proof.
  intros H. unfold random.randint. destruct (a <=? b) eqn:E.
  - eexists. split; [reflexivity|].
    pose proof (Z.mod_pos_bound (Z.of_nat u) (b - a + 1)). lia.
  - apply Z.leb_gt in E. lia.
Qed.

Lemma choice_In {A} (l : list A) (u : nat) (x : A) :
  random.choice l u = Val x -> In x l.
Proof.
  unfold random.choice. destruct l as [|x0 l]; [discriminate|].
  intros H.
  replace x with (nth (Nat.modulo u (List.length (x0 :: l))) (x0 :: l) x0)
    by congruence.
  apply nth_In. apply Nat.mod_upper_bound. discriminate.
Qed.

Lemma rowIndices_short s inp :
  (List.length (dataset s) <= 1)%nat -> rowIndices s inp = Raise ValueError.
Proof.
  intros Hlen. unfold rowIndices.
  destruct (randint_returns 1 MAX_BACKGROUND_TRAFFIC_MESSAGES (countDraw inp))
    as (n & -> & Hn); [unfold MAX_BACKGROUND_TRAFFIC_MESSAGES; lia|].
  cbn [obind].
  destruct (Z.to_nat n) as [|k] eqn:Hk; [lia|].
  cbn [seq omap]. unfold random.randint at 1.
  destruct (1 <=? Z.of_nat (List.length (dataset s)) - 1) eqn:E;
    [apply Z.leb_le in E; lia | reflexivity].
Qed.

Lemma rowIndices_returns s inp :
  (2 <= List.length (dataset s))%nat ->
  exists indices, rowIndices s inp = Val indices /\
    (1 <= List.length indices)%nat /\
    Z.of_nat (List.length indices) <= MAX_BACKGROUND_TRAFFIC_MESSAGES.
Proof.
  intros Hlen. unfold rowIndices.
  destruct (randint_returns 1 MAX_BACKGROUND_TRAFFIC_MESSAGES (countDraw inp))
    as (n & -> & Hn); [unfold MAX_BACKGROUND_TRAFFIC_MESSAGES; lia|].
  cbn [obind].
  match goal with |- context [omap ?f ?l] =>
    destruct (omap_total f l) as [indices Hi] end.
  - intros k _.
    destruct (randint_returns 1 (Z.of_nat (List.length (dataset s)) - 1) (rowDraw inp k))
      as (i & Hi & _); [lia | now exists i].
  - exists indices. split; [exact Hi|]. apply omap_length in Hi.
    rewrite Hi, length_seq. lia.
Qed.

Lemma iloc_returns d index :
  0 <= index <= Z.of_nat (List.length d) - 1 -> exists row, iloc d index = Val row.
Proof.
  intros H. unfold iloc.
  destruct (nth_error d (Z.to_nat index)) as [r|] eqn:Hn.
  - exists r. destruct (0 <=? index) eqn:E; [reflexivity | apply Z.leb_gt in E; lia].
  - apply nth_error_None in Hn. lia.
Qed.

Lemma backgroundMessages_edges g inp rows : forall k msgs,
  backgroundMessages g inp k rows = Val msgs ->
  (List.length msgs <= List.length rows)%nat /\
  Forall (fun m => DiGraph.has_edge g (Message.origin m) (Message.destination m) = true)
    msgs.
Proof.
  induction rows as [|row rows IH]; simpl; intros k msgs H.
  - injection H as <-. split; [simpl; lia | constructor].
  - destruct (backgroundMessage g inp k row) as [om|e] eqn:Hb; [|discriminate].
    simpl in H.
    destruct (backgroundMessages g inp (S k) rows) as [ms|e] eqn:Hrest; [|discriminate].
    simpl in H. injection H as <-.
    destruct (IH (S k) ms Hrest) as [Hlen Hall].
    destruct om as [x|]; [|split; [lia | assumption]].
    split; [simpl; lia|]. constructor; [|assumption].
    unfold backgroundMessage in Hb.
    destruct (random.choice (DiGraph.nodes g) (originDraw inp k)) as [o|e] eqn:Ho;
      [|discriminate]. simpl in Hb.
    destruct (random.choice _ (destinationDraw inp k)) as [d|e] eqn:Hd; [|discriminate].
    injection Hb as <-. simpl. apply choice_In in Hd. now apply filter_In in Hd.
Qed.

Lemma backgroundMessages_returns g inp rows :
  DiGraph.nodes g <> [] ->
  forall k, exists msgs, backgroundMessages g inp k rows = Val msgs.
Proof.
  intros Hn. induction rows as [|row rows IH]; intros k; simpl.
  - now exists [].
  - destruct (IH (S k)) as [ms ->].
    unfold backgroundMessage, random.choice at 1.
    destruct (DiGraph.nodes g) as [|x nodes] eqn:Hnodes; [congruence|]. simpl.
    destruct (random.choice _ (destinationDraw inp k)); simpl; now eexists.
Qed.

Lemma backgroundMessages_no_node g inp row rows k :
  DiGraph.nodes g = [] -> backgroundMessages g inp k (row :: rows) = Raise IndexError.
Proof. intros Hn. simpl. unfold backgroundMessage. now rewrite Hn. Qed.

(** X9. [generateBackgroundTraffic] raises ValueError when the dataset has
    fewer than two records and IndexError when the dataset is long enough
    but the graph has no node, and returns in every other case: then with
    at most [MAX_BACKGROUND_TRAFFIC_MESSAGES] messages, each of which
    travels along an edge of the graph (an origin without successor sends
    nothing). *)
Theorem generateBackgroundTraffic_outcome (s : GameState) (inp : RoundInput) :
  match generateBackgroundTraffic s inp with
  | Val msgs =>
      (2 <= List.length (dataset s))%nat /\ DiGraph.nodes (graph s) <> [] /\
      Z.of_nat (List.length msgs) <= MAX_BACKGROUND_TRAFFIC_MESSAGES /\
      Forall (fun m => DiGraph.has_edge (graph s) (Message.origin m)
                         (Message.destination m) = true) msgs
  | Raise e =>
      (e = ValueError /\ (List.length (dataset s) <= 1)%nat) \/
      (e = IndexError /\ (2 <= List.length (dataset s))%nat /\
       DiGraph.nodes (graph s) = [])
  end.
Proof.
  destruct (Nat.le_gt_cases (List.length (dataset s)) 1) as [Hshort|Hlong].
  - unfold generateBackgroundTraffic. rewrite (rowIndices_short s inp Hshort).
    left. now split.
  - unfold generateBackgroundTraffic.
    destruct (rowIndices_returns s inp Hlong) as (indices & Hidx & Hlen1 & Hlen30).
    rewrite Hidx. cbn [obind].
    pose proof (rowIndices_range s inp indices Hidx) as Hrange.
    rewrite Forall_forall in Hrange.
    destruct (omap_total (iloc (dataset s)) indices) as [rows Hrows].
    { intros i Hi. apply iloc_returns. specialize (Hrange i Hi). lia. }
    rewrite Hrows. cbn [obind]. pose proof (omap_length _ _ _ Hrows) as Hlen.
    destruct (DiGraph.nodes (graph s)) as [|x nodes] eqn:Hnodes.
    + destruct rows as [|row rows]; [simpl in Hlen; lia|].
      rewrite backgroundMessages_no_node by assumption. right. now repeat split.
    + destruct (backgroundMessages_returns (graph s) inp rows
                  ltac:(rewrite Hnodes; discriminate) 0%nat) as [msgs Hmsgs].
      rewrite Hmsgs.
      destruct (backgroundMessages_edges _ _ _ _ _ Hmsgs) as [Hle Hedges].
      split; [lia|]. split; [discriminate|]. split; [lia | assumption].
Qed.

(** [generateTrafficQueues], outcome by outcome. *)
Lemma generateTrafficQueues_cases inp s :
  generateTrafficQueues inp s =
  match generateBackgroundTraffic s inp with
  | Raise e => (Raise e, s)
  | Val msgs =>
      let s1 := set_traffic msgs s in
      let organizedQueues := organize (graph s) msgs in
      match nodeInformation s organizedQueues with
      | Raise e => (Raise e, s1)
      | Val [] => (Raise ValueError, s1)
      | Val (i :: info) =>
          let trafficInfo := trafficInfoOf (i :: info) in
          let s2 := set_attackMessage (fst (getAttack inp)) s1 in
          match fst (getAttack inp) with
          | Some attackMsg =>
              match dict_get organizedQueues (Message.destination attackMsg) with
              | None => (Raise KeyError, s2)
              | Some queue =>
                  match random.randint 0 (Z.of_nat (List.length queue) + 1)
                          (positionDraw inp) with
                  | Raise e => (Raise e, s2)
                  | Val position =>
                      (Val (dict_set organizedQueues (Message.destination attackMsg)
                              (list_insert (Z.to_nat position) attackMsg queue),
                            trafficInfo, snd (getAttack inp)), s2)
                  end
              end
          | None =>
              (Val (organizedQueues, trafficInfo, snd (getAttack inp)),
               exec (attacker_addTrainingPoint
                       (trafficInfo, OUTPUT_SIZE (attacker s) - 1, Some (inject_Z 0))) s2)
          end
      end
  end.
Proof.
  unfold generateTrafficQueues, bind, lift, modify, ret.
  destruct (generateBackgroundTraffic s inp) as [msgs|e]; [|reflexivity].
  change (nodeInformation (set_traffic msgs s)
            (organize (graph (set_traffic msgs s)) msgs))
    with (nodeInformation s (organize (graph s) msgs)).
  change (graph (set_traffic msgs s)) with (graph s).
  destruct (nodeInformation s (organize (graph s) msgs)) as [[|i info]|e];
    try reflexivity.
  cbv zeta. destruct (fst (getAttack inp)) as [attackMsg|]; [|reflexivity].
  destruct (dict_get (organize (graph s) msgs) (Message.destination attackMsg))
    as [queue|]; [|reflexivity].
  destruct (random.randint 0 (Z.of_nat (List.length queue) + 1) (positionDraw inp));
    reflexivity.
Qed.

Lemma dict_get_organize g msgs n :
  dict_get (organize g msgs) n =
  if DiGraph.has_node g n
  then Some (filter (fun message => String.eqb (Message.destination message) n) msgs)
  else None.
Proof.
  unfold organize, DiGraph.nodes, DiGraph.has_node.
  induction g as [|[k vs] g IH]; simpl; [reflexivity|].
  destruct (String.eqb k n) eqn:E; [|exact IH].
  apply String.eqb_eq in E. now subst.
Qed.

Lemma organize_keys g msgs : map fst (organize g msgs) = DiGraph.nodes g.
Proof. unfold organize. rewrite map_map. simpl. apply map_id. Qed.

Lemma dict_set_keys {V} (d : list (Node * V)) k v :
  dict_get d k <> None -> map fst (dict_set d k v) = map fst d.
Proof.
  induction d as [|[k' v'] d IH]; simpl; [congruence|].
  destruct (String.eqb k' k) eqn:E; simpl.
  - intros _. apply String.eqb_eq in E. now subst.
  - intros H. f_equal. now apply IH.
Qed.

Lemma trafficInfoOf_length info :
  List.length (trafficInfoOf info) = (3 * List.length info)%nat.
Proof. unfold trafficInfoOf. rewrite !length_app, !length_map. lia. Qed.

Lemma list_insert_length {A} (position : nat) (x : A) (l : list A) :
  List.length (list_insert position x l) = S (List.length l).
Proof.
  unfold list_insert. rewrite length_app. simpl.
  rewrite <- (firstn_skipn position l) at 3. rewrite length_app. lia.
Qed.

Lemma dict_set_In {V} (d : list (Node * V)) k v kv :
  In kv (dict_set d k v) -> In kv d \/ kv = (k, v).
Proof.
  induction d as [|[k' v'] d IH]; simpl.
  - intros [<-|[]]. now right.
  - destruct (String.eqb k' k) eqn:E; simpl.
    + apply String.eqb_eq in E. subst k'. intros [<-|H]; [now right | left; now right].
    + intros [<-|H]; [left; now left|]. destruct (IH H) as [H'|H']; [left; now right | now right].
Qed.

Lemma list_insert_In {A} (position : nat) (x y : A) (l : list A) :
  In y (list_insert position x l) -> y = x \/ In y l.
Proof.
  unfold list_insert. intros H. apply in_app_or in H.
  destruct H as [H|[<-|H]]; [right | now left | right];
    rewrite <- (firstn_skipn position l); apply in_or_app; auto.
Qed.

(** X10. When the Attacker returns an attack message, [generateTrafficQueues]
    raises KeyError if the destination of the attack is no node of the
    graph; otherwise it returns and the attack is inserted once in the
    queue of its destination, at a position drawn between 0 and the queue
    length plus one, the other queues being those of the background
    traffic.  Either way the attack is recorded in [attackMessage] and no
    attacker training point is added. *)
Theorem attack_enqueued (inp : RoundInput) (s : GameState) (msgs : list Message.t)
    (attackMsg : Message.t) :
  infected_in_graph s ->
  generateBackgroundTraffic s inp = Val msgs ->
  fst (getAttack inp) = Some attackMsg ->
  let destination := Message.destination attackMsg in
  let queue := filter (fun m => String.eqb (Message.destination m) destination) msgs in
  let s' := set_attackMessage (Some attackMsg) (set_traffic msgs s) in
  exec (generateTrafficQueues inp) s = s' /\
  if DiGraph.has_node (graph s) destination
  then exists position queues trafficInfo,
         result (generateTrafficQueues inp) s =
           Val (queues, trafficInfo, snd (getAttack inp)) /\
         0 <= position <= Z.of_nat (List.length queue) + 1 /\
         dict_get queues destination =
           Some (list_insert (Z.to_nat position) attackMsg queue) /\
         (forall n, n <> destination ->
                    dict_get queues n = dict_get (organize (graph s) msgs) n)
  else result (generateTrafficQueues inp) s = Raise KeyError.
Proof.
  intros Hwf Hbg Hatt destination queue s'.
  destruct (nodeInformation_returns s (organize (graph s) msgs) Hwf) as [info [Hinfo Hlen]].
  assert (Hne : info <> []).
  { intros ->. apply (generateBackgroundTraffic_nodes _ _ _ Hbg).
    now destruct (DiGraph.nodes (graph s)). }
  destruct info as [|i info]; [congruence|].
  unfold exec, result. rewrite generateTrafficQueues_cases, Hbg. cbv zeta.
  rewrite Hinfo, Hatt, dict_get_organize. fold destination. fold queue.
  destruct (DiGraph.has_node (graph s) destination) eqn:Hn; [|now split].
  destruct (randint_returns 0 (Z.of_nat (List.length queue) + 1) (positionDraw inp))
    as (position & Hpos & Hrange); [lia|].
  rewrite Hpos. split; [reflexivity|].
  exists position. eexists. eexists. split; [reflexivity|]. split; [exact Hrange|].
  split.
  - rewrite dict_get_dict_set. now rewrite String.eqb_refl.
  - intros n Hneq. rewrite dict_get_dict_set.
    destruct (String.eqb destination n) eqn:E; [|reflexivity].
    apply String.eqb_eq in E. congruence.
Qed.

Lemma attack_enqueued_witness :
  let s := Scenario.chain Scenario.rowsBenign in
  infected_in_graph s /\
  generateBackgroundTraffic s (Scenario.attacking 0) = Val [Scenario.benign] /\
  exec (generateTrafficQueues (Scenario.attacking 0)) s =
    set_attackMessage (Some Scenario.attackAB) (set_traffic [Scenario.benign] s) /\
  exists position queues trafficInfo,
    result (generateTrafficQueues (Scenario.attacking 0)) s =
      Val (queues, trafficInfo, 1) /\
    0 <= position <= 2 /\
    dict_get queues "B"%string =
      Some (list_insert (Z.to_nat position) Scenario.attackAB [Scenario.benign]).
Proof.
  intros s.
  pose proof (attack_enqueued (Scenario.attacking 0) s [Scenario.benign]
                Scenario.attackAB (proj2 (chain_wf _)) eq_refl eq_refl) as H.
  cbv zeta in H. destruct H as [Hexec H].
  split; [exact (proj2 (chain_wf _))|]. split; [reflexivity|]. split; [exact Hexec|].
  change (DiGraph.has_node (graph s) (Message.destination Scenario.attackAB))
    with true in H. cbv iota in H.
  destruct H as (position & queues & trafficInfo & Hres & Hrange & Hq & _).
  exists position, queues, trafficInfo.
  split; [exact Hres|]. split; [exact Hrange | exact Hq].
Defined.

(** X11. What [generateTrafficQueues] returns, when it returns: one queue
    per node of the graph, in node order; every message of a queue, the
    attack included, is destined to the node of the queue; the state
    vector has three entries per node; the attack index is the one the
    Attacker gave. *)
Theorem generateTrafficQueues_shape (inp : RoundInput) (s : GameState) :
  match result (generateTrafficQueues inp) s with
  | Val (queues, trafficInfo, attackIndex) =>
      map fst queues = DiGraph.nodes (graph s) /\
      (forall node queue message,
         In (node, queue) queues -> In message queue ->
         Message.destination message = node) /\
      List.length trafficInfo = (3 * List.length (DiGraph.nodes (graph s)))%nat /\
      attackIndex = snd (getAttack inp)
  | Raise _ => True
  end.
Proof.
  unfold result. rewrite generateTrafficQueues_cases.
  destruct (generateBackgroundTraffic s inp) as [msgs|e]; [|exact I].
  cbv zeta.
  destruct (nodeInformation s (organize (graph s) msgs)) as [[|i info]|e] eqn:Hinfo;
    try exact I.
  assert (Hlen : List.length (trafficInfoOf (i :: info)) =
                 (3 * List.length (DiGraph.nodes (graph s)))%nat).
  { rewrite trafficInfoOf_length. unfold nodeInformation in Hinfo.
    apply omap_length in Hinfo. now rewrite Hinfo. }
  assert (Hq : forall node queue message,
            In (node, queue) (organize (graph s) msgs) -> In message queue ->
            Message.destination message = node).
  { intros node queue message Hin Hm. unfold organize in Hin.
    apply in_map_iff in Hin. destruct Hin as [n [[= <- <-] _]].
    apply filter_In in Hm. now apply String.eqb_eq. }
  destruct (fst (getAttack inp)) as [attackMsg|].
  - destruct (dict_get (organize (graph s) msgs) (Message.destination attackMsg))
      as [queue0|] eqn:Hd; [|exact I].
    destruct (random.randint 0 (Z.of_nat (List.length queue0) + 1) (positionDraw inp))
      as [position|e]; [|exact I].
    simpl fst. split; [|split; [|split]]; try assumption; try reflexivity.
    + rewrite dict_set_keys by congruence. apply organize_keys.
    + intros node queue message Hin Hm.
      apply dict_set_In in Hin. destruct Hin as [Hin|[= -> ->]]; [eauto|].
      apply list_insert_In in Hm. destruct Hm as [->|Hm]; [reflexivity|].
      rewrite dict_get_organize in Hd.
      destruct (DiGraph.has_node (graph s) (Message.destination attackMsg));
        [|discriminate].
      injection Hd as <-. apply filter_In in Hm. now apply String.eqb_eq.
  - simpl fst. split; [apply organize_keys|]. split; [exact Hq|].
    split; [exact Hlen | reflexivity].
Qed.

(** ** Rounds that run to their end *)

Lemma calculateScore_malicious s message label score :
  calculateScore s message label = Val score ->
  Message.isMalicious message = true -> fst score <> None.
Proof.
  unfold calculateScore. intros H Hm.
  destruct (calculateNodeInfectionReward s (Message.destination message)) as [a|e];
    [|discriminate].
  cbn [obind] in H.
  destruct (DiGraph.neighbors (graph s) (Message.destination message)) as [nbrs|e];
    [|discriminate].
  cbn [obind] in H. rewrite Hm in H.
  destruct label; injection H as <-; discriminate.
Qed.

Lemma runs_clean_ret : runs_clean (ret tt).
Proof. intros s Hwf. split; [reflexivity | split; [exact Hwf | auto]]. Qed.

Lemma runs_clean_bind (c k : M unit) :
  runs_clean c -> runs_clean k -> runs_clean (c ;;; k).
Proof.
  intros Hc Hk s Hwf. destruct (Hc s Hwf) as (Hr & Hwf' & Hl).
  rewrite result_bind, exec_bind, Hr.
  destruct (Hk _ Hwf') as (Hr2 & Hwf2 & Hl2). auto.
Qed.

Lemma processMessage_clean inp trafficInfo attackIndex key position message :
  runs_clean (processMessage inp trafficInfo attackIndex key position message).
Proof.
  intros s Hwf.
  destruct (DiGraph.has_edge (graph s) (Message.origin message)
              (Message.destination message)) eqn:He.
  - destruct (processMessage_run inp trafficInfo attackIndex key position message s Hwf He)
      as (score & Hscore & Hres & Hwf' & _ & _ & _ & Hlast).
    split; [exact Hres|]. split; [exact Hwf'|]. rewrite Hlast.
    destruct (Message.isMalicious message) eqn:Hm; [|auto].
    intros _. eapply calculateScore_malicious; eassumption.
  - unfold result, exec. rewrite processMessage_dropped by assumption.
    split; [reflexivity | split; [exact Hwf | auto]].
Qed.

Lemma processQueue_clean inp trafficInfo attackIndex key queue : forall position,
  runs_clean (processQueue inp trafficInfo attackIndex key position queue).
Proof.
  induction queue as [|message rest IH]; intros position; simpl.
  - apply runs_clean_ret.
  - apply runs_clean_bind; [apply processMessage_clean | apply IH].
Qed.

Lemma processQueues_clean inp trafficInfo attackIndex queues :
  runs_clean (processQueues inp trafficInfo attackIndex queues).
Proof.
  unfold processQueues. induction queues as [|kq queues IH]; simpl.
  - apply runs_clean_ret.
  - apply runs_clean_bind; [apply processQueue_clean | exact IH].
Qed.

(** A round, by the outcome of its traffic generation. *)
Lemma runRound_outcome inp s :
  wf_state s ->
  match result (generateTrafficQueues inp) (set_roundNumber (roundNumber s + 1) s) with
  | Val _ =>
      result (runRound inp) s = Val tt /\ wf_state (exec (runRound inp) s) /\
      lastAttackerScore (exec (runRound inp) s) <> None
  | Raise e => result (runRound inp) s = Raise e
  end.
Proof.
  intros Hwf. set (s0 := set_roundNumber (roundNumber s + 1) s).
  pose proof (generateTrafficQueues_topology inp s0) as [Hg Hi].
  unfold result at 1. unfold exec in Hg, Hi.
  destruct (generateTrafficQueues inp s0) as [[r|e] s1] eqn:Hgen; simpl in *.
  - unfold result, exec. rewrite (runRound_eq inp s r s1 Hgen).
    assert (Hwf1 : wf_state (set_lastAttackerScore (Some (inject_Z 0)) s1)).
    { destruct Hwf as [Hc Hin]. split.
      - intros u v. simpl. rewrite Hg. apply Hc.
      - intros n. simpl. rewrite Hg, Hi. apply Hin. }
    destruct (processQueues_clean inp (snd (fst r)) (snd (getAttack inp)) (fst (fst r))
                _ Hwf1) as (Hr & Hwf2 & Hl).
    split; [exact Hr|]. split; [exact Hwf2|]. apply Hl. discriminate.
  - unfold result, runRound, bind, modify. fold s0. now rewrite Hgen.
Qed.

Lemma generateTrafficQueues_returns inp s :
  infected_in_graph s -> DiGraph.nodes (graph s) <> [] ->
  (2 <= List.length (dataset s))%nat -> attack_in_graph (graph s) inp ->
  exists r, result (generateTrafficQueues inp) s = Val r.
Proof.
  intros Hwf Hnodes Hdata Hatt.
  unfold result. rewrite generateTrafficQueues_cases.
  destruct (generateBackgroundTraffic s inp) as [msgs|e] eqn:Hbg.
  - cbv zeta.
    destruct (nodeInformation_returns s (organize (graph s) msgs) Hwf)
      as [info [Hinfo Hlen]].
    rewrite Hinfo.
    destruct info as [|i info];
      [destruct (DiGraph.nodes (graph s)); [congruence | discriminate]|].
    unfold attack_in_graph in Hatt.
    destruct (fst (getAttack inp)) as [attackMsg|]; [|now eexists].
    rewrite dict_get_organize, Hatt.
    match goal with |- context [random.randint 0 ?b ?u] =>
      destruct (randint_returns 0 b u) as (position & -> & _); [lia|] end.
    now eexists.
  - exfalso. unfold generateBackgroundTraffic in Hbg.
    destruct (rowIndices_returns s inp Hdata) as (indices & Hidx & _).
    rewrite Hidx in Hbg. cbn [obind] in Hbg.
    pose proof (rowIndices_range s inp indices Hidx) as Hrange.
    rewrite Forall_forall in Hrange.
    destruct (omap_total (iloc (dataset s)) indices) as [rows Hrows].
    { intros i Hi. apply iloc_returns. specialize (Hrange i Hi). lia. }
    rewrite Hrows in Hbg. cbn [obind] in Hbg.
    destruct (backgroundMessages_returns (graph s) inp rows Hnodes 0%nat) as [msgs Hm].
    congruence.
Qed.

(** *** What a round never touches *)

Lemma stable_refl s : stable s s.
Proof. now split. Qed.

Lemma stable_trans a b c : stable a b -> stable b c -> stable a c.
Proof. unfold stable. intros [D1 N1] [D2 N2]. split; congruence. Qed.

Lemma runRound_stable inp : preserves stable (runRound inp).
Proof.
  apply (steps_runRound _ stable_refl stable_trans); try (intros; now split).
  - intros d s. destruct (infectNode_fields d s) as (_ & Hd & _ & Hg).
    split; [assumption | now rewrite Hg].
  - intros o d l s. now destruct (quarantineNode_fields o d l s) as (_ & Hd & _ & Hn).
Qed.

Lemma attack_in_graph_nodes g g' inp :
  DiGraph.nodes g' = DiGraph.nodes g -> attack_in_graph g inp -> attack_in_graph g' inp.
Proof.
  unfold attack_in_graph. intros Hn.
  destruct (fst (getAttack inp)) as [attackMsg|]; [|auto].
  rewrite !DiGraphFacts.has_node_In. now rewrite Hn.
Qed.

Lemma bind_val {A B} (c : M A) (k : A -> M B) (s : GameState) (a : A) (s' : GameState) :
  c s = (Val a, s') -> bind c k s = k a s'.
Proof. unfold bind. now intros ->. Qed.

(** On a well-formed state where every node has a colour [displayGraph]
    raises nothing; after the round it needs a last attacker score that
    is a number. *)
Lemma displayGraph_returns displayAttack s :
  infected_in_graph s -> colours_cover s ->
  (displayAttack = false -> lastAttackerScore s <> None) ->
  displayGraph displayAttack s = (Val tt, s).
Proof.
  intros Hin Hcover Hlast. unfold displayGraph, lift. f_equal.
  destruct (nodeColors_returns s (infectedNodes s)) as [ci [Hci _]].
  { intros n Hn. apply Hcover. now apply Hin. }
  destruct (nodeColors_returns s (DiGraph.nodes (graph s))) as [cn [Hcn _]].
  { intros n Hn. apply Hcover. now apply DiGraphFacts.has_node_In. }
  unfold infectedColorMap, notInfectedColorMap. rewrite Hci, Hcn. cbn [obind].
  unfold displayTitle. destruct displayAttack.
  - now destruct (attackMessage s).
  - destruct (lastAttackerScore s) as [score|]; [|now specialize (Hlast eq_refl)].
    destruct (negb (Qle_bool 0 score)); [reflexivity|].
    now destruct (negb (Qle_bool score 0)).
Qed.

Lemma round_colours :
  (forall inp, preserves colours_kept (generateTrafficQueues inp)) /\
  (forall inp trafficInfo attackIndex queues,
     preserves colours_kept (processQueues inp trafficInfo attackIndex queues)) /\
  (forall inp, preserves colours_kept (runRound inp)).
Proof.
  assert (Hcolour : forall k v s,
            colours_kept s (set_colorMap (dict_set (colorMap s) k v) s)).
  { intros k v s. split; [intros n; reflexivity|].
    intros n Hn. simpl. rewrite dict_get_dict_set.
    destruct (String.eqb k n); [discriminate | assumption]. }
  assert (Hinfect : forall d, preserves colours_kept (infectNode d)).
  { intros d s. destruct (infectNode_fields d s) as (Hc & _ & _ & Hg).
    now apply colours_kept_same. }
  assert (Hquarantine : forall o d l, preserves colours_kept (quarantineNode o d l)).
  { intros o d l s. split.
    - now destruct (quarantineNode_frame d o d l s) as (Hn & _).
    - destruct (quarantineNode_fields o d l s) as (Hc & _). intros n. now rewrite Hc. }
  split; [|split].
  - intros inp.
    apply (steps_generateTrafficQueues _ colours_kept_refl colours_kept_trans);
      intros; now apply colours_kept_same.
  - intros inp ti idx queues.
    apply (steps_processQueues _ colours_kept_refl colours_kept_trans);
      try assumption; intros; now apply colours_kept_same.
  - intros inp.
    apply (steps_runRound _ colours_kept_refl colours_kept_trans);
      try assumption; intros; now apply colours_kept_same.
Qed.

(** A round with or without its display: when the traffic generation
    returns, so does the round, in the state the round without display
    leaves. *)
Lemma runRoundVisualize_run visualizeGame inp s r s1 :
  wf_state s -> colours_cover s ->
  generateTrafficQueues inp (set_roundNumber (roundNumber s + 1) s) = (Val r, s1) ->
  runRoundVisualize visualizeGame inp s = (Val tt, exec (runRound inp) s).
Proof.
  intros Hwf Hcover Hgen.
  set (s0 := set_roundNumber (roundNumber s + 1) s) in *.
  set (s2 := set_lastAttackerScore (Some (inject_Z 0)) s1).
  destruct round_colours as (Hgc & Hpc & _).
  assert (Hwf2 : wf_state s2).
  { pose proof (generateTrafficQueues_topology inp s0) as [Hg Hi].
    unfold exec in Hg, Hi. rewrite Hgen in Hg, Hi. simpl in Hg, Hi.
    destruct Hwf as [Hc Hin]. split.
    - intros u v. simpl. rewrite Hg. apply Hc.
    - intros n. simpl. rewrite Hg, Hi. apply Hin. }
  assert (Hcover2 : colours_cover s2).
  { pose proof (Hgc inp s0) as Hk. unfold exec in Hk. rewrite Hgen in Hk. simpl in Hk.
    apply (colours_cover_kept s0 s2); [|exact Hcover].
    destruct Hk as [Hn Hc]. split; [exact Hn | exact Hc]. }
  pose proof (generateTrafficQueues_index inp _ _ _ Hgen) as Hidx. simpl in Hidx.
  destruct (processQueues_clean inp (snd (fst r)) (snd r) (fst (fst r)) s2 Hwf2)
    as (Hres & Hwf3 & Hlast).
  set (s3 := exec (processQueues inp (snd (fst r)) (snd r) (fst (fst r))) s2) in *.
  assert (Hcover3 : colours_cover s3).
  { apply (colours_cover_kept s2 s3); [apply Hpc | exact Hcover2]. }
  assert (Hround : exec (runRound inp) s = s3).
  { unfold exec at 1. rewrite (runRound_eq inp s r s1 Hgen), <- Hidx.
    reflexivity. }
  rewrite Hround. unfold runRoundVisualize.
  erewrite bind_val; [|reflexivity].
  erewrite bind_val; [|exact Hgen].
  erewrite bind_val; [|reflexivity].
  erewrite bind_val.
  2: { destruct visualizeGame; [|reflexivity].
       apply displayGraph_returns; [apply Hwf2 | exact Hcover2 | discriminate]. }
  erewrite bind_val; [|apply run_val; exact Hres].
  fold s3. destruct visualizeGame; [|reflexivity].
  apply displayGraph_returns; [apply Hwf3 | exact Hcover3 |].
  intros _. apply Hlast. discriminate.
Qed.

(** X12. In a game started on a well-formed state in which every node has
    a colour, whose graph has a node and whose dataset has at least two
    records, and in which every attack the Attacker returns is aimed at a
    node of the graph, no round raises an exception, with the display on
    or off and whatever the draws and the labels of the Defender: after
    any number of rounds the loop of [runGame] has either ended or is
    ready for its next round, in the state the rounds without display
    leave.  Whether the loop ends is not claimed: it has no bound. *)
Theorem game_rounds_raise_nothing (visualizeGame : bool) (inputs : list RoundInput)
    (s : GameState) :
  wf_state s -> colours_cover s -> DiGraph.nodes (graph s) <> [] ->
  (2 <= List.length (dataset s))%nat ->
  Forall (attack_in_graph (graph s)) inputs ->
  let s' := exec (runGame inputs) s in
  runGameLoop visualizeGame inputs s = (Val (gameOver s'), s').
Proof.
  revert s.
  induction inputs as [|inp rest IH]; intros s Hwf Hcover Hnodes Hdata Hatt s'; subst s'.
  - cbn. unfold bind, lift. now destruct (gameOver s).
  - cbn [runGameLoop runGame]. unfold bind at 1, lift at 1.
    rewrite exec_bind.
    change (result (lift (fun s0 => Val s0)) s) with (Val s).
    change (exec (lift (fun s0 => Val s0)) s) with s. cbv beta iota.
    destruct (gameOver s) eqn:Hover; [unfold exec, ret; simpl; now rewrite Hover|].
    destruct (generateTrafficQueues_returns inp (set_roundNumber (roundNumber s + 1) s))
      as [r Hr]; try assumption.
    { apply Hwf. }
    { now inversion Hatt. }
    pose proof (runRound_outcome inp s Hwf) as Hround. rewrite Hr in Hround.
    destruct Hround as (Hres & Hwf' & _).
    unfold result in Hr.
    destruct (generateTrafficQueues inp (set_roundNumber (roundNumber s + 1) s))
      as [[r'|e] s1] eqn:Hgen; [|discriminate].
    rewrite (bind_val _ _ _ _ _
               (runRoundVisualize_run visualizeGame inp s r' s1 Hwf Hcover Hgen)).
    rewrite exec_bind, Hres.
    destruct (runRound_stable inp s) as [Hd Hn].
    destruct round_colours as (_ & _ & Hrc).
    apply IH.
    + exact Hwf'.
    + apply (colours_cover_kept s); [apply Hrc | exact Hcover].
    + now rewrite Hn.
    + now rewrite Hd.
    + inversion Hatt as [|? ? _ Hrest]; subst.
      eapply Forall_impl; [|exact Hrest].
      intros inp'. now apply attack_in_graph_nodes.
Qed.

Lemma game_rounds_raise_nothing_witness :
  let s := Scenario.chain Scenario.rows2 in
  let inputs := [Scenario.attacking 0; Scenario.quiet] in
  wf_state s /\ colours_cover s /\ DiGraph.nodes (graph s) <> [] /\
  (2 <= List.length (dataset s))%nat /\
  Forall (attack_in_graph (graph s)) inputs /\
  runGameLoop true inputs s =
    (Val (gameOver (exec (runGame inputs) s)), exec (runGame inputs) s) /\
  gameOver (exec (runGame inputs) s) = false.
Proof.
  intros s inputs.
  assert (Hatt : Forall (attack_in_graph (graph s)) inputs)
    by (repeat constructor).
  assert (Hcover : colours_cover s) by apply initializeNetwork_colours.
  split; [apply chain_wf|]. split; [exact Hcover|]. split; [discriminate|].
  split; [simpl; lia|]. split; [exact Hatt|]. split.
  - exact (game_rounds_raise_nothing true inputs s (chain_wf _) Hcover
             ltac:(discriminate) ltac:(simpl; lia) Hatt).
  - reflexivity.
Defined.

(** Without colours the display raises: the first round of a game on the
    chain with an empty colour map stops with a KeyError, where the same
    round without display returns. *)
Example display_needs_colours :
  let s := set_colorMap [] (Scenario.chain Scenario.rows2) in
  wf_state s /\
  result (runGameLoop true [Scenario.quiet]) s = Raise KeyError /\
  result (runGameLoop false [Scenario.quiet]) s = Val false.
Proof. split; [apply chain_wf | split; reflexivity]. Qed.

(** X13. A round on a dataset of fewer than two records raises ValueError,
    and a round on a longer dataset but a graph without node raises
    IndexError; in both cases before any traffic is generated: the state
    is the one the round found, with the round counted. *)
Theorem round_without_traffic (inp : RoundInput) (s : GameState) :
  ((List.length (dataset s) <= 1)%nat ->
   runRound inp s = (Raise ValueError, set_roundNumber (roundNumber s + 1) s)) /\
  ((2 <= List.length (dataset s))%nat -> DiGraph.nodes (graph s) = [] ->
   runRound inp s = (Raise IndexError, set_roundNumber (roundNumber s + 1) s)).
Proof.
  set (s0 := set_roundNumber (roundNumber s + 1) s).
  assert (Hrun : forall e, generateBackgroundTraffic s0 inp = Raise e ->
                           runRound inp s = (Raise e, s0)).
  { intros e He. unfold runRound, bind, modify. fold s0.
    now rewrite generateTrafficQueues_cases, He. }
  split.
  - intros Hshort. apply Hrun. unfold generateBackgroundTraffic.
    now rewrite (rowIndices_short s0 inp Hshort).
  - intros Hlong Hnodes. apply Hrun. unfold generateBackgroundTraffic.
    destruct (rowIndices_returns s0 inp Hlong) as (indices & Hidx & Hlen1 & _).
    rewrite Hidx. cbn [obind].
    pose proof (rowIndices_range s0 inp indices Hidx) as Hrange.
    rewrite Forall_forall in Hrange.
    destruct (omap_total (iloc (dataset s0)) indices) as [rows Hrows].
    { intros i Hi. apply iloc_returns. specialize (Hrange i Hi). lia. }
    rewrite Hrows. cbn [obind]. apply omap_length in Hrows.
    destruct rows as [|row rows]; [simpl in Hrows; lia|].
    now apply backgroundMessages_no_node.
Qed.

(** X14. After a round that returns from a well-formed state the last
    attacker score is a number, never [None]: the comparison with 0 in
    the post-round title of [displayGraph] is defined. *)
Theorem post_round_title (inp : RoundInput) (s : GameState) :
  wf_state s -> result (runRound inp) s = Val tt ->
  let s' := exec (runRound inp) s in
  (exists score, lastAttackerScore s' = Some score) /\
  (exists title, displayTitle false s' = Some title).
Proof.
  intros Hwf Hres s'. pose proof (runRound_outcome inp s Hwf) as H.
  destruct (result (generateTrafficQueues inp) (set_roundNumber (roundNumber s + 1) s));
    [|congruence].
  destruct H as (_ & _ & Hl). fold s' in Hl. unfold displayTitle.
  destruct (lastAttackerScore s') as [score|]; [|congruence].
  split; [now exists score|].
  destruct (negb (Qle_bool 0 score)); [now eexists|].
  destruct (negb (Qle_bool score 0)); now eexists.
Qed.

Lemma post_round_title_witness :
  let s := Scenario.chain Scenario.rows2 in
  wf_state s /\ result (runRound (Scenario.attacking 0)) s = Val tt /\
  (exists score, lastAttackerScore (exec (runRound (Scenario.attacking 0)) s) = Some score) /\
  (exists title, displayTitle false (exec (runRound (Scenario.attacking 0)) s) = Some title).
Proof.
  intros s. split; [apply chain_wf|]. split; [reflexivity|].
  exact (post_round_title (Scenario.attacking 0) s (chain_wf _) eq_refl).
Defined.

(** ** The signs of the rewards *)

(** X15. [calculateScore] raises NetworkXError when the destination of the
    message is no node of the graph and returns otherwise.  The attacker
    reward is [None] exactly for a benign message; for a malicious one it
    is zero when the destination is infected already, negative when the
    label is a quarantine (MEDIUM or HIGH) and positive when it is not.
    The defender reward is never zero: positive when the label is right
    (a quarantine of a malicious message, none of a benign one) and
    negative when it is wrong. *)
Theorem calculateScore_signs (s : GameState) (message : Message.t) (label : Label) :
  if DiGraph.has_node (graph s) (Message.destination message)
  then exists attackerReward defenderReward,
         calculateScore s message label = Val (attackerReward, defenderReward) /\
         (attackerReward = None <-> Message.isMalicious message = false) /\
         (forall reward, attackerReward = Some reward ->
            if mem (Message.destination message) (infectedNodes s)
            then (reward == 0)%Q
            else if quarantines label then (reward < 0)%Q else (0 < reward)%Q) /\
         (if Bool.eqb (Message.isMalicious message) (quarantines label)
          then (0 < defenderReward)%Q else (defenderReward < 0)%Q)
  else calculateScore s message label = Raise NetworkXError.
Proof.
  unfold DiGraph.has_node, calculateScore, calculateNodeInfectionReward,
    DiGraph.neighbors.
  destruct (DiGraph.adj (graph s) (Message.destination message)) as [nbrs|];
    [|now destruct (mem (Message.destination message) (infectedNodes s))].
  set (count := Z.of_nat (List.length
                  (filter (fun neighbor => negb (mem neighbor (infectedNodes s))) nbrs))).
  assert (Hcount : 0 <= count) by (unfold count; lia).
  set (degree := Z.of_nat (List.length nbrs)).
  assert (Hdegree : 0 <= degree) by (unfold degree; lia).
  destruct (mem (Message.destination message) (infectedNodes s));
    destruct (Message.isMalicious message); destruct label;
    cbn [obind quarantines Bool.eqb];
    eexists; eexists; (split; [reflexivity|]);
    (split; [split; [discriminate || reflexivity | discriminate || reflexivity]|]);
    (split; [intros reward Hr;
             first [ discriminate Hr
                   | match type of Hr with
                     | Some ?X = _ => replace reward with X by congruence
                     end ] |]);
    unfold Qlt, Qeq, truediv, inject_Z; cbn [Qnum Qden]; lia.
Qed.

(** ** The game log *)

Lemma filter_length_split {A} (p : A -> bool) (l : list A) :
  (List.length (filter p l) + List.length (filter (fun x => negb (p x)) l))%nat
  = List.length l.
Proof.
  induction l as [|a l IH]; simpl; [reflexivity|].
  destruct (p a); simpl; lia.
Qed.

Lemma filter_keys_length {A B} (p : Node -> bool) (F : Node * A -> Node * B)
    (l : list (Node * A)) :
  (forall e, fst (F e) = fst e) ->
  List.length (filter (fun nd => p (fst nd)) (map F l)) =
  List.length (filter p (map fst l)).
Proof.
  intros HF. induction l as [|e l IH]; simpl; [reflexivity|].
  rewrite HF. destruct (p (fst e)); simpl; now rewrite IH.
Qed.

Lemma infected_count (infected nodes : list Node) :
  NoDup infected -> NoDup nodes -> incl infected nodes ->
  List.length (filter (fun n => mem n infected) nodes) = List.length infected.
Proof.
  intros Hi Hn Hincl. apply Nat.le_antisymm.
  - apply NoDup_incl_length; [now apply NoDup_filter|].
    intros x Hx. apply filter_In in Hx. now apply mem_In.
  - apply NoDup_incl_length; [assumption|].
    intros x Hx. apply filter_In. split; [now apply Hincl | now apply mem_In].
Qed.

(** X16. In every state of a game the two node counts that [logGameResults]
    writes are the numbers of nodes its degree averages run over: as many
    attackers as infected nodes of the graph, as many defenders as nodes
    that are not infected.  There is at least one attacker and the number
    of defenders is never negative. *)
Theorem logged_counts (line : Node * Node) (lines : list (Node * Node))
    (sampleDraw : nat) (inputs : list RoundInput) (s : GameState) :
  let s' := exec (runGame inputs)
              (exec (initializeNetwork (line :: lines) sampleDraw) s) in
  numInfectedNodes s' = Z.of_nat (List.length (attackerDegrees s')) /\
  numNotInfectedNodes s' = Z.of_nat (List.length (defenderDegrees s')) /\
  1 <= numInfectedNodes s' /\ 0 <= numNotInfectedNodes s'.
Proof.
  intros s'.
  destruct (game_inv_game line lines sampleDraw inputs s)
    as ((_ & Hin) & _ & Hdn & Hdi & _).
  fold s' in Hin, Hdn, Hdi.
  assert (Hincl : incl (infectedNodes s') (DiGraph.nodes (graph s'))).
  { intros n Hn. apply DiGraphFacts.has_node_In. now apply Hin. }
  pose proof (infected_count _ _ Hdi Hdn Hincl) as Hcount.
  pose proof (filter_length_split (fun n => mem n (infectedNodes s'))
                (DiGraph.nodes (graph s'))) as Hsplit.
  assert (Ha : List.length (attackerDegrees s') = List.length (infectedNodes s')).
  { unfold attackerDegrees, DiGraph.degree. rewrite length_map.
    rewrite (filter_keys_length (fun n => mem n (infectedNodes s'))); [|reflexivity].
    exact Hcount. }
  assert (Hd : List.length (defenderDegrees s') =
               List.length (filter (fun n => negb (mem n (infectedNodes s')))
                              (DiGraph.nodes (graph s')))).
  { unfold defenderDegrees, DiGraph.degree. rewrite length_map.
    now rewrite (filter_keys_length (fun n => negb (mem n (infectedNodes s')))). }
  assert (Hone : (1 <= List.length (infectedNodes s'))%nat).
  { pose proof (initializeNetwork_wf (line :: lines) sampleDraw s ltac:(discriminate))
      as (_ & _ & [node Hnode] & _).
    cbv zeta in Hnode.
    destruct (runGame_evolves inputs
                (exec (initializeNetwork (line :: lines) sampleDraw) s)) as (Hinc & _).
    fold s' in Hinc. rewrite Hnode in Hinc.
    specialize (Hinc node (or_introl eq_refl)).
    destruct (infectedNodes s'); [destruct Hinc | simpl; lia]. }
  unfold numInfectedNodes, numNotInfectedNodes. rewrite Ha, Hd. lia.
Qed.

Lemma split_nonempty sep s : split sep s <> [].
Proof.
  destruct s as [|c rest]; simpl; [discriminate|].
  destruct (Ascii.eqb c sep); [discriminate|].
  destruct (split sep rest); discriminate.
Qed.

Lemma split_whole sep s : occurs sep s = false -> split sep s = [s].
Proof.
  induction s as [|c rest IH]; simpl; [reflexivity|].
  intros H. apply orb_false_iff in H. destruct H as [Hc Hrest].
  rewrite Hc, (IH Hrest). reflexivity.
Qed.

Lemma split_app sep a b :
  split sep (a ++ String sep b) = split sep a ++ split sep b.
Proof.
  induction a as [|c a IH]; simpl.
  - now rewrite Ascii.eqb_refl.
  - rewrite IH. destruct (Ascii.eqb c sep); [reflexivity|].
    pose proof (split_nonempty sep a) as Hne.
    destruct (split sep a); [congruence | reflexivity].
Qed.

Lemma last_app_nonempty {A} (l1 l2 : list A) (d : A) :
  l2 <> [] -> last (l1 ++ l2) d = last l2 d.
Proof.
  intros H. induction l1 as [|x l1 IH]; [reflexivity|].
  simpl. destruct (l1 ++ l2) eqn:E; [|exact IH].
  apply app_eq_nil in E. destruct E. congruence.
Qed.

(** X17. The network name that [logGameResults] writes for a path
    [dir/name.ext], where [name] has neither a slash nor a dot and [ext]
    has no slash, is [name], whatever the directory part, dots and
    parent directories included. *)
Theorem networkName_of_path (dir name ext : string) :
  occurs "/"%char name = false -> occurs "."%char name = false ->
  occurs "/"%char ext = false ->
  networkName (dir ++ String "/"%char (name ++ String "."%char ext)) = name.
Proof.
  intros Hslash Hdot Hext. unfold networkName.
  rewrite split_app, last_app_nonempty by apply split_nonempty.
  assert (Hfile : occurs "/"%char (name ++ String "."%char ext) = false).
  { clear Hdot. induction name as [|c name IH]; simpl in *; [exact Hext|].
    apply orb_false_iff in Hslash. destruct Hslash as [-> Hrest]. now apply IH. }
  rewrite (split_whole _ _ Hfile). cbn [last].
  rewrite split_app, (split_whole _ _ Hdot). reflexivity.
Qed.

Lemma networkName_of_path_witness :
  occurs "/"%char "defaultNetwork" = false /\
  occurs "."%char "defaultNetwork" = false /\
  occurs "/"%char "csv" = false /\
  networkName "../networks/defaultNetwork.csv" = "defaultNetwork"%string.
Proof.
  split; [reflexivity|]. split; [reflexivity|]. split; [reflexivity|].
  exact (networkName_of_path "../networks" "defaultNetwork" "csv"
           eq_refl eq_refl eq_refl).
Defined.

(** ** The network of the file *)

Lemma addNetworkLine_dataset s line : dataset (addNetworkLine s line) = dataset s.
Proof.
  unfold addNetworkLine. cbv zeta.
  destruct (DiGraph.has_node (graph s) (fst line));
    match goal with |- context [if ?b then _ else _] => destruct b end; reflexivity.
Qed.

Lemma fold_addNetworkLine_dataset lines : forall s,
  dataset (fold_left addNetworkLine lines s) = dataset s.
Proof.
  induction lines as [|line lines IH]; intros s; simpl; [reflexivity|].
  now rewrite IH, addNetworkLine_dataset.
Qed.

Lemma initializeNetwork_dataset lines sampleDraw s :
  dataset (exec (initializeNetwork lines sampleDraw) s) = dataset s.
Proof.
  pose proof (initializeNetwork_cases lines sampleDraw s) as H. cbv zeta in H.
  unfold exec.
  destruct (random.sample1 _ sampleDraw) as [infected|e].
  - destruct (recomputeReachable _); rewrite H; simpl;
      apply (fold_addNetworkLine_dataset lines (set_graph [] s)).
  - rewrite H. simpl. apply (fold_addNetworkLine_dataset lines (set_graph [] s)).
Qed.

Lemma runGame_stable inputs : preserves stable (runGame inputs).
Proof.
  apply (steps_runGame _ stable_refl stable_trans); try (intros; now split).
  - intros d s. destruct (infectNode_fields d s) as (_ & Hd & _ & Hg).
    split; [assumption | now rewrite Hg].
  - intros o d l s. now destruct (quarantineNode_fields o d l s) as (_ & Hd & _ & Hn).
Qed.

(** X18. A game never adds to the network of the file: in every state of
    a game the nodes of the graph are those [initializeNetwork] built, in
    the same order, every edge of the graph is a line of the network
    file, the dataset is the one the game started with, and the infected
    nodes are distinct nodes of the graph. *)
Theorem game_keeps_network (line : Node * Node) (lines : list (Node * Node))
    (sampleDraw : nat) (inputs : list RoundInput) (s : GameState) :
  let s0 := exec (initializeNetwork (line :: lines) sampleDraw) s in
  let s' := exec (runGame inputs) s0 in
  DiGraph.nodes (graph s') = DiGraph.nodes (graph s0) /\
  (forall a b, DiGraph.has_edge (graph s') a b = true -> In (a, b) (line :: lines)) /\
  dataset s' = dataset s /\
  NoDup (infectedNodes s') /\
  (forall n, In n (infectedNodes s') -> In n (DiGraph.nodes (graph s'))).
Proof.
  intros s0 s'.
  destruct (runGame_stable inputs s0) as [Hd Hn]. fold s' in Hd, Hn.
  destruct (runGame_evolves inputs s0) as (_ & _ & He). fold s' in He.
  destruct (game_inv_game line lines sampleDraw inputs s)
    as ((_ & Hin) & _ & _ & Hdi & _).
  fold s0 s' in Hin, Hdi.
  split; [exact Hn|]. split; [|split; [|split]].
  - intros a b Hab. apply He in Hab. subst s0.
    destruct (initializeNetwork_built (line :: lines) sampleDraw s) as [Hg _].
    rewrite Hg in Hab.
    destruct (fold_addNetworkLine_graph (line :: lines) (set_graph [] s)) as (Hedge & _).
    rewrite Hedge in Hab. simpl DiGraph.has_edge in Hab.
    change (DiGraph.has_edge (graph (set_graph [] s)) a b) with false in Hab.
    rewrite orb_false_l in Hab. apply existsb_exists in Hab.
    destruct Hab as [l [Hl Hab]]. apply line_is_true in Hab. now subst.
  - rewrite Hd. apply initializeNetwork_dataset.
  - exact Hdi.
  - intros n H. apply DiGraphFacts.has_node_In. now apply Hin.
Qed.

(** ** How the infection spreads *)

Lemma keeps_spread_refl s : keeps_spread s s.
Proof.
  intros Hwf. split; [exact Hwf|]. split; [apply evolves_refl|].
  intros n Hn. now left.
Qed.

Lemma keeps_spread_trans a b c :
  keeps_spread a b -> keeps_spread b c -> keeps_spread a c.
Proof.
  intros Hab Hbc Hwf. destruct (Hab Hwf) as (Hwfb & Eab & Sab).
  destruct (Hbc Hwfb) as (Hwfc & Ebc & Sbc).
  split; [exact Hwfc|]. split; [eapply evolves_trans; eassumption|].
  intros n Hn. destruct (Sbc n Hn) as [Hb|[u Hu]]; [now apply Sab|].
  right. exists u. now apply Eab.
Qed.

Lemma keeps_spread_same s s' :
  graph s' = graph s -> infectedNodes s' = infectedNodes s ->
  quarantinedNodes s' = quarantinedNodes s -> keeps_spread s s'.
Proof.
  intros Hg Hi Hq [Hc Hin]. split; [|split].
  - split; [intros u v; rewrite Hg; apply Hc | intros n; rewrite Hg, Hi; apply Hin].
  - now apply evolves_same.
  - intros n Hn. left. now rewrite <- Hi.
Qed.

Lemma processMessage_spread inp trafficInfo attackIndex key position message :
  preserves keeps_spread (processMessage inp trafficInfo attackIndex key position message).
Proof.
  intros s Hwf.
  destruct (DiGraph.has_edge (graph s) (Message.origin message)
              (Message.destination message)) eqn:He.
  2: { unfold exec. rewrite processMessage_dropped by assumption.
       now apply keeps_spread_refl. }
  split; [now apply processMessage_wf|]. split; [apply processMessage_evolves|].
  pose proof (processMessage_fields inp trafficInfo attackIndex key position message s
                Hwf He) as H.
  cbv zeta in H. destruct H as (_ & _ & _ & Hi & _).
  intros n Hn. rewrite Hi in Hn.
  match type of Hn with
  | In n (infectedNodes (exec (labelAction message ?label) ?s1)) =>
      destruct (labelAction_effect message label s1 He) as (_ & Hinf & _)
  end.
  rewrite Hinf in Hn.
  match type of Hn with In n (if ?b then _ else _) => destruct b end;
    [|now left].
  apply in_app_or in Hn. destruct Hn as [Hn|[<-|[]]]; [now left|].
  right. now exists (Message.origin message).
Qed.

Lemma runGame_spread inputs : preserves keeps_spread (runGame inputs).
Proof.
  assert (Hround : forall inp, preserves keeps_spread (runRound inp)).
  { intros inp. unfold runRound, processQueues.
    apply (preserves_bind _ keeps_spread_trans);
      [apply preserves_modify; intros s; now apply keeps_spread_same | intros _].
    apply (preserves_bind _ keeps_spread_trans).
    { intros s. destruct (generateTrafficQueues_world inp s) as (Hg & Hi & Hq & _).
      now apply keeps_spread_same. }
    intros r. apply (preserves_bind _ keeps_spread_trans);
      [apply preserves_modify; intros s; now apply keeps_spread_same | intros _].
    apply (preserves_forM_ _ keeps_spread_refl keeps_spread_trans). intros kq.
    generalize 0%nat. induction (snd kq) as [|message rest IH]; intros position; simpl.
    - apply (preserves_ret _ keeps_spread_refl).
    - apply (preserves_bind _ keeps_spread_trans);
        [apply processMessage_spread | intros _; apply IH]. }
  induction inputs as [|inp rest IH]; simpl.
  - apply (preserves_ret _ keeps_spread_refl).
  - apply (preserves_bind _ keeps_spread_trans);
      [apply (preserves_lift _ keeps_spread_refl) | intros s0].
    destruct (gameOver s0); [apply (preserves_ret _ keeps_spread_refl)|].
    apply (preserves_bind _ keeps_spread_trans); [apply Hround | intros _; exact IH].
Qed.

(** X19. The infection spreads along the lines of the network file only:
    in every state of a game an infected node is the node infected at the
    start or the sink of a line of the file.  A node that no line points
    to is never infected during the game. *)
Theorem infection_follows_lines (line : Node * Node) (lines : list (Node * Node))
    (sampleDraw : nat) (inputs : list RoundInput) (s : GameState) :
  let s0 := exec (initializeNetwork (line :: lines) sampleDraw) s in
  let s' := exec (runGame inputs) s0 in
  exists first, infectedNodes s0 = [first] /\
    forall n, In n (infectedNodes s') ->
      n = first \/ exists u, In (u, n) (line :: lines).
Proof.
  intros s0 s'.
  pose proof (initializeNetwork_wf (line :: lines) sampleDraw s ltac:(discriminate))
    as (_ & Hwf & [first Hfirst] & _).
  cbv zeta in Hwf, Hfirst. fold s0 in Hwf, Hfirst.
  exists first. split; [exact Hfirst|].
  destruct (runGame_spread inputs s0 Hwf) as (_ & _ & Hs). fold s' in Hs.
  intros n Hn. destruct (Hs n Hn) as [H0|[u Hu]].
  - rewrite Hfirst in H0. destruct H0 as [<-|[]]. now left.
  - right. exists u. subst s0.
    destruct (initializeNetwork_built (line :: lines) sampleDraw s) as [Hg _].
    rewrite Hg in Hu.
    destruct (fold_addNetworkLine_graph (line :: lines) (set_graph [] s)) as (Hedge & _).
    rewrite Hedge in Hu.
    change (DiGraph.has_edge (graph (set_graph [] s)) u n) with false in Hu.
    rewrite orb_false_l in Hu. apply existsb_exists in Hu.
    destruct Hu as [l [Hl Hu]]. apply line_is_true in Hu. now subst.
Qed.

(** ** The infection reward of a node *)

Lemma filter_length_all {A} (p : A -> bool) (l : list A) :
  List.length (filter p l) = List.length l <-> forall x, In x l -> p x = true.
Proof.
  induction l as [|a l IH]; simpl.
  - split; [intros _ x [] | reflexivity].
  - pose proof (filter_length_le p l) as Hle. destruct (p a) eqn:Hp; simpl.
    + split.
      * intros H x [<-|Hx]; [assumption|]. apply IH; [lia | assumption].
      * intros H. f_equal. apply IH. intros x Hx. apply H. now right.
    + split; [lia|]. intros H. specialize (H a (or_introl eq_refl)). congruence.
Qed.

Lemma filter_length_mono {A} (p q : A -> bool) (l : list A) :
  (forall x, p x = true -> q x = true) ->
  (List.length (filter p l) <= List.length (filter q l))%nat.
Proof.
  intros H. induction l as [|a l IH]; simpl; [lia|].
  destruct (p a) eqn:Hp.
  - rewrite (H a Hp). simpl. lia.
  - destruct (q a); simpl; lia.
Qed.

(** X20. For a node of the graph [calculateNodeInfectionReward] returns a
    number between 0 and the number of its successors plus one: 0 exactly
    when the node is infected, the maximum exactly when neither the node
    nor any of its successors is infected.  On the same graph the reward
    of a node never grows when more nodes are infected.  For a node that
    is not in the graph it raises NetworkXError, unless the node is in
    [infectedNodes]. *)
Theorem calculateNodeInfectionReward_bounds (s : GameState) (node : Node) :
  match DiGraph.adj (graph s) node with
  | Some nbrs =>
      exists reward,
        calculateNodeInfectionReward s node = Val reward /\
        0 <= reward <= Z.of_nat (List.length nbrs) + 1 /\
        (reward = 0 <-> In node (infectedNodes s)) /\
        (reward = Z.of_nat (List.length nbrs) + 1 <->
         ~ In node (infectedNodes s) /\
         forall n, In n nbrs -> ~ In n (infectedNodes s)) /\
        (forall s' reward',
           graph s' = graph s -> incl (infectedNodes s) (infectedNodes s') ->
           calculateNodeInfectionReward s' node = Val reward' -> reward' <= reward)
  | None =>
      calculateNodeInfectionReward s node =
      if mem node (infectedNodes s) then Val 0 else Raise NetworkXError
  end.
Proof.
  unfold calculateNodeInfectionReward, DiGraph.neighbors.
  destruct (DiGraph.adj (graph s) node) as [nbrs|] eqn:Ha; [|reflexivity].
  set (p := fun neighbor => negb (mem neighbor (infectedNodes s))).
  pose proof (filter_length_le p nbrs) as Hle.
  assert (Hmono : forall s' reward',
            graph s' = graph s -> incl (infectedNodes s) (infectedNodes s') ->
            (if mem node (infectedNodes s') then Val 0
             else obind (match DiGraph.adj (graph s') node with
                         | Some vs => Val vs
                         | None => Raise NetworkXError
                         end)
                    (fun neighbors =>
                       Val (1 + Z.of_nat (List.length
                              (filter (fun neighbor =>
                                         negb (mem neighbor (infectedNodes s')))
                                 neighbors))))) = Val reward' ->
            reward' <= 1 + Z.of_nat (List.length (filter p nbrs)) /\
            (mem node (infectedNodes s) = true -> reward' = 0)).
  { intros s' reward' Hg Hincl. rewrite Hg, Ha. cbn [obind].
    destruct (mem node (infectedNodes s')) eqn:Hm'.
    - intros Hr. replace reward' with 0 by congruence. split; [lia | reflexivity].
    - intros Hr.
      match type of Hr with Val ?X = _ => replace reward' with X by congruence end.
      split.
      + pose proof (filter_length_mono
                      (fun neighbor => negb (mem neighbor (infectedNodes s'))) p nbrs)
          as Hlen.
        assert (Himp : forall x, negb (mem x (infectedNodes s')) = true -> p x = true).
        { intros x Hx. unfold p. apply negb_true_iff in Hx. apply negb_true_iff.
          apply mem_false_In. apply mem_false_In in Hx. intros Hin. apply Hx.
          now apply Hincl. }
        specialize (Hlen Himp). lia.
      + intros Hm. apply mem_In in Hm. apply Hincl in Hm. apply mem_In in Hm. congruence. }
  destruct (mem node (infectedNodes s)) eqn:Hm.
  - exists 0. split; [reflexivity|]. split; [lia|]. apply mem_In in Hm. split; [tauto|].
    split.
    + split; [lia | intros [Hn _]; contradiction].
    + intros s' reward' Hg Hincl Hr.
      destruct (Hmono s' reward' Hg Hincl Hr) as [_ H0]. rewrite H0; [lia | reflexivity].
  - cbn [obind]. eexists. split; [reflexivity|]. apply mem_false_In in Hm.
    split; [lia|]. split; [split; [lia | contradiction]|]. split.
    + split.
      * intros H. split; [assumption|]. intros n Hn.
        assert (Hall : List.length (filter p nbrs) = List.length nbrs) by lia.
        apply (proj1 (filter_length_all p nbrs)) with (x := n) in Hall; [|assumption].
        unfold p in Hall. apply negb_true_iff in Hall. now apply mem_false_In.
      * intros [_ Hall].
        assert (Hlen : List.length (filter p nbrs) = List.length nbrs).
        { apply filter_length_all. intros x Hx. unfold p. apply negb_true_iff.
          apply mem_false_In. now apply Hall. }
        lia.
    + intros s' reward' Hg Hincl Hr. now destruct (Hmono s' reward' Hg Hincl Hr).
Qed.

(** ** The attacker points of a round *)

(** One message of the round loop, processed or dropped. *)
Lemma processMessage_run_or_drop inp trafficInfo attackIndex key position message s :
  wf_state s ->
  let s' := exec (processMessage inp trafficInfo attackIndex key position message) s in
  let malicious :=
    filter maliciousOf
      (if DiGraph.has_edge (graph s) (Message.origin message)
            (Message.destination message)
       then [(message, labelOf inp key position, s)] else []) in
  result (processMessage inp trafficInfo attackIndex key position message) s = Val tt /\
  wf_state s' /\
  attackerPoints (attacker s') =
    attackerPoints (attacker s) ++
    map (fun x => (trafficInfo, attackIndex, attackerRewardOf x)) malicious /\
  lastAttackerScore s' = last (map attackerRewardOf malicious) (lastAttackerScore s).
Proof.
  intros Hwf s' malicious. subst s' malicious.
  destruct (DiGraph.has_edge (graph s) (Message.origin message)
              (Message.destination message)) eqn:He.
  - destruct (processMessage_run inp trafficInfo attackIndex key position message s Hwf He)
      as (score & Hscore & Hres & Hwf' & _ & Hpts & _ & Hlast).
    split; [exact Hres|]. split; [exact Hwf'|].
    rewrite Hpts, Hlast. cbn [filter]. unfold maliciousOf. cbn [fst snd].
    destruct (Message.isMalicious message); cbn [map last];
      [|split; reflexivity].
    unfold attackerRewardOf, labelOf. cbn [fst snd]. rewrite Hscore.
    split; reflexivity.
  - unfold result, exec. rewrite processMessage_dropped by assumption.
    cbn. split; [reflexivity|]. split; [exact Hwf|]. split; [now rewrite app_nil_r|].
    reflexivity.
Qed.

Lemma last_default {A} (l : list A) (d d' : A) : l <> [] -> last l d = last l d'.
Proof.
  induction l as [|x l IH]; intros H; [congruence|].
  destruct l as [|y l]; [reflexivity|]. apply IH. discriminate.
Qed.

Lemma last_app_default {A} (l1 l2 : list A) (d : A) :
  last (l1 ++ l2) d = last l2 (last l1 d).
Proof.
  destruct l2 as [|a l2]; [now rewrite app_nil_r|].
  rewrite last_app_nonempty by discriminate. apply last_default. discriminate.
Qed.

(** The loop over a queue handles its messages one by one, in order: on
    a well-formed state it returns, and the attacker has one more point
    for each processed message that is malicious. *)
Lemma processQueue_run inp trafficInfo attackIndex key queue : forall position s,
  wf_state s ->
  let s' := afterQueue inp trafficInfo attackIndex key position queue s in
  let malicious :=
    filter maliciousOf
      (processedOfQueue inp trafficInfo attackIndex key position queue s) in
  processQueue inp trafficInfo attackIndex key position queue s = (Val tt, s') /\
  wf_state s' /\
  attackerPoints (attacker s') =
    attackerPoints (attacker s) ++
    map (fun x => (trafficInfo, attackIndex, attackerRewardOf x)) malicious /\
  lastAttackerScore s' = last (map attackerRewardOf malicious) (lastAttackerScore s).
Proof.
  induction queue as [|message rest IH]; intros position s Hwf.
  - cbn. split; [reflexivity|]. split; [exact Hwf|]. split; [now rewrite app_nil_r|].
    reflexivity.
  - cbn [afterQueue processedOfQueue processQueue].
    destruct (processMessage_run_or_drop inp trafficInfo attackIndex key position message
                s Hwf) as (Hres & Hwf1 & Hpts & Hlast).
    set (s1 := exec (processMessage inp trafficInfo attackIndex key position message) s)
      in *.
    destruct (IH (S position) s1 Hwf1) as (Hrun & Hwf2 & Hpts2 & Hlast2).
    cbv zeta. split; [|split; [exact Hwf2|split]].
    + unfold bind. rewrite (run_val _ _ Hres). exact Hrun.
    + rewrite Hpts2, Hpts, filter_app, map_app, app_assoc. reflexivity.
    + rewrite Hlast2, Hlast, filter_app, map_app, last_app_default. reflexivity.
Qed.

Lemma processQueues_run inp trafficInfo attackIndex queues : forall s,
  wf_state s ->
  let s' := afterQueues inp trafficInfo attackIndex queues s in
  let malicious :=
    filter maliciousOf (processedOfQueues inp trafficInfo attackIndex queues s) in
  processQueues inp trafficInfo attackIndex queues s = (Val tt, s') /\
  wf_state s' /\
  attackerPoints (attacker s') =
    attackerPoints (attacker s) ++
    map (fun x => (trafficInfo, attackIndex, attackerRewardOf x)) malicious /\
  lastAttackerScore s' = last (map attackerRewardOf malicious) (lastAttackerScore s).
Proof.
  unfold processQueues.
  induction queues as [|kq rest IH]; intros s Hwf.
  - cbn. split; [reflexivity|]. split; [exact Hwf|]. split; [now rewrite app_nil_r|].
    reflexivity.
  - cbn [afterQueues processedOfQueues forM_].
    destruct (processQueue_run inp trafficInfo attackIndex (fst kq) (snd kq) 0%nat s Hwf)
      as (Hrun1 & Hwf1 & Hpts1 & Hlast1).
    destruct (IH _ Hwf1) as (Hrun & Hwf2 & Hpts2 & Hlast2).
    cbv zeta. split; [|split; [exact Hwf2|split]].
    + unfold bind. rewrite Hrun1. exact Hrun.
    + rewrite Hpts2, Hpts1, filter_app, map_app, app_assoc. reflexivity.
    + rewrite Hlast2, Hlast1, filter_app, map_app, last_app_default. reflexivity.
Qed.

(** A message of a queue whose edge is still in the graph after the queue
    was processed when its turn came. *)
Lemma afterQueue_evolves inp trafficInfo attackIndex key queue : forall position s,
  evolves s (afterQueue inp trafficInfo attackIndex key position queue s).
Proof.
  induction queue as [|message rest IH]; intros position s; simpl.
  - apply evolves_refl.
  - eapply evolves_trans; [apply processMessage_evolves | apply IH].
Qed.

Lemma afterQueues_evolves inp trafficInfo attackIndex queues : forall s,
  evolves s (afterQueues inp trafficInfo attackIndex queues s).
Proof.
  induction queues as [|kq rest IH]; intros s; simpl.
  - apply evolves_refl.
  - eapply evolves_trans; [apply afterQueue_evolves | apply IH].
Qed.

Lemma processedOfQueue_surviving inp trafficInfo attackIndex key queue :
  forall position s message,
  In message queue ->
  DiGraph.has_edge
    (graph (afterQueue inp trafficInfo attackIndex key position queue s))
    (Message.origin message) (Message.destination message) = true ->
  In message
    (map (fun x : Processed => fst (fst x))
       (processedOfQueue inp trafficInfo attackIndex key position queue s)).
Proof.
  induction queue as [|m rest IH]; intros position s message Hin He; [destruct Hin|].
  cbn [afterQueue processedOfQueue] in *. rewrite map_app. apply in_or_app.
  destruct Hin as [<-|Hin].
  - left.
    destruct (afterQueue_evolves inp trafficInfo attackIndex key rest (S position)
                (exec (processMessage inp trafficInfo attackIndex key position m) s))
      as (_ & _ & E1).
    destruct (processMessage_evolves inp trafficInfo attackIndex key position m s)
      as (_ & _ & E0).
    rewrite (E0 _ _ (E1 _ _ He)). now left.
  - right. now apply IH.
Qed.

Lemma processedOfQueues_surviving inp trafficInfo attackIndex queues :
  forall s kq message,
  In kq queues -> In message (snd kq) ->
  DiGraph.has_edge (graph (afterQueues inp trafficInfo attackIndex queues s))
    (Message.origin message) (Message.destination message) = true ->
  In message
    (map (fun x : Processed => fst (fst x))
       (processedOfQueues inp trafficInfo attackIndex queues s)).
Proof.
  induction queues as [|q rest IH]; intros s kq message Hq Hm He; [destruct Hq|].
  cbn [afterQueues processedOfQueues] in *. rewrite map_app. apply in_or_app.
  destruct Hq as [<-|Hq].
  - left. apply processedOfQueue_surviving; [assumption|].
    destruct (afterQueues_evolves inp trafficInfo attackIndex rest
                (afterQueue inp trafficInfo attackIndex (fst q) 0 (snd q) s))
      as (_ & _ & E).
    now apply E.
  - right. eapply IH; eassumption.
Qed.

(** C10. A processed message (its edge is in the graph) whose malicious
    flag is set, the attacker's own or background traffic alike, adds
    exactly one attacker training point (trafficInfo, attackIndex,
    attackerReward) and makes its reward the last attacker score; every
    attacker point added by the processing of a round carries the state
    vector of the round and the action index the Attacker returned for
    it.  Over a whole round: the messages of the queues are processed in
    order, queue by queue, and the round adds to the attacker's points
    exactly one point for every processed message that is malicious, in
    that order, each with the reward [calculateScore] gave on the state
    the message found; the last attacker score is the reward of the last
    of them, or 0 when there is none.  A message of the queues whose edge
    is still in the graph when the round ends was processed. *)
Theorem attacker_point_per_malicious_message :
  (forall inp trafficInfo attackIndex key position message s,
     wf_state s ->
     DiGraph.has_edge (graph s) (Message.origin message) (Message.destination message)
       = true ->
     Message.isMalicious message = true ->
     let label := if skipDraw inp key position then NO_SUSPICION_LABEL
                  else inspect inp key position in
     let s' := exec (processMessage inp trafficInfo attackIndex key position message) s in
     exists attackerReward defenderReward,
       calculateScore s message label = Val (attackerReward, defenderReward) /\
       attackerPoints (attacker s') =
         attackerPoints (attacker s) ++ [(trafficInfo, attackIndex, attackerReward)] /\
       lastAttackerScore s' = attackerReward) /\
  (forall inp s r s1,
     generateTrafficQueues inp (set_roundNumber (roundNumber s + 1) s) = (Val r, s1) ->
     attacker_gains (fun p => fst p = (snd (fst r), snd (getAttack inp)))
       (set_lastAttackerScore (Some (inject_Z 0)) s1) (exec (runRound inp) s)) /\
  (forall inp s queues trafficInfo attackIndex s1,
     wf_state s ->
     generateTrafficQueues inp (set_roundNumber (roundNumber s + 1) s)
       = (Val (queues, trafficInfo, attackIndex), s1) ->
     let s' := exec (runRound inp) s in
     let processed :=
       processedOfQueues inp trafficInfo attackIndex queues
         (set_lastAttackerScore (Some (inject_Z 0)) s1) in
     let malicious := filter maliciousOf processed in
     attackIndex = snd (getAttack inp) /\
     result (runRound inp) s = Val tt /\
     attackerPoints (attacker s') =
       attackerPoints (attacker s1) ++
       map (fun x => (trafficInfo, attackIndex, attackerRewardOf x)) malicious /\
     lastAttackerScore s' =
       last (map attackerRewardOf malicious) (Some (inject_Z 0)) /\
     (forall kq message,
        In kq queues -> In message (snd kq) ->
        DiGraph.has_edge (graph s') (Message.origin message)
          (Message.destination message) = true ->
        In message (map (fun x : Processed => fst (fst x)) processed))).
Proof.
  split; [|split].
  - intros inp ti idx key pos message s Hwf He Hm label s'.
    destruct (processMessage_run inp ti idx key pos message s Hwf He)
      as ([ar dr] & Hs & _ & _ & _ & Hap & _ & Hl).
    rewrite Hm in Hap, Hl. exists ar, dr. repeat split; assumption.
  - intros inp s r s1 H. unfold exec at 1. rewrite (runRound_eq inp s r s1 H).
    apply processQueues_gains.
  - intros inp s queues ti idx s1 Hwf Hgen s' processed malicious.
    pose proof (generateTrafficQueues_index inp _ _ _ Hgen) as Hidx. simpl in Hidx.
    pose proof (runRound_eq inp s _ s1 Hgen) as Hround. simpl in Hround.
    rewrite <- Hidx in Hround.
    assert (Hwf1 : wf_state (set_lastAttackerScore (Some (inject_Z 0)) s1)).
    { pose proof (generateTrafficQueues_topology inp
                    (set_roundNumber (roundNumber s + 1) s)) as [Hg Hi].
      unfold exec in Hg, Hi. rewrite Hgen in Hg, Hi. simpl in Hg, Hi.
      destruct Hwf as [Hc Hin]. split.
      - intros u v. simpl. rewrite Hg. apply Hc.
      - intros n. simpl. rewrite Hg, Hi. apply Hin. }
    destruct (processQueues_run inp ti idx queues _ Hwf1) as (Hrun & _ & Hpts & Hlast).
    split; [exact Hidx|].
    assert (Hs' : s' = afterQueues inp ti idx queues
                         (set_lastAttackerScore (Some (inject_Z 0)) s1)).
    { subst s'. unfold exec. now rewrite Hround, Hrun. }
    split; [unfold result; now rewrite Hround, Hrun|].
    rewrite Hs'. split; [exact Hpts|]. split; [exact Hlast|].
    intros kq message Hq Hm He. eapply processedOfQueues_surviving; eassumption.
Qed.

Lemma attacker_point_per_malicious_message_witness :
  let s := Scenario.chain Scenario.rows2 in
  let out := generateTrafficQueues Scenario.quiet (set_roundNumber (roundNumber s + 1) s) in
  let queues := match fst out with Val r => fst (fst r) | Raise _ => [] end in
  let trafficInfo := match fst out with Val r => snd (fst r) | Raise _ => [] end in
  let s1 := snd out in
  let processed :=
    processedOfQueues Scenario.quiet trafficInfo 3 queues
      (set_lastAttackerScore (Some (inject_Z 0)) s1) in
  wf_state s /\
  DiGraph.has_edge (graph s)
    (Message.origin Scenario.background) (Message.destination Scenario.background) = true /\
  Message.isMalicious Scenario.background = true /\
  (exists attackerReward defenderReward,
     calculateScore s Scenario.background NO_SUSPICION_LABEL
       = Val (attackerReward, defenderReward) /\
     attackerPoints
       (attacker (exec (processMessage Scenario.quiet [] 3 "B"%string 0 Scenario.background)
                    s))
       = [([], 3, attackerReward)] /\
     lastAttackerScore
       (exec (processMessage Scenario.quiet [] 3 "B"%string 0 Scenario.background) s)
       = attackerReward) /\
  out = (Val (queues, trafficInfo, 3), s1) /\
  dict_get queues "B"%string = Some [Scenario.background] /\
  map (fun x : Processed => fst (fst x)) (filter maliciousOf processed)
    = [Scenario.background] /\
  attackerPoints (attacker (exec (runRound Scenario.quiet) s)) =
    attackerPoints (attacker s1) ++
    map (fun x => (trafficInfo, 3, attackerRewardOf x)) (filter maliciousOf processed) /\
  List.length (attackerPoints (attacker s1)) = 1%nat /\
  List.length (attackerPoints (attacker (exec (runRound Scenario.quiet) s))) = 2%nat.
Proof.
  intros s out queues trafficInfo s1 processed.
  destruct attacker_point_per_malicious_message as (Hmsg & _ & Hround).
  assert (Hgen : out = (Val (queues, trafficInfo, 3), s1)) by reflexivity.
  destruct (Hround Scenario.quiet s queues trafficInfo 3 s1 (chain_wf _) Hgen)
    as (_ & _ & Hpts & _).
  split; [apply chain_wf|]. split; [reflexivity|]. split; [reflexivity|].
  split; [exact (Hmsg Scenario.quiet [] 3 "B"%string 0%nat Scenario.background
                   s (chain_wf _) eq_refl eq_refl)|].
  split; [exact Hgen|]. split; [reflexivity|]. split; [reflexivity|].
  split; [exact Hpts|]. split; [reflexivity|].
  rewrite Hpts. reflexivity.
Defined.

(** ** The network file *)

Lemma split_two sep s :
  occurs sep s = true -> exists a b rest, split sep s = a :: b :: rest.
Proof.
  induction s as [|c s IH]; simpl; [discriminate|].
  destruct (Ascii.eqb c sep) eqn:E; simpl.
  - intros _. pose proof (split_nonempty sep s) as Hne.
    destruct (split sep s) as [|b rest]; [congruence|]. now eexists _, _, _.
  - intros H. destruct (IH H) as (a & b & rest & ->). now eexists _, _, _.
Qed.

Lemma parseLine_cases line :
  if occurs ","%char line
  then exists fields, parseLine line = Val fields
  else parseLine line = Raise IndexError.
Proof.
  unfold parseLine. destruct (occurs ","%char line) eqn:H.
  - destruct (split_two _ _ H) as (a & b & rest & ->). now eexists.
  - now rewrite (split_whole _ _ H).
Qed.

Lemma parseLine_raises line e : parseLine line = Raise e -> e = IndexError.
Proof.
  unfold parseLine.
  destruct (nth_error _ 0); [|congruence]. destruct (nth_error _ 1); congruence.
Qed.

Lemma parsedPrefix_all lines : forall pairs,
  omap parseLine lines = Val pairs -> parsedPrefix lines = pairs.
Proof.
  induction lines as [|line rest IH]; simpl; intros pairs H.
  - congruence.
  - destruct (parseLine line) as [fields|e]; [|discriminate]. cbn [obind] in H.
    destruct (omap parseLine rest) as [ps|e]; [|discriminate]. cbn [obind] in H.
    injection H as <-. now rewrite (IH ps eq_refl).
Qed.

Lemma omap_parseLine_raises lines e :
  omap parseLine lines = Raise e ->
  Exists (fun line => occurs ","%char line = false) lines.
Proof.
  induction lines as [|line rest IH]; [discriminate|].
  cbn [omap]. pose proof (parseLine_cases line) as Hc.
  destruct (occurs ","%char line) eqn:Ho.
  - destruct Hc as [fields ->]. cbn [obind].
    destruct (omap parseLine rest) as [ps|e']; [discriminate|].
    cbn [obind]. intros H. apply Exists_cons_tl. apply IH. exact H.
  - intros _. apply Exists_cons_hd. exact Ho.
Qed.

Lemma omap_parseLine_returns lines pairs :
  omap parseLine lines = Val pairs ->
  Forall (fun line => occurs ","%char line = true) lines.
Proof.
  revert pairs. induction lines as [|line rest IH]; simpl; intros pairs H;
    [constructor|].
  pose proof (parseLine_cases line) as Hc.
  destruct (occurs ","%char line) eqn:Ho; [|rewrite Hc in H; discriminate].
  destruct (parseLine line) as [fields|e]; [|discriminate]. cbn [obind] in H.
  destruct (omap parseLine rest) as [ps|e]; [|discriminate].
  constructor; [exact Ho | now apply (IH ps)].
Qed.

(** The loop over the lines adds the lines that parse, up to the first
    that does not, and raises IndexError there. *)
Lemma addNetworkLines_run lines : forall s,
  addNetworkLines lines s =
  (match omap parseLine lines with Val _ => Val tt | Raise _ => Raise IndexError end,
   fold_left addNetworkLine (parsedPrefix lines) s).
Proof.
  induction lines as [|line rest IH]; intros s; [reflexivity|].
  cbn [addNetworkLines omap parsedPrefix]. unfold bind, lift, modify.
  destruct (parseLine line) as [fields|e] eqn:Hp.
  - cbn [obind fold_left]. rewrite IH.
    now destruct (omap parseLine rest).
  - now rewrite (parseLine_raises _ _ Hp).
Qed.

Lemma initializeNetworkFile_cases fileLines sampleDraw s :
  match omap parseLine (tl fileLines) with
  | Raise _ =>
      initializeNetworkFile fileLines sampleDraw s =
      (Raise IndexError,
       fold_left addNetworkLine (parsedPrefix (tl fileLines)) (set_graph [] s))
  | Val pairs =>
      initializeNetworkFile fileLines sampleDraw s = initializeNetwork pairs sampleDraw s
  end.
Proof.
  pose proof (addNetworkLines_run (tl fileLines) (set_graph [] s)) as Hrun.
  destruct (omap parseLine (tl fileLines)) as [pairs|e] eqn:Hp.
  - rewrite (parsedPrefix_all _ _ Hp) in Hrun.
    unfold initializeNetworkFile, initializeNetwork, bind, modify, lift.
    now rewrite Hrun.
  - unfold initializeNetworkFile, bind, modify, lift. now rewrite Hrun.
Qed.

Lemma fold_addNetworkLine_successors lines : forall s,
  successors_distinct (graph s) ->
  successors_distinct (graph (fold_left addNetworkLine lines s)).
Proof.
  induction lines as [|line rest IH]; intros s H; simpl; [exact H|].
  apply IH. rewrite BuildFacts.addNetworkLine_graph.
  assert (Hnode : forall g n, successors_distinct g ->
                               successors_distinct (DiGraph.add_node g n)).
  { intros g n Hg m vs. rewrite BuildFacts.adj_add_node.
    destruct (DiGraph.adj g m) as [ws|] eqn:Hm.
    - intros [= <-]. now apply (Hg m).
    - destruct (String.eqb n m); [intros [= <-]; constructor | discriminate]. }
  intros n vs. unfold DiGraph.add_edge. cbv zeta. rewrite DiGraphFacts.adj_set_adj.
  set (g1 := DiGraph.add_node
               (DiGraph.add_node
                  (DiGraph.add_node (DiGraph.add_node (graph s) (fst line)) (snd line))
                  (fst line)) (snd line)).
  assert (H1 : successors_distinct g1) by (unfold g1; auto).
  destruct (String.eqb (fst line) n); [|apply H1].
  destruct (DiGraph.adj g1 (fst line)) as [ws|] eqn:Hw; [|discriminate].
  simpl. intros [= <-]. specialize (H1 _ _ Hw).
  destruct (mem (snd line) ws) eqn:Hm; [assumption | now apply NoDup_snoc].
Qed.

(** The graph and the colours [initializeNetworkFile] leaves are those of
    the parsed prefix of the data lines, whether it returns or raises. *)
Lemma initializeNetworkFile_built fileLines sampleDraw s :
  let s1 := fold_left addNetworkLine (parsedPrefix (tl fileLines)) (set_graph [] s) in
  graph (exec (initializeNetworkFile fileLines sampleDraw) s) = graph s1 /\
  colorMap (exec (initializeNetworkFile fileLines sampleDraw) s) = colorMap s1.
Proof.
  intros s1. subst s1.
  pose proof (initializeNetworkFile_cases fileLines sampleDraw s) as H.
  destruct (omap parseLine (tl fileLines)) as [pairs|e] eqn:Hp.
  - unfold exec at 1 2. rewrite H, (parsedPrefix_all _ _ Hp).
    apply initializeNetwork_built.
  - unfold exec. rewrite H. now split.
Qed.

(** X1. The graph [initializeNetwork] builds from the lines of a network
    file has exactly the edges of its data lines (the header is skipped; a
    data line gives its two first comma-separated fields, stripped; a line
    given twice is one edge), up to the first data line without a comma:
    exactly their endpoints as nodes, each node once, every successor list
    without repetition, every successor a node, and every node coloured
    as unsuspected.  This holds whatever the state it starts from and
    also when it raises; when every data line has a comma the edges are
    those of all data lines. *)
Theorem initializeNetworkFile_graph (fileLines : list string) (sampleDraw : nat)
    (s : GameState) :
  let s' := exec (initializeNetworkFile fileLines sampleDraw) s in
  let pairs := parsedPrefix (tl fileLines) in
  (forall a b, DiGraph.has_edge (graph s') a b = true <-> In (a, b) pairs) /\
  (forall n, DiGraph.has_node (graph s') n = true <->
             exists line, In line pairs /\ (fst line = n \/ snd line = n)) /\
  NoDup (DiGraph.nodes (graph s')) /\
  (forall n successors, DiGraph.adj (graph s') n = Some successors -> NoDup successors) /\
  graph_closed (graph s') /\
  (forall n, DiGraph.has_node (graph s') n = true ->
             dict_get (colorMap s') n = Some "blue"%string) /\
  (forall parsed, omap parseLine (tl fileLines) = Val parsed -> pairs = parsed) /\
  (forall line, In line (tl fileLines) ->
     match parseLine line with
     | Val fields =>
         occurs ","%char line = true /\
         exists sourceField sinkField rest,
           split ","%char line = sourceField :: sinkField :: rest /\
           fields = (strip sourceField, strip sinkField)
     | Raise e => occurs ","%char line = false /\ e = IndexError
     end).
Proof.
  intros s' pairs. subst s'.
  destruct (initializeNetworkFile_built fileLines sampleDraw s) as [-> ->].
  fold pairs.
  destruct (fold_addNetworkLine_graph pairs (set_graph [] s)) as (He & Hn & Hd & Hc).
  split; [|split; [|split; [|split; [|split; [|split; [|split]]]]]].
  - intros a b. rewrite He. simpl. rewrite existsb_exists. split.
    + intros [line [Hin Hl]]. apply line_is_true in Hl. now subst.
    + intros Hin. exists (a, b). split; [assumption | now apply line_is_true].
  - intros n. rewrite Hn. simpl. rewrite existsb_exists. split.
    + intros [line [Hin Hl]]. exists line. split; [assumption | now apply line_has_true].
    + intros [line [Hin Hl]]. exists line. split; [assumption | now apply line_has_true].
  - apply Hd. constructor.
  - apply (fold_addNetworkLine_successors pairs (set_graph [] s)).
    intros n vs H. discriminate.
  - apply (BuildFacts.fold_addNetworkLine pairs (set_graph [] s)).
    intros u v H. discriminate.
  - apply Hc. intros n H. discriminate.
  - intros parsed. apply parsedPrefix_all.
  - intros line _. unfold parseLine.
    destruct (occurs ","%char line) eqn:Ho.
    + destruct (split_two _ _ Ho) as (a & b & rest & Hs). rewrite Hs. cbn.
      split; [reflexivity|]. now exists a, b, rest.
    + rewrite (split_whole _ _ Ho). cbn. now split.
Qed.

(** X2. On the lines of a network file [initializeNetwork] raises
    IndexError when a data line (any line after the header) has no comma,
    leaving the infected, quarantined and reachable lists as they were;
    it raises ValueError when the file has no data line (there is no
    node to infect); and it returns otherwise, with one infected node,
    which is a node of the graph, no quarantined node and the
    reachability flags of that state, exactly as on the parsed lines. *)
Theorem initializeNetworkFile_outcome (fileLines : list string) (sampleDraw : nat)
    (s : GameState) :
  let s' := exec (initializeNetworkFile fileLines sampleDraw) s in
  match omap parseLine (tl fileLines) with
  | Raise _ =>
      Exists (fun line => occurs ","%char line = false) (tl fileLines) /\
      result (initializeNetworkFile fileLines sampleDraw) s = Raise IndexError /\
      infectedNodes s' = infectedNodes s /\
      quarantinedNodes s' = quarantinedNodes s /\
      reachableNodes s' = reachableNodes s
  | Val [] =>
      tl fileLines = [] /\
      result (initializeNetworkFile fileLines sampleDraw) s = Raise ValueError
  | Val (parsed :: pairs) =>
      Forall (fun line => occurs ","%char line = true) (tl fileLines) /\
      initializeNetworkFile fileLines sampleDraw s =
        initializeNetwork (parsed :: pairs) sampleDraw s /\
      result (initializeNetworkFile fileLines sampleDraw) s = Val tt /\
      (exists node, infectedNodes s' = [node] /\
                    DiGraph.has_node (graph s') node = true) /\
      quarantinedNodes s' = [] /\
      recomputeReachable s' = Val (reachableNodes s')
  end.
Proof.
  intros s'. subst s'.
  pose proof (initializeNetworkFile_cases fileLines sampleDraw s) as H.
  destruct (omap parseLine (tl fileLines)) as [[|parsed pairs]|e] eqn:Hp.
  - split.
    + destruct (tl fileLines) as [|line rest]; [reflexivity|]. exfalso.
      simpl in Hp. destruct (parseLine line); [|discriminate]. cbn [obind] in Hp.
      destruct (omap parseLine rest); discriminate.
    + unfold result. rewrite H. reflexivity.
  - split; [now apply (omap_parseLine_returns _ _ Hp)|]. split; [exact H|].
    unfold result, exec. rewrite H.
    exact (initializeNetwork_outcome (parsed :: pairs) sampleDraw s).
  - split; [now apply (omap_parseLine_raises _ _ Hp)|].
    unfold result, exec. rewrite H. cbn [fst snd]. split; [reflexivity|].
    set (ps := parsedPrefix (tl fileLines)). clearbody ps. clear.
    assert (Hfold : forall l t,
              infectedNodes (fold_left addNetworkLine l t) = infectedNodes t /\
              quarantinedNodes (fold_left addNetworkLine l t) = quarantinedNodes t /\
              reachableNodes (fold_left addNetworkLine l t) = reachableNodes t).
    { induction l as [|q l IH]; intros t; simpl; [now repeat split|].
      destruct (IH (addNetworkLine t q)) as (-> & -> & ->).
      unfold addNetworkLine. cbv zeta.
      destruct (DiGraph.has_node (graph t) (fst q));
        match goal with |- context [if ?b then _ else _] => destruct b end;
        now repeat split. }
    exact (Hfold ps (set_graph [] s)).
Qed.

Lemma initializeNetworkFile_outcome_witness :
  initializeNetworkFile Scenario.networkFile 0 (Scenario.blank []) =
    initializeNetwork [("A", "B"); ("B", "C")]%string 0 (Scenario.blank []) /\
  result (initializeNetworkFile Scenario.networkFile 0) (Scenario.blank []) = Val tt /\
  result (initializeNetworkFile Scenario.networkFileBlankLine 0) (Scenario.blank [])
    = Raise IndexError /\
  graph (exec (initializeNetworkFile Scenario.networkFileBlankLine 0) (Scenario.blank []))
    = [("A", ["B"]); ("B", [])]%string /\
  result (initializeNetworkFile ["source,sink"%string] 0) (Scenario.blank [])
    = Raise ValueError.
Proof.
  pose proof (initializeNetworkFile_outcome Scenario.networkFile 0 (Scenario.blank []))
    as Hfile.
  pose proof (initializeNetworkFile_outcome Scenario.networkFileBlankLine 0
                (Scenario.blank [])) as Hblank.
  pose proof (initializeNetworkFile_outcome ["source,sink"%string] 0 (Scenario.blank []))
    as Hempty.
  cbv zeta in Hfile, Hblank, Hempty.
  change (omap parseLine (tl Scenario.networkFile))
    with (@Val (list (Node * Node)) [("A", "B"); ("B", "C")]%string) in Hfile.
  change (omap parseLine (tl Scenario.networkFileBlankLine))
    with (@Raise (list (Node * Node)) IndexError) in Hblank.
  change (omap parseLine (tl ["source,sink"%string]))
    with (@Val (list (Node * Node)) []) in Hempty.
  cbv iota in Hfile, Hblank, Hempty.
  destruct Hfile as (_ & Heq & Hres & _).
  destruct Hblank as (_ & Hraise & _).
  destruct Hempty as (_ & Hvalue).
  split; [exact Heq|]. split; [exact Hres|]. split; [exact Hraise|].
  split; [reflexivity | exact Hvalue].
Defined.
